(** * The tabular data grid of the ESG chatbot front end

    A shallow embedding of [frontend/src/components/DataTable.js] (the
    [DataTable] React component: sorting, row limit, pagination, cell
    expansion, export) and of the CSV helper [convertToCSV] of
    [frontend/src/utils/helpers.js], with the properties of the grid engine
    proved about them.

    Conventions of the embedding.
    - A JavaScript string is a sequence of UTF-16 code units; the model covers
      the code units 0..255 (ISO 8859-1), one [ascii] each, so [String.length]
      is the [length] property.
    - A JavaScript Number is an IEEE 754 binary64 value: a primitive [float].
    - A record (a JSON object) is an association list in key order.
    - What the host environment supplies and the repository does not define
      ([String.prototype.localeCompare], [Number::toString],
      [Number.prototype.toLocaleString], [JSON.stringify]) is a [Variable] of
      the section that uses it. *)

From Stdlib Require Import List String Ascii ZArith Lia Bool Floats.
From Stdlib Require Import Permutation Sorted.
Import ListNotations.

Local Open Scope string_scope.
Local Open Scope Z_scope.

(** ** Strings *)

Module JsString.

(** The double quote character, code unit 34. *)
Definition dquote : ascii := ascii_of_nat 34.
(** The line feed character, code unit 10. *)
Definition newline : ascii := ascii_of_nat 10.

Definition str (c : ascii) : string := String c EmptyString.

(** [s.includes(needle)] *)
Fixpoint includes (needle s : string) : bool :=
  String.prefix needle s
  || match s with
     | EmptyString => false
     | String _ s' => includes needle s'
     end.

(** [s.replace(/c/g, by)] for a one-character pattern [c]. *)
Fixpoint replaceAll (c : ascii) (by_ s : string) : string :=
  match s with
  | EmptyString => EmptyString
  | String a s' =>
      if Ascii.eqb a c then by_ ++ replaceAll c by_ s'
      else String a (replaceAll c by_ s')
  end.

(** [Array.prototype.join] on an array of strings. *)
Fixpoint join (sep : string) (l : list string) : string :=
  match l with
  | [] => EmptyString
  | [x] => x
  | x :: rest => x ++ sep ++ join sep rest
  end.

(** [s.substring(0, n)] for [n >= 0]. *)
Definition substring0 (n : nat) (s : string) : string := String.substring 0 n s.

(** The white space and line terminators of ECMAScript below code unit 256:
    TAB, LF, VT, FF, CR, SP and NBSP.  This is the class [\s] and what
    [parseFloat] skips. *)
Definition isWhiteSpace (c : ascii) : bool :=
  let n := nat_of_ascii c in
  ((9 <=? n) && (n <=? 13) || (n =? 32) || (n =? 160))%nat.

(** [s.toLowerCase()]: A..Z, and the capital letters of ISO 8859-1
    (0xC0..0xDE but the multiplication sign 0xD7), move up by 32. *)
Definition lowerChar (c : ascii) : ascii :=
  let n := nat_of_ascii c in
  if ((65 <=? n) && (n <=? 90)
      || (192 <=? n) && (n <=? 222) && negb (n =? 215))%nat
  then ascii_of_nat (n + 32) else c.

Fixpoint toLowerCase (s : string) : string :=
  match s with
  | EmptyString => EmptyString
  | String c s' => String (lowerChar c) (toLowerCase s')
  end.

(** [s.replace(/\s+/g, by)]: every maximal run of white space becomes one
    [by_].  [inRun] says that the previous character was white space. *)
Fixpoint replaceSpaceRuns (by_ : string) (inRun : bool) (s : string) : string :=
  match s with
  | EmptyString => EmptyString
  | String c s' =>
      if isWhiteSpace c
      then (if inRun then EmptyString else by_) ++ replaceSpaceRuns by_ true s'
      else String c (replaceSpaceRuns by_ false s')
  end.

End JsString.

(** ** Numbers: [parseFloat] *)

Module JsNumber.

Definition isDigit (c : ascii) : bool :=
  let n := nat_of_ascii c in ((48 <=? n) && (n <=? 57))%nat.

Definition digitVal (c : ascii) : Z := Z.of_nat (nat_of_ascii c) - 48.

(** The longest prefix of decimal digits, and what follows it. *)
Fixpoint spanDigits (s : list ascii) : list ascii * list ascii :=
  match s with
  | c :: s' =>
      if isDigit c then let (d, r) := spanDigits s' in (c :: d, r)
      else ([], s)
  | [] => ([], [])
  end.

Definition digitsValue (d : list ascii) : Z :=
  fold_left (fun acc c => 10 * acc + digitVal c) d 0.

Fixpoint trimStart (s : list ascii) : list ascii :=
  match s with
  | c :: s' => if JsString.isWhiteSpace c then trimStart s' else s
  | [] => []
  end.

Fixpoint startsWith (p s : list ascii) : bool :=
  match p, s with
  | [], _ => true
  | a :: p', b :: s' => Ascii.eqb a b && startsWith p' s'
  | _ :: _, [] => false
  end.

(** The value of the longest prefix that is a StrUnsignedDecimalLiteral. *)
Inductive Decimal : Type :=
| DInfinity
| DFinite (mantissa : Z) (exp10 : Z).

(** ExponentPart, if one is there: [e] or [E], an optional sign, and at
    least one digit; otherwise the exponent is absent and counts as 0. *)
Definition exponentPart (s : list ascii) : Z :=
  match s with
  | c :: s' =>
      if Ascii.eqb c "e" || Ascii.eqb c "E" then
        match s' with
        | sg :: s'' =>
            if Ascii.eqb sg "-" then
              let (d, _) := spanDigits s'' in
              match d with [] => 0 | _ => - digitsValue d end
            else if Ascii.eqb sg "+" then
              let (d, _) := spanDigits s'' in digitsValue d
            else let (d, _) := spanDigits s' in digitsValue d
        | [] => 0
        end
      else 0
  | [] => 0
  end.

Definition unsignedDecimal (s : list ascii) : option Decimal :=
  if startsWith (list_ascii_of_string "Infinity") s then Some DInfinity
  else
    let (ip, r1) := spanDigits s in
    let '(fp, r2) :=
      match r1 with
      | c :: r1' =>
          if Ascii.eqb c "." then
            let (fp, r2) := spanDigits r1' in
            match ip, fp with
            | [], [] => ([], r1) (* a lone point is no literal *)
            | _, _ => (fp, r2)
            end
          else ([], r1)
      | [] => ([], r1)
      end in
    match ip, fp with
    | [], [] => None
    | _, _ =>
        Some (DFinite (digitsValue (ip ++ fp)%list)
                      (exponentPart r2 - Z.of_nat (List.length fp)))
    end.

(** The binary64 value nearest to [m * 10^e] (ties to even), [m > 0]. For a
    negative [e] the quotient is taken with 64 bits or more and a sticky
    bit, which rounds as the exact quotient does. *)
Definition roundDecimal (m e : Z) : float :=
  if m <=? 0 then zero
  else if 0 <=? e then
    SF2Prim (binary_normalize prec emax (m * 10 ^ e) 0 false)
  else
    let d := 10 ^ (- e) in
    let s := Z.max 0 (64 + Z.log2 d - Z.log2 m) in
    let n := m * 2 ^ s in
    let q := n / d in
    let sticky := if n mod d =? 0 then 0 else 1 in
    SF2Prim (binary_normalize prec emax (2 * q + sticky) (- (s + 1)) false).

Definition decimalValue (d : Decimal) : float :=
  match d with
  | DInfinity => infinity
  | DFinite m e => roundDecimal m e
  end.

(** [parseFloat(s)] on a string: skip leading white space, read the longest
    prefix that is a StrDecimalLiteral, NaN when there is none. *)
Definition parseFloatChars (s : list ascii) : float :=
  let t := trimStart s in
  match t with
  | c :: t' =>
      if Ascii.eqb c "-" then
        match unsignedDecimal t' with
        | Some d => (- decimalValue d)%float
        | None => nan
        end
      else if Ascii.eqb c "+" then
        match unsignedDecimal t' with
        | Some d => decimalValue d
        | None => nan
        end
      else
        match unsignedDecimal t with
        | Some d => decimalValue d
        | None => nan
        end
  | [] => nan
  end.

Definition parseFloatString (s : string) : float :=
  parseFloatChars (list_ascii_of_string s).

(** [isNaN(x)] on a Number. *)
Definition isNaN (x : float) : bool := PrimFloat.is_nan x.

(** [isFinite(x)] on a Number. *)
Definition isFinite (x : float) : bool := PrimFloat.is_finite x.

End JsNumber.

(** ** Values, records, datasets *)

(** A cell value as JSON delivers it, and [undefined] for a missing key. *)
Inductive Value : Type :=
| VUndefined
| VNull
| VBoolean (b : bool)
| VNumber (x : float)
| VString (s : string).

(** A record: its keys in [Object.keys] order, each with its value. *)
Definition Record : Type := list (string * Value).
Definition Dataset : Type := list Record.

(** [row[key]]: [undefined] when the record has no such key. *)
Fixpoint get (row : Record) (key : string) : Value :=
  match row with
  | [] => VUndefined
  | (k, v) :: rest => if String.eqb k key then v else get rest key
  end.

(** [Object.keys(row)] *)
Definition Object_keys (row : Record) : list string := map fst row.

(** [v == null]: true of [null] and of [undefined]. *)
Definition isNullish (v : Value) : bool :=
  match v with
  | VUndefined | VNull => true
  | _ => false
  end.

(** What the JavaScript engine and its locale supply. *)
Record Host : Type := {
  (** [a.localeCompare(b)]: negative, zero or positive *)
  localeCompare : string -> string -> float;
  (** [String(x)] for a Number [x] *)
  Number_toString : float -> string;
  (** [x.toLocaleString()] for a Number [x] *)
  Number_toLocaleString : float -> string
}.

Section Conversions.

Variable host : Host.

(** [String(v)] *)
Definition ToString (v : Value) : string :=
  match v with
  | VUndefined => "undefined"
  | VNull => "null"
  | VBoolean true => "true"
  | VBoolean false => "false"
  | VNumber x => Number_toString host x
  | VString s => s
  end.

(** [parseFloat(v)]: the argument is converted to a string first. *)
Definition parseFloat (v : Value) : float :=
  JsNumber.parseFloatString (ToString v).

(** [Array.prototype.join]: [undefined] and [null] elements give the empty
    string, the others their [String] form. *)
Definition Array_join (sep : string) (l : list Value) : string :=
  JsString.join sep
    (map (fun v => if isNullish v then EmptyString else ToString v) l).

(** [JSON.stringify]'s QuoteJSONString: the escapes of one code unit. *)
Definition hexDigit (n : nat) : ascii :=
  ascii_of_nat (if (n <? 10)%nat then 48 + n else 87 + n).

Definition quoteChar (c : ascii) : string :=
  let n := nat_of_ascii c in
  let bs := ascii_of_nat 92 in
  if (n =? 8)%nat then String bs "b"
  else if (n =? 9)%nat then String bs "t"
  else if (n =? 10)%nat then String bs "n"
  else if (n =? 12)%nat then String bs "f"
  else if (n =? 13)%nat then String bs "r"
  else if (n =? 34)%nat then String bs (JsString.str c)
  else if (n =? 92)%nat then String bs (JsString.str c)
  else if (n <? 32)%nat then
    String bs ("u00" ++ String (hexDigit (n / 16)) (JsString.str (hexDigit (n mod 16))))
  else JsString.str c.

Definition quoteJSONString (s : string) : string :=
  String JsString.dquote
    (String.concat EmptyString (map quoteChar (list_ascii_of_string s))
     ++ JsString.str JsString.dquote).

(** A property value; a Number that is not finite is written [null]. *)
Definition jsonValue (v : Value) : string :=
  match v with
  | VUndefined | VNull => "null"
  | VBoolean _ => ToString v
  | VNumber x => if JsNumber.isFinite x then ToString v else "null"
  | VString s => quoteJSONString s
  end.

(** An object inside the array, with the gap of two spaces; a property whose
    value is [undefined] is left out. *)
Definition jsonObject (row : Record) : string :=
  let nl := JsString.str JsString.newline in
  let members :=
    map (fun kv => quoteJSONString (fst kv) ++ ": " ++ jsonValue (snd kv))
        (filter (fun kv => match snd kv with VUndefined => false | _ => true end) row) in
  match members with
  | [] => "{}"
  | _ => "{" ++ nl ++ "    " ++ JsString.join ("," ++ nl ++ "    ") members
         ++ nl ++ "  }"
  end.

(** [JSON.stringify(rows, null, 2)] *)
Definition JSON_stringify (rows : Dataset) : string :=
  let nl := JsString.str JsString.newline in
  match rows with
  | [] => "[]"
  | _ => "[" ++ nl ++ "  " ++ JsString.join ("," ++ nl ++ "  ") (map jsonObject rows)
         ++ nl ++ "]"
  end.

End Conversions.

(** ** Arrays: [slice] and [sort] *)

Module JsArray.

Section Slice.
Context {A : Type}.

(** A relative index as [slice] reads it: a negative one counts from the
    end, and the result is clamped to [0, len]. *)
Definition relIndex (len i : Z) : Z :=
  if i <? 0 then Z.max (len + i) 0 else Z.min i len.

(** [l.slice(start, end)] *)
Definition slice (start end_ : Z) (l : list A) : list A :=
  let len := Z.of_nat (List.length l) in
  let k := relIndex len start in
  let final := relIndex len end_ in
  firstn (Z.to_nat (final - k)) (skipn (Z.to_nat k) l).
End Slice.

(** [Array.prototype.sort(comparefn)] on an array without holes or
    [undefined] elements.  ECMAScript asks for a stable sort and reads the
    comparator's result by its sign, NaN counting as zero; where [comparefn]
    is not a consistent comparator the standard leaves the order to the
    engine.  The engine's algorithm is not part of the repository: the model
    follows the one of V8 (Node.js, Chrome), [builtins/array-sort.tq], a
    merge sort on the runs found in the array, which are made up to a
    minimum length by binary insertion and merged with galloping.  The
    array, the temporary array and the stack of pending runs of the engine
    are lists here: a run is the list of its elements, and a loop that
    moves elements from two arrays into a third returns the list of what it
    moved.  Every comparison is made with the arguments in the order the
    engine gives them.  A loop of the engine is a function that counts its
    rounds down from a number the lengths at hand make enough. *)
Section Sort.
Context {A : Type}.
Variable comparefn : A -> A -> float.

(** [comparefn(x, e) < 0]: false when the result is NaN. *)
Definition sortsBefore (x e : A) : bool := (comparefn x e <? 0)%float.

(** [a[i]] for an index inside the array; the searches below read no
    other, and [key] stands for what lies outside. *)
Definition item (a : list A) (key : A) (i : Z) : A := nth (Z.to_nat i) a key.

(** [ComputeMinRunLength] *)
Fixpoint minRunLoop (fuel : nat) (n r : Z) : Z :=
  match fuel with
  | O => n + r
  | S fuel' =>
      if 64 <=? n then minRunLoop fuel' (Z.shiftr n 1) (Z.lor r (Z.land n 1))
      else n + r
  end.

Definition computeMinRunLength (n : Z) : Z := minRunLoop (Z.to_nat n) n 0.

(** [CountAndMakeRun]: how many elements after the second go on with the
    run, each compared with the one before it. *)
Fixpoint runRest (isDescending : bool) (previousElement : A) (l : list A) : nat :=
  match l with
  | [] => O
  | currentElement :: rest =>
      if Bool.eqb (sortsBefore currentElement previousElement) isDescending
      then S (runRest isDescending currentElement rest)
      else O
  end.

(** [CountAndMakeRun]: the run the array starts with, a descending one
    reversed, and what follows it. *)
Definition countAndMakeRun (l : list A) : list A * list A :=
  match l with
  | elementHigh :: elementLow :: rest =>
      let isDescending := sortsBefore elementLow elementHigh in
      let runLength := S (S (runRest isDescending elementLow rest)) in
      let run := firstn runLength l in
      (if isDescending then rev run else run, skipn runLength l)
  | _ => (l, [])
  end.

(** The binary search of [BinaryInsertionSort] and of the two gallops:
    the bounds close in on each other, the middle going right when
    [goRight] says so. *)
Fixpoint bisect (fuel : nat) (goRight : Z -> bool) (left right : Z) : Z :=
  match fuel with
  | O => right
  | S fuel' =>
      if left <? right then
        let mid := left + Z.shiftr (right - left) 1 in
        if goRight mid then bisect fuel' goRight (mid + 1) right
        else bisect fuel' goRight left mid
      else right
  end.

(** One round of [BinaryInsertionSort]: [pivot], the element after the
    sorted [run], goes where the search puts it. *)
Definition binaryInsert (run : list A) (pivot : A) : list A :=
  let left :=
    bisect (List.length run)
           (fun mid => negb (sortsBefore pivot (item run pivot mid)))
           0 (Z.of_nat (List.length run)) in
  (firstn (Z.to_nat left) run ++ pivot :: skipn (Z.to_nat left) run)%list.

(** [BinaryInsertionSort]: the elements of [rest] join the run one by one. *)
Definition binaryInsertionSort (run rest : list A) : list A :=
  fold_left binaryInsert rest run.

(** The galloping of [GallopLeft] and [GallopRight]: the offsets 1, 3, 7,
    ... are tried while they are below [maxOfs] and [further] holds. *)
Fixpoint gallop (fuel : nat) (further : Z -> bool) (maxOfs lastOfs offset : Z)
  : Z * Z :=
  match fuel with
  | O => (lastOfs, offset)
  | S fuel' =>
      if (offset <? maxOfs) && further offset
      then gallop fuel' further maxOfs offset (Z.shiftl offset 1 + 1)
      else (lastOfs, offset)
  end.

(** [GallopLeft]: where [key] belongs in the run [a], before the elements
    equal to it; the search starts at [hint]. *)
Definition gallopLeft (a : list A) (key : A) (hint : Z) : Z :=
  let length := Z.of_nat (List.length a) in
  let '(lastOfs, offset) :=
    if sortsBefore (item a key hint) key then
      let maxOfs := length - hint in
      let '(lastOfs, offset) :=
        gallop (List.length a)
               (fun offset => sortsBefore (item a key (hint + offset)) key)
               maxOfs 0 1 in
      (lastOfs + hint, Z.min offset maxOfs + hint)
    else
      let maxOfs := hint + 1 in
      let '(lastOfs, offset) :=
        gallop (List.length a)
               (fun offset => negb (sortsBefore (item a key (hint - offset)) key))
               maxOfs 0 1 in
      (hint - Z.min offset maxOfs, hint - lastOfs) in
  bisect (List.length a) (fun m => sortsBefore (item a key m) key)
         (lastOfs + 1) offset.

(** [GallopRight]: where [key] belongs in the run [a], after the elements
    equal to it. *)
Definition gallopRight (a : list A) (key : A) (hint : Z) : Z :=
  let length := Z.of_nat (List.length a) in
  let '(lastOfs, offset) :=
    if sortsBefore key (item a key hint) then
      let maxOfs := hint + 1 in
      let '(lastOfs, offset) :=
        gallop (List.length a)
               (fun offset => sortsBefore key (item a key (hint - offset)))
               maxOfs 0 1 in
      (hint - Z.min offset maxOfs, hint - lastOfs)
    else
      let maxOfs := length - hint in
      let '(lastOfs, offset) :=
        gallop (List.length a)
               (fun offset => negb (sortsBefore key (item a key (hint + offset))))
               maxOfs 0 1 in
      (lastOfs + hint, Z.min offset maxOfs + hint) in
  bisect (List.length a) (fun m => negb (sortsBefore key (item a key m)))
         (lastOfs + 1) offset.

(** [kMinGallopWins] *)
Definition kMinGallopWins : Z := 7.

(** The loops of [MergeLow].  [tempArray] holds what is left of run A, more
    than one element, and [workArray] what is left of run B, at least one;
    the result is the rest of the merged run with [minGallop] as the merge
    leaves it.  Not [galloping], the heads are compared and the winner
    moves; [galloping], whole stretches move. *)
Fixpoint mergeLowLoop (fuel : nat) (galloping : bool)
         (minGallop nofWinsA nofWinsB : Z) (tempArray workArray : list A)
  : list A * Z :=
  match fuel with
  | O => ((tempArray ++ workArray)%list, minGallop)
  | S fuel' =>
      match tempArray, workArray with
      | elementA :: restA, elementB :: restB =>
          if negb galloping then
            if sortsBefore elementB elementA then
              match restB with
              | [] => (elementB :: tempArray, minGallop)
              | _ =>
                  let '(merged, g) :=
                    if minGallop <=? nofWinsB + 1
                    then mergeLowLoop fuel' true (minGallop + 1) 0 (nofWinsB + 1)
                                      tempArray restB
                    else mergeLowLoop fuel' false minGallop 0 (nofWinsB + 1)
                                      tempArray restB in
                  (elementB :: merged, g)
              end
            else
              match restA with
              | [_] => ((elementA :: workArray ++ restA)%list, minGallop)
              | _ =>
                  let '(merged, g) :=
                    if minGallop <=? nofWinsA + 1
                    then mergeLowLoop fuel' true (minGallop + 1) (nofWinsA + 1) 0
                                      restA workArray
                    else mergeLowLoop fuel' false minGallop (nofWinsA + 1) 0
                                      restA workArray in
                  (elementA :: merged, g)
              end
          else
            let minGallop := Z.max 1 (minGallop - 1) in
            let nofWinsA := gallopRight tempArray elementB 0 in
            let wonA := firstn (Z.to_nat nofWinsA) tempArray in
            let tempArray := skipn (Z.to_nat nofWinsA) tempArray in
            match tempArray with
            | [] => ((wonA ++ workArray)%list, minGallop)
            | nextA :: afterA =>
                if (0 <? nofWinsA) && (List.length afterA =? 0)%nat
                then ((wonA ++ workArray ++ tempArray)%list, minGallop)
                else
                  match restB with
                  | [] => ((wonA ++ elementB :: tempArray)%list, minGallop)
                  | _ =>
                      let nofWinsB := gallopLeft restB nextA 0 in
                      let wonB := firstn (Z.to_nat nofWinsB) restB in
                      let workArray := skipn (Z.to_nat nofWinsB) restB in
                      match workArray with
                      | [] => ((wonA ++ elementB :: wonB ++ tempArray)%list, minGallop)
                      | _ =>
                          match afterA with
                          | [_] =>
                              ((wonA ++ elementB :: wonB ++ nextA :: workArray ++ afterA)%list,
                               minGallop)
                          | _ =>
                              let '(merged, g) :=
                                if (kMinGallopWins <=? nofWinsA)
                                   || (kMinGallopWins <=? nofWinsB)
                                then mergeLowLoop fuel' true minGallop nofWinsA nofWinsB
                                                  afterA workArray
                                else mergeLowLoop fuel' false (minGallop + 1) 0 0
                                                  afterA workArray in
                              ((wonA ++ elementB :: wonB ++ nextA :: merged)%list, g)
                          end
                      end
                  end
            end
      | _, _ => ((tempArray ++ workArray)%list, minGallop)
      end
  end.

(** [MergeLow]: run B is not longer than run A... see [mergeAt]; the first
    element of B goes first. *)
Definition mergeLow (minGallop : Z) (runA runB : list A) : list A * Z :=
  match runB with
  | [] => (runA, minGallop)
  | elementB :: restB =>
      match restB, runA with
      | [], _ => (elementB :: runA, minGallop)
      | _, [_] => ((runB ++ runA)%list, minGallop)
      | _, _ =>
          let '(merged, g) :=
            mergeLowLoop (List.length runA + List.length runB) false
                         minGallop 0 0 runA restB in
          (elementB :: merged, g)
      end
  end.

(** The loops of [MergeHigh], which fills the merged run from its end.
    [workArray] holds what is left of run A, at least one element, and
    [tempArray] what is left of run B, more than one, both last element
    first; so is the result, the rest of the merged run. *)
Fixpoint mergeHighLoop (fuel : nat) (galloping : bool)
         (minGallop nofWinsA nofWinsB : Z) (workArray tempArray : list A)
  : list A * Z :=
  match fuel with
  | O => ((tempArray ++ workArray)%list, minGallop)
  | S fuel' =>
      match workArray, tempArray with
      | elementA :: restA, elementB :: restB =>
          if negb galloping then
            if sortsBefore elementB elementA then
              match restA with
              | [] => (elementA :: tempArray, minGallop)
              | _ =>
                  let '(merged, g) :=
                    if minGallop <=? nofWinsA + 1
                    then mergeHighLoop fuel' true (minGallop + 1) (nofWinsA + 1) 0
                                       restA tempArray
                    else mergeHighLoop fuel' false minGallop (nofWinsA + 1) 0
                                       restA tempArray in
                  (elementA :: merged, g)
              end
            else
              match restB with
              | [_] => ((elementB :: workArray ++ restB)%list, minGallop)
              | _ =>
                  let '(merged, g) :=
                    if minGallop <=? nofWinsB + 1
                    then mergeHighLoop fuel' true (minGallop + 1) 0 (nofWinsB + 1)
                                       workArray restB
                    else mergeHighLoop fuel' false minGallop 0 (nofWinsB + 1)
                                       workArray restB in
                  (elementB :: merged, g)
              end
          else
            let minGallop := Z.max 1 (minGallop - 1) in
            let lengthA := Z.of_nat (List.length workArray) in
            let k := gallopRight (rev workArray) elementB (lengthA - 1) in
            let nofWinsA := lengthA - k in
            let wonA := firstn (Z.to_nat nofWinsA) workArray in
            let workArray := skipn (Z.to_nat nofWinsA) workArray in
            match workArray with
            | [] => ((wonA ++ tempArray)%list, minGallop)
            | nextA :: afterA =>
                match restB with
                | [_] => ((wonA ++ elementB :: workArray ++ restB)%list, minGallop)
                | _ =>
                    let lengthB := Z.of_nat (List.length restB) in
                    let k := gallopLeft (rev restB) nextA (lengthB - 1) in
                    let nofWinsB := lengthB - k in
                    let wonB := firstn (Z.to_nat nofWinsB) restB in
                    let tempArray := skipn (Z.to_nat nofWinsB) restB in
                    match tempArray with
                    | [] => ((wonA ++ elementB :: wonB ++ workArray)%list, minGallop)
                    | nextB :: afterB =>
                        if (0 <? nofWinsB) && (List.length afterB =? 0)%nat
                        then ((wonA ++ elementB :: wonB ++ workArray ++ tempArray)%list,
                              minGallop)
                        else
                          match afterA with
                          | [] =>
                              ((wonA ++ elementB :: wonB ++ nextA :: tempArray)%list,
                               minGallop)
                          | _ =>
                              let '(merged, g) :=
                                if (kMinGallopWins <=? nofWinsA)
                                   || (kMinGallopWins <=? nofWinsB)
                                then mergeHighLoop fuel' true minGallop nofWinsA nofWinsB
                                                   afterA tempArray
                                else mergeHighLoop fuel' false (minGallop + 1) 0 0
                                                   afterA tempArray in
                              ((wonA ++ elementB :: wonB ++ nextA :: merged)%list, g)
                          end
                    end
                end
            end
      | _, _ => ((tempArray ++ workArray)%list, minGallop)
      end
  end.

(** [MergeHigh]: the last element of A goes last. *)
Definition mergeHigh (minGallop : Z) (runA runB : list A) : list A * Z :=
  match rev runA with
  | [] => (runB, minGallop)
  | elementA :: restA =>
      match restA, runB with
      | [], _ => ((runB ++ runA)%list, minGallop)
      | _, [_] => ((runB ++ runA)%list, minGallop)
      | _, _ =>
          let '(merged, g) :=
            mergeHighLoop (List.length runA + List.length runB) false
                          minGallop 0 0 restA (rev runB) in
          (rev (elementA :: merged), g)
      end
  end.

(** [MergeAt]: two neighbouring runs, [runA] before [runB], become one.
    The elements of A that belong before B and those of B that belong after
    A stay; what is between them is merged, from the side of the shorter
    rest. *)
Definition mergeAt (minGallop : Z) (runA runB : list A) : list A * Z :=
  match runB with
  | [] => (runA, minGallop)
  | keyRight :: _ =>
      let k := Z.to_nat (gallopRight runA keyRight 0) in
      let restA := skipn k runA in
      match rev restA with
      | [] => ((runA ++ runB)%list, minGallop)
      | keyLeft :: _ =>
          let lengthB :=
            Z.to_nat (gallopLeft runB keyLeft (Z.of_nat (List.length runB) - 1)) in
          let restB := firstn lengthB runB in
          match restB with
          | [] => ((runA ++ runB)%list, minGallop)
          | _ =>
              let '(merged, g) :=
                if (List.length restA <=? List.length restB)%nat
                then mergeLow minGallop restA restB
                else mergeHigh minGallop restA restB in
              ((firstn k runA ++ merged ++ skipn lengthB runB)%list, g)
          end
      end
  end.

(** [MergeCollapse]: runs are merged until, from the last run down, each
    run is longer than the two after it together and the last but one is
    longer than the last. *)
Fixpoint mergeCollapse (fuel : nat) (minGallop : Z) (pendingRuns : list (list A))
  : list (list A) * Z :=
  match fuel with
  | O => (pendingRuns, minGallop)
  | S fuel' =>
      match pendingRuns with
      | x :: y :: below =>
          let established (a b c : list A) :=
            (List.length b + List.length c <? List.length a)%nat in
          let broken :=
            match below with
            | z :: w :: _ => negb (established z y x) || negb (established w z y)
            | [z] => negb (established z y x)
            | [] => false
            end in
          if broken then
            match below with
            | z :: lower =>
                if (List.length z <? List.length x)%nat then
                  let '(merged, g) := mergeAt minGallop z y in
                  mergeCollapse fuel' g (x :: merged :: lower)
                else
                  let '(merged, g) := mergeAt minGallop y x in
                  mergeCollapse fuel' g (merged :: below)
            | [] => (pendingRuns, minGallop)
            end
          else if (List.length y <=? List.length x)%nat then
            let '(merged, g) := mergeAt minGallop y x in
            mergeCollapse fuel' g (merged :: below)
          else (pendingRuns, minGallop)
      | _ => (pendingRuns, minGallop)
      end
  end.

(** [MergeForceCollapse]: the runs that are left become one. *)
Fixpoint mergeForceCollapse (fuel : nat) (minGallop : Z) (pendingRuns : list (list A))
  : list A :=
  match fuel with
  | O => List.concat (rev pendingRuns)
  | S fuel' =>
      match pendingRuns with
      | [] => []
      | [x] => x
      | x :: y :: below =>
          match below with
          | z :: lower =>
              if (List.length z <? List.length x)%nat then
                let '(merged, g) := mergeAt minGallop z y in
                mergeForceCollapse fuel' g (x :: merged :: lower)
              else
                let '(merged, g) := mergeAt minGallop y x in
                mergeForceCollapse fuel' g (merged :: below)
          | [] =>
              let '(merged, g) := mergeAt minGallop y x in
              mergeForceCollapse fuel' g (merged :: below)
          end
      end
  end.

(** The loop of [ArrayTimSortImpl]: the next run is found, made at least
    [minRunLength] long by binary insertion, pushed and merged with the
    runs before it as [MergeCollapse] asks. *)
Fixpoint timSortLoop (fuel : nat) (minRunLength : nat) (minGallop : Z)
         (pendingRuns : list (list A)) (remaining : list A) : list A :=
  match fuel with
  | O => (List.concat (rev pendingRuns) ++ remaining)%list
  | S fuel' =>
      match remaining with
      | [] => mergeForceCollapse (List.length pendingRuns) minGallop pendingRuns
      | _ =>
          let '(run, rest) := countAndMakeRun remaining in
          let forced := (Nat.min minRunLength (List.length remaining)
                         - List.length run)%nat in
          let run := binaryInsertionSort run (firstn forced rest) in
          let rest := skipn forced rest in
          let '(pendingRuns, g) :=
            mergeCollapse (S (List.length pendingRuns)) minGallop (run :: pendingRuns) in
          timSortLoop fuel' minRunLength g pendingRuns rest
      end
  end.

(** [Array.prototype.sort(comparefn)] on an array without holes or
    [undefined] elements. *)
Definition sort (l : list A) : list A :=
  if (List.length l <? 2)%nat then l
  else timSortLoop (S (List.length l))
                   (Z.to_nat (computeMinRunLength (Z.of_nat (List.length l))))
                   kMinGallopWins [] l.

End Sort.

End JsArray.

(** ** The [DataTable] component *)

Module DataTable.

(** The two values [sortDirection] takes: ['asc'] and ['desc']. *)
Inductive SortDirection : Type := asc | desc.

Record ExpandedCell : Type := {
  value : string;
  column : string;
  rowIndex : nat
}.

(** The component's state: the four [useState] cells. *)
Record State : Type := {
  sortColumn : option string;
  sortDirection : SortDirection;
  currentPage : Z;
  expandedCell : option ExpandedCell
}.

(** The props the logic reads ([showExport] and [maxHeight] only style the
    markup).  [maxRows] is [null] or an integer. *)
Record Props : Type := {
  data : Dataset;
  title : string;
  maxRows : option Z
}.

(** The initial values given to [useState]. *)
Definition initialState : State :=
  {| sortColumn := None; sortDirection := asc;
     currentPage := 1; expandedCell := None |}.

Definition rowsPerPage : Z := 10.

(** Truthiness of [sortColumn]: [null] and the empty string are falsy. *)
Definition truthyColumn (c : option string) : bool :=
  match c with
  | Some s => negb (String.eqb s EmptyString)
  | None => false
  end.

(** Truthiness of [maxRows]: [null] and 0 are falsy. *)
Definition truthyRows (m : option Z) : bool :=
  match m with
  | Some n => negb (n =? 0)
  | None => false
  end.

Definition setCurrentPage (page : Z) (st : State) : State :=
  {| sortColumn := sortColumn st; sortDirection := sortDirection st;
     currentPage := page; expandedCell := expandedCell st |}.

Definition setSortColumn (c : string) (st : State) : State :=
  {| sortColumn := Some c; sortDirection := sortDirection st;
     currentPage := currentPage st; expandedCell := expandedCell st |}.

Definition setSortDirection (d : SortDirection) (st : State) : State :=
  {| sortColumn := sortColumn st; sortDirection := d;
     currentPage := currentPage st; expandedCell := expandedCell st |}.

Definition setExpandedCell (c : option ExpandedCell) (st : State) : State :=
  {| sortColumn := sortColumn st; sortDirection := sortDirection st;
     currentPage := currentPage st; expandedCell := c |}.

(** [handleSort] *)
Definition handleSort (col : string) (st : State) : State :=
  let st' :=
    match sortColumn st with
    | Some c =>
        if String.eqb c col then
          setSortDirection
            (match sortDirection st with asc => desc | desc => asc end) st
        else setSortDirection asc (setSortColumn col st)
    | None => setSortDirection asc (setSortColumn col st)
    end in
  setCurrentPage 1 st'.

(** [handleCellClick] *)
Definition handleCellClick (v : Value) (col : string) (index : nat)
                           (st : State) : State :=
  match v with
  | VString s =>
      if (50 <? String.length s)%nat
      then setExpandedCell
             (Some {| value := s; column := col; rowIndex := index |}) st
      else st
  | _ => st
  end.

Section WithHost.

Variable host : Host.

(** The comparator handed to [sort]. *)
Definition compareRows (col : string) (dir : SortDirection)
                       (a b : Record) : float :=
  let aVal := get a col in
  let bVal := get b col in
  if isNullish aVal then 1%float
  else if isNullish bVal then (-1)%float
  else
    let aNum := parseFloat host aVal in
    let bNum := parseFloat host bVal in
    if negb (JsNumber.isNaN aNum) && negb (JsNumber.isNaN bNum) then
      match dir with
      | asc => (aNum - bNum)%float
      | desc => (bNum - aNum)%float
      end
    else
      let aStr := JsString.toLowerCase (ToString host aVal) in
      let bStr := JsString.toLowerCase (ToString host bVal) in
      match dir with
      | asc => localeCompare host aStr bStr
      | desc => localeCompare host bStr aStr
      end.

(** [processedData]: the rows the table shows over all its pages. *)
Definition processedData (p : Props) (st : State) : Dataset :=
  match data p with
  | [] => []
  | _ =>
      let sortedData := data p in
      let sortedData :=
        if truthyColumn (sortColumn st) then
          match sortColumn st with
          | Some col =>
              JsArray.sort (compareRows col (sortDirection st)) sortedData
          | None => sortedData
          end
        else sortedData in
      match maxRows p with
      | Some n =>
          if truthyRows (maxRows p) then JsArray.slice 0 n sortedData
          else sortedData
      | None => sortedData
      end
  end.

(** [Math.ceil(n / d)] for [n >= 0] and [d > 0]. *)
Definition ceilDiv (n d : Z) : Z := (n + d - 1) / d.

Definition totalPages (p : Props) (st : State) : Z :=
  ceilDiv (Z.of_nat (List.length (processedData p st))) rowsPerPage.

Definition startIndex (st : State) : Z := (currentPage st - 1) * rowsPerPage.
Definition endIndex (st : State) : Z := startIndex st + rowsPerPage.

(** [currentData]: the rows of the current page. *)
Definition currentData (p : Props) (st : State) : Dataset :=
  JsArray.slice (startIndex st) (endIndex st) (processedData p st).

(** [formatNumber] of the helpers: its argument is a Number here. *)
Definition formatNumber (x : float) : string := Number_toLocaleString host x.

(** [formatCellValue] *)
Definition formatCellValue (v : Value) : string :=
  match v with
  | VNull | VUndefined => "-"
  | VNumber x => formatNumber x
  | VString s =>
      if (50 <? String.length s)%nat
      then JsString.substring0 50 s ++ "..."
      else ToString host v
  | _ => ToString host v
  end.

(** [convertToCSV] of the helpers. *)
Definition convertToCSV (rows : Dataset) : string :=
  match rows with
  | [] => EmptyString
  | first :: _ =>
      let headers := Object_keys first in
      let csvHeaders := JsString.join "," headers in
      let csvRows :=
        map (fun row =>
               Array_join host ","
                 (map (fun header =>
                         let value := get row header in
                         let value :=
                           if isNullish value then VString EmptyString
                           else value in
                         match value with
                         | VString s =>
                             if JsString.includes "," s
                                || JsString.includes (JsString.str JsString.dquote) s
                                || JsString.includes (JsString.str JsString.newline) s
                             then
                               VString
                                 (JsString.str JsString.dquote
                                  ++ JsString.replaceAll JsString.dquote
                                       (String JsString.dquote
                                          (JsString.str JsString.dquote)) s
                                  ++ JsString.str JsString.dquote)
                             else value
                         | _ => value
                         end) headers)) rows in
      JsString.join (JsString.str JsString.newline) (csvHeaders :: csvRows)
  end.

(** What a download hands to the browser: the file name, the bytes of
    the Blob and its type. *)
Record Download : Type := {
  filename : string;
  content : string;
  mimeType : string
}.

(** [downloadCSV] and [downloadJSON] of the helpers. *)
Definition downloadCSV (rows : Dataset) (name : string) : Download :=
  {| filename := name; content := convertToCSV rows;
     mimeType := "text/csv;charset=utf-8;" |}.

Definition downloadJSON (rows : Dataset) (name : string) : Download :=
  {| filename := name; content := JSON_stringify host rows;
     mimeType := "application/json;charset=utf-8;" |}.

(** The rows [handleExport] passes on. *)
Definition exportData (p : Props) : Dataset :=
  match maxRows p with
  | Some n =>
      if truthyRows (maxRows p) then JsArray.slice 0 n (data p) else data p
  | None => data p
  end.

(** [handleExport]: it runs in a render of the component, so the state is
    in its scope. *)
Definition handleExport (p : Props) (st : State) (format : string) : Download :=
  let exportData := exportData p in
  let filename :=
    JsString.replaceSpaceRuns "_" false (JsString.toLowerCase (title p))
    ++ "." ++ format in
  if String.eqb format "csv" then downloadCSV exportData filename
  else downloadJSON exportData filename.

End WithHost.

(** A mounted table: its props and its state.  Mounting runs the
    [useState] initialisers.  A chat message mounts a table of its own for
    its results.  The database explorer mounts a table on a sample that
    arrives while it shows none; a sample that arrives while a table is
    shown reaches the mounted table as a new [data] prop, and the four
    cells stay as they are: see [ExplorerTable]. *)
Definition mount (p : Props) : Props * State := (p, initialState).

(** *** The handlers as the markup wires them *)

(** What the user can do with a rendered table. *)
Inductive Event : Type :=
| ClickHeader (col : string)
| ClickCell (index : nat) (col : string)
| ClickPrevious
| ClickNext
| ClickPage (page : Z)
| ClickExport (format : string)
| CloseExpanded.

Section Render.

Variable host : Host.

(** [columns]: the keys of the first record. *)
Definition columns (p : Props) : list string :=
  match data p with
  | first :: _ => Object_keys first
  | [] => []
  end.

(** The numbers [1 .. n], as [Array.from({ length: n }, (_, i) => i + 1)]. *)
Definition pageNumbers (n : Z) : list Z :=
  map (fun i => Z.of_nat i + 1) (seq 0 (Z.to_nat n)).

(** The page buttons that are rendered. *)
Definition pageButtons (p : Props) (st : State) : list Z :=
  filter (fun page =>
            (page =? 1) || (page =? totalPages host p st)
            || (Z.abs (page - currentPage st) <=? 2))
         (pageNumbers (totalPages host p st)).

Definition inb (x : string) (l : list string) : bool :=
  existsb (String.eqb x) l.

(** One event on a rendered table.  An empty dataset renders the empty state
    only; the pagination bar is there when [totalPages > 1]; [Previous] is
    disabled on page 1 and [Next] on the last page; the modal, with its
    close button and overlay, is there while a cell is expanded. *)
Definition step (p : Props) (st : State) (e : Event) : State :=
  match data p with
  | [] => st
  | _ =>
      match e with
      | ClickHeader col =>
          if inb col (columns p) then handleSort col st else st
      | ClickCell index col =>
          if inb col (columns p) then
            match nth_error (currentData host p st) index with
            | Some row => handleCellClick (get row col) col index st
            | None => st
            end
          else st
      | ClickPrevious =>
          if (1 <? totalPages host p st) && negb (currentPage st =? 1)
          then setCurrentPage (currentPage st - 1) st else st
      | ClickNext =>
          if (1 <? totalPages host p st)
             && negb (currentPage st =? totalPages host p st)
          then setCurrentPage (currentPage st + 1) st else st
      | ClickPage page =>
          if (1 <? totalPages host p st)
             && existsb (Z.eqb page) (pageButtons p st)
          then setCurrentPage page st else st
      | ClickExport _ => st
      | CloseExpanded =>
          match expandedCell st with
          | Some _ => setExpandedCell None st
          | None => st
          end
      end
  end.

(** The state after a sequence of events. *)
Definition run (p : Props) (st : State) (es : list Event) : State :=
  fold_left (step p) es st.

End Render.

End DataTable.

(** ** The CSV format in the words of the specification *)

Module CsvSpec.

Section WithHost.

Variable host : Host.

Definition needsQuoting (s : string) : bool :=
  existsb (fun c => Ascii.eqb c "," || Ascii.eqb c JsString.dquote
                    || Ascii.eqb c JsString.newline)
          (list_ascii_of_string s).

(** Internal double quotes doubled. *)
Fixpoint doubleQuotes (s : string) : string :=
  match s with
  | EmptyString => EmptyString
  | String c s' =>
      if Ascii.eqb c JsString.dquote
      then String c (String c (doubleQuotes s'))
      else String c (doubleQuotes s')
  end.

(** A field: empty for null and undefined; a string with a comma, a double
    quote or a newline wrapped in double quotes, its own double quotes
    doubled; any other value in its string form. *)
Definition field (v : Value) : string :=
  match v with
  | VUndefined | VNull => EmptyString
  | VString s =>
      if needsQuoting s
      then String JsString.dquote (doubleQuotes s ++ JsString.str JsString.dquote)
      else s
  | _ => ToString host v
  end.

Definition line (cols : list string) (row : Record) : string :=
  JsString.join "," (map (fun c => field (get row c)) cols).

(** The header line first, then one line per record, joined by newlines. *)
Definition serialize (cols : list string) (rows : Dataset) : string :=
  JsString.join (JsString.str JsString.newline)
    (JsString.join "," cols :: map (line cols) rows).

End WithHost.

End CsvSpec.

(** ** A host to run the examples on *)

Module ExampleHost.

Fixpoint compareChars (a b : list ascii) : float :=
  match a, b with
  | [], [] => 0%float
  | [], _ :: _ => (-1)%float
  | _ :: _, [] => 1%float
  | x :: a', y :: b' =>
      if (nat_of_ascii x <? nat_of_ascii y)%nat then (-1)%float
      else if (nat_of_ascii y <? nat_of_ascii x)%nat then 1%float
      else compareChars a' b'
  end.

(** A collation by code units, with results -1, 0 and 1. *)
Definition codeUnitCompare (a b : string) : float :=
  compareChars (list_ascii_of_string a) (list_ascii_of_string b).

Fixpoint digitsOf (fuel : nat) (n : Z) (acc : string) : string :=
  match fuel with
  | O => acc
  | S fuel' =>
      let acc' := String (ascii_of_nat (48 + Z.to_nat (n mod 10))) acc in
      if n <? 10 then acc' else digitsOf fuel' (n / 10) acc'
  end.

(** The decimal digits of a non-negative integer. *)
Definition decimal (n : Z) : string := digitsOf (S (Z.to_nat (Z.log2 n))) n EmptyString.

(** [String(x)] where ECMAScript prints plain digits: NaN, the infinities,
    and the integers below 10^21.  The examples use no other number. *)
Definition integerToString (x : float) : string :=
  match Prim2SF x with
  | S754_nan => "NaN"
  | S754_zero _ => "0"
  | S754_infinity false => "Infinity"
  | S754_infinity true => "-Infinity"
  | S754_finite s m e =>
      (if s then "-" else EmptyString)
      ++ decimal (if 0 <=? e then Z.pos m * 2 ^ e else Z.pos m / 2 ^ (- e))
  end.

Definition host : Host :=
  {| localeCompare := codeUnitCompare;
     Number_toString := integerToString;
     Number_toLocaleString := integerToString |}.

End ExampleHost.

(** ** The pagination bar of the table *)

Module Pager.

Import DataTable.

(** What the bar shows between [Previous] and [Next]: page buttons, and an
    ellipsis where page numbers are left out. *)
Inductive PageItem : Type :=
| Ellipsis
| PageButton (page : Z) (active : bool).

(** The [map] over the filtered page numbers: [previous] is the element
    before [page] in the array, none at index 0. *)
Fixpoint renderButtons (current : Z) (previous : option Z) (pages : list Z)
  : list PageItem :=
  match pages with
  | [] => []
  | page :: rest =>
      let gap :=
        match previous with
        | Some q => if negb (q =? page - 1) then [Ellipsis] else []
        | None => []
        end in
      (gap ++ PageButton page (page =? current)
           :: renderButtons current (Some page) rest)%list
  end.

Definition isEllipsis (i : PageItem) : bool :=
  match i with
  | Ellipsis => true
  | PageButton _ _ => false
  end.

(** The pages that get an ellipsis in front of their button. *)
Fixpoint gapPages (previous : option Z) (pages : list Z) : list Z :=
  match pages with
  | [] => []
  | page :: rest =>
      let gap :=
        match previous with
        | Some q => if negb (q =? page - 1) then [page] else []
        | None => []
        end in
      (gap ++ gapPages (Some page) rest)%list
  end.

(** The pages whose button is drawn as the active one. *)
Definition activePages (items : list PageItem) : list Z :=
  flat_map (fun i => match i with
                     | PageButton page true => [page]
                     | _ => []
                     end) items.

(** The pages that have a button. *)
Definition buttonPages (items : list PageItem) : list Z :=
  flat_map (fun i => match i with
                     | PageButton page _ => [page]
                     | Ellipsis => []
                     end) items.

(** The numbers [a], [a + 1], ..., [m] of them. *)
Fixpoint consecutive (a : Z) (m : nat) : list Z :=
  match m with
  | O => []
  | S m' => a :: consecutive (a + 1) m'
  end.

Section WithHost.

Variable host : Host.

(** The items of [PaginationControls]. *)
Definition paginationControls (p : Props) (st : State) : list PageItem :=
  renderButtons (currentPage st) None (pageButtons host p st).

(** The numbers of [PaginationInfo]: Showing [from]-[to] of [count] rows. *)
Definition showingFrom (st : State) : Z := startIndex st + 1.

Definition showingTo (p : Props) (st : State) : Z :=
  Z.min (endIndex st) (Z.of_nat (List.length (processedData host p st))).

Definition showingCount (p : Props) (st : State) : Z :=
  Z.of_nat (List.length (processedData host p st)).

End WithHost.

End Pager.

(** ** The helpers of [utils/helpers.js] *)

Module Helpers.

(** *** [String.prototype.trim] *)

(** The characters up to the last one that is not white space. *)
Fixpoint trimEnd (s : list ascii) : list ascii :=
  match s with
  | [] => []
  | c :: s' =>
      match trimEnd s' with
      | [] => if JsString.isWhiteSpace c then [] else [c]
      | r => c :: r
      end
  end.

Definition trimChars (s : list ascii) : list ascii :=
  trimEnd (JsNumber.trimStart s).

(** [s.trim()] *)
Definition trim (s : string) : string :=
  string_of_list_ascii (trimChars (list_ascii_of_string s)).

(** *** [Number(s)] on a string, for [isFinite] *)

(** The exponent part and what follows it; without a digit after [e] there
    is no exponent part and the [e] is left. *)
Definition exponentRest (s : list ascii) : Z * list ascii :=
  match s with
  | c :: s' =>
      if Ascii.eqb c "e" || Ascii.eqb c "E" then
        match s' with
        | sg :: s'' =>
            if Ascii.eqb sg "-" then
              let (d, r) := JsNumber.spanDigits s'' in
              match d with
              | [] => (0, s)
              | _ => (- JsNumber.digitsValue d, r)
              end
            else if Ascii.eqb sg "+" then
              let (d, r) := JsNumber.spanDigits s'' in
              match d with
              | [] => (0, s)
              | _ => (JsNumber.digitsValue d, r)
              end
            else
              let (d, r) := JsNumber.spanDigits s' in
              match d with
              | [] => (0, s)
              | _ => (JsNumber.digitsValue d, r)
              end
        | [] => (0, s)
        end
      else (0, s)
  | [] => (0, s)
  end.

(** The longest prefix that is a StrUnsignedDecimalLiteral, with what
    follows it. *)
Definition unsignedLiteral (s : list ascii)
  : option (JsNumber.Decimal * list ascii) :=
  if JsNumber.startsWith (list_ascii_of_string "Infinity") s
  then Some (JsNumber.DInfinity, skipn 8 s)
  else
    let (ip, r1) := JsNumber.spanDigits s in
    let '(fp, r2) :=
      match r1 with
      | c :: r1' =>
          if Ascii.eqb c "." then
            let (fp, r2) := JsNumber.spanDigits r1' in
            match ip, fp with
            | [], [] => ([], r1)
            | _, _ => (fp, r2)
            end
          else ([], r1)
      | [] => ([], r1)
      end in
    match ip, fp with
    | [], [] => None
    | _, _ =>
        let (e, r3) := exponentRest r2 in
        Some (JsNumber.DFinite (JsNumber.digitsValue (ip ++ fp)%list)
                               (e - Z.of_nat (List.length fp)), r3)
    end.

(** A StrDecimalLiteral that is the whole of [s]. *)
Definition decimalLiteral (s : list ascii) : option float :=
  let whole (negative : bool) (u : list ascii) :=
    match unsignedLiteral u with
    | Some (d, []) =>
        Some (if negative then (- JsNumber.decimalValue d)%float
              else JsNumber.decimalValue d)
    | _ => None
    end in
  match s with
  | c :: s' =>
      if Ascii.eqb c "-" then whole true s'
      else if Ascii.eqb c "+" then whole false s'
      else whole false s
  | [] => None
  end.

(** The radix a prefix [0x], [0o] or [0b] announces, in either case. *)
Definition radixOf (c : ascii) : option Z :=
  if Ascii.eqb c "x" || Ascii.eqb c "X" then Some 16
  else if Ascii.eqb c "o" || Ascii.eqb c "O" then Some 8
  else if Ascii.eqb c "b" || Ascii.eqb c "B" then Some 2
  else None.

Definition digitIn (radix : Z) (c : ascii) : option Z :=
  let n := Z.of_nat (nat_of_ascii c) in
  let v :=
    if (48 <=? n) && (n <=? 57) then Some (n - 48)
    else if (97 <=? n) && (n <=? 102) then Some (n - 87)
    else if (65 <=? n) && (n <=? 70) then Some (n - 55)
    else None in
  match v with
  | Some d => if d <? radix then Some d else None
  | None => None
  end.

Fixpoint radixValue (radix : Z) (s : list ascii) (acc : Z) : option Z :=
  match s with
  | [] => Some acc
  | c :: s' =>
      match digitIn radix c with
      | Some d => radixValue radix s' (radix * acc + d)
      | None => None
      end
  end.

(** A NonDecimalIntegerLiteral that is the whole of [s]. *)
Definition nonDecimalLiteral (s : list ascii) : option float :=
  match s with
  | z :: x :: d :: rest =>
      if Ascii.eqb z "0" then
        match radixOf x with
        | Some radix =>
            match radixValue radix (d :: rest) 0 with
            | Some v => Some (JsNumber.roundDecimal v 0)
            | None => None
            end
        | None => None
        end
      else None
  | _ => None
  end.

(** StringToNumber: white space around is dropped; the empty string is 0;
    what is neither kind of literal is NaN. *)
Definition StringToNumber (s : string) : float :=
  match trimChars (list_ascii_of_string s) with
  | [] => zero
  | t =>
      match nonDecimalLiteral t with
      | Some x => x
      | None =>
          match decimalLiteral t with
          | Some x => x
          | None => nan
          end
      end
  end.

(** [Number(v)] *)
Definition ToNumber (v : Value) : float :=
  match v with
  | VUndefined => nan
  | VNull => zero
  | VBoolean true => one
  | VBoolean false => zero
  | VNumber x => x
  | VString s => StringToNumber s
  end.

(** *** The helpers *)

(** [truncateText] for a text that is a string or [null] and a whole number
    [maxLength]: [!text] holds of [null] and of the empty string, which are
    handed back; [substring] reads a negative end as 0. *)
Definition truncateText (text : option string) (maxLength : Z) : option string :=
  match text with
  | None => None
  | Some t =>
      if String.eqb t EmptyString
         || (Z.of_nat (String.length t) <=? maxLength)
      then Some t
      else Some (JsString.substring0 (Z.to_nat maxLength) t ++ "...")
  end.

(** The test [/^\d{4}-\d{2}-\d{2}/]. *)
Definition matchesDate (s : string) : bool :=
  match list_ascii_of_string s with
  | y1 :: y2 :: y3 :: y4 :: h1 :: m1 :: m2 :: h2 :: d1 :: d2 :: _ =>
      JsNumber.isDigit y1 && JsNumber.isDigit y2
      && JsNumber.isDigit y3 && JsNumber.isDigit y4
      && Ascii.eqb h1 "-"
      && JsNumber.isDigit m1 && JsNumber.isDigit m2
      && Ascii.eqb h2 "-"
      && JsNumber.isDigit d1 && JsNumber.isDigit d2
  | _ => false
  end.

Section WithHost.

Variable host : Host.

(** [isNumeric] *)
Definition isNumeric (v : Value) : bool :=
  negb (JsNumber.isNaN (parseFloat host v)) && JsNumber.isFinite (ToNumber v).

(** [getDataType] *)
Definition getDataType (v : Value) : string :=
  match v with
  | VNull | VUndefined => "null"
  | VBoolean _ => "boolean"
  | VNumber _ => "number"
  | VString s =>
      if isNumeric v then "numeric_string"
      else if matchesDate s then "date"
      else "string"
  end.

End WithHost.

End Helpers.

(** ** The chat: [hooks/useChat.js] and the handlers of [pages/ChatPage.js] *)

Module Chat.

(** The [type] of a message: ['user'], ['ai'] or ['error']. *)
Inductive MessageType : Type := typeUser | typeAi | typeError.

(** What the API answers to a chat message. *)
Record Response : Type := {
  response : string;
  sql_query : option string;
  results : option Dataset;
  total_rows : option Z;
  success : bool;
  message : string
}.

(** A message of the chat.  [id] comes from [Date.now()] and [timestamp]
    from [new Date()], two readings of the clock; the fields an AI message
    copies from the response are in [reply]. *)
Record Message : Type := {
  id : Z;
  type : MessageType;
  content : string;
  timestamp : Z;
  reply : option Response
}.

(** The state of the hook: its three [useState] cells. *)
Record ChatState : Type := {
  messages : list Message;
  isLoading : bool;
  error : option string
}.

Definition initialChat : ChatState :=
  {| messages := []; isLoading := false; error := None |}.

(** [sendMessage] up to its [await]: nothing happens for a text that trims
    to the empty string; otherwise the user's message is appended, loading
    starts and the error is cleared.  The boolean says whether the request
    went out.  [now] is [Date.now()] and [date] is [new Date()]. *)
Definition sendMessage_begin (messageText : string) (now date : Z)
                             (st : ChatState) : ChatState * bool :=
  if String.eqb (Helpers.trim messageText) EmptyString then (st, false)
  else
    ({| messages :=
          (messages st ++
             [ {| id := now; type := typeUser; content := messageText;
                  timestamp := date; reply := None |} ])%list;
        isLoading := true;
        error := None |}, true).

(** [sendMessage] after the [await], when the API has answered. *)
Definition sendMessage_resolved (r : Response) (now date : Z)
                                (st : ChatState) : ChatState :=
  {| messages :=
       (messages st ++
          [ {| id := now + 1; type := typeAi; content := response r;
               timestamp := date; reply := Some r |} ])%list;
     isLoading := false;
     error := error st |}.

(** [sendMessage] after the [await], when the call has thrown an error with
    the message [reason]. *)
Definition sendMessage_rejected (reason : string) (now date : Z)
                                (st : ChatState) : ChatState :=
  {| messages :=
       (messages st ++
          [ {| id := now + 1; type := typeError;
               content := "Sorry, I encountered an error: " ++ reason;
               timestamp := date; reply := None |} ])%list;
     isLoading := false;
     error := Some reason |}.

(** [clearChat] *)
Definition clearChat (st : ChatState) : ChatState :=
  {| messages := []; isLoading := isLoading st; error := None |}.

(** [removeMessage] *)
Definition removeMessage (messageId : Z) (st : ChatState) : ChatState :=
  {| messages := filter (fun msg => negb (id msg =? messageId)) (messages st);
     isLoading := isLoading st;
     error := error st |}.

(** The chat page: the text in the input, the hook's state, and the number
    of calls of [sendMessage] that wait for the API. *)
Record Page : Type := {
  inputText : string;
  chat : ChatState;
  inFlight : nat
}.

Definition initialPage : Page :=
  {| inputText := EmptyString; chat := initialChat; inFlight := O |}.

(** What happens to the page. *)
Inductive Event : Type :=
| ChangeInput (text : string)
| Send (now date : Z)
| PickSuggestion (suggestion : string)
| ConfirmClear
| Answer (r : Response) (now date : Z)
| Fail (reason : string) (now date : Z).

(** [handleSend] *)
Definition handleSend (now date : Z) (pg : Page) : Page :=
  if negb (String.eqb (Helpers.trim (inputText pg)) EmptyString)
     && negb (isLoading (chat pg))
  then
    let (st, sent) :=
      sendMessage_begin (Helpers.trim (inputText pg)) now date (chat pg) in
    {| inputText := EmptyString; chat := st;
       inFlight := if sent then S (inFlight pg) else inFlight pg |}
  else pg.

(** One event.  The text area is disabled while loading; the suggestions are
    on screen while there is no message, and the clear button while there
    is one; an answer or a failure belongs to a call that waits. *)
Definition step (pg : Page) (e : Event) : Page :=
  match e with
  | ChangeInput text =>
      if isLoading (chat pg) then pg
      else {| inputText := text; chat := chat pg; inFlight := inFlight pg |}
  | Send now date => handleSend now date pg
  | PickSuggestion suggestion =>
      match messages (chat pg) with
      | [] => {| inputText := suggestion; chat := chat pg; inFlight := inFlight pg |}
      | _ => pg
      end
  | ConfirmClear =>
      match messages (chat pg) with
      | [] => pg
      | _ => {| inputText := inputText pg; chat := clearChat (chat pg);
                inFlight := inFlight pg |}
      end
  | Answer r now date =>
      match inFlight pg with
      | O => pg
      | S n => {| inputText := inputText pg;
                  chat := sendMessage_resolved r now date (chat pg);
                  inFlight := n |}
      end
  | Fail reason now date =>
      match inFlight pg with
      | O => pg
      | S n => {| inputText := inputText pg;
                  chat := sendMessage_rejected reason now date (chat pg);
                  inFlight := n |}
      end
  end.

Definition run (es : list Event) : Page := fold_left step es initialPage.

(** The table a chat message shows for its results ([ChatMessage.js]): the
    rows, a limit of ten, and the default title of the table. *)
Definition resultsTable (rows : Dataset) : DataTable.Props :=
  {| DataTable.data := rows; DataTable.title := "Data Table";
     DataTable.maxRows := Some 10 |}.

End Chat.

(** ** Rows by the year of their date *)

Module Dates.

(** The row holds, in the column, a string that begins with a date whose
    year is written [year]. *)
Definition datedIn (col : string) (year : string) (row : Record) : bool :=
  match get row col with
  | VString s =>
      Helpers.matchesDate s
      && String.eqb (string_of_list_ascii (firstn 4 (list_ascii_of_string s))) year
  | _ => false
  end.

(** Rows with dates of the year 2024, March before January. *)
Definition rows2024 : Dataset :=
  [ [("day", VString "2024-03-01"); ("t", VString "12")];
    [("day", VString "2024-01-15"); ("t", VString "7")];
    [("day", VString "2024-02-10"); ("t", VString "9")] ].

Definition table2024 : DataTable.Props :=
  {| DataTable.data := rows2024; DataTable.title := "Readings";
     DataTable.maxRows := None |}.

End Dates.

(** ** Notions the properties are stated with *)

Module Order.

Section Marked.

Context {A : Type}.
Variable N : A -> bool.

(** Once a marked row is met, only marked rows follow. *)
Fixpoint markedLast (l : list A) : bool :=
  match l with
  | [] => true
  | x :: rest => if N x then forallb N rest else markedLast rest
  end.

End Marked.

Section Ordered.

Context {A : Type}.
Variable before : A -> A -> bool.

(** No element sorts before one that stands in front of it. *)
Definition ordered (l : list A) : Prop :=
  StronglySorted (fun a b => before b a = false) l.

(** Neither element sorts before the other. *)
Definition level (x y : A) : bool := negb (before x y) && negb (before y x).

(** [before] orders the elements that [S] holds of: of two at most one
    sorts before the other, and an element that does not sort before a
    second, which does not sort before a third, does not sort before the
    third. *)
Definition ordersOn (S : A -> Prop) : Prop :=
  (forall x y, S x -> S y -> before x y = true -> before y x = false)
  /\ (forall x y z, S x -> S y -> S z ->
        before x y = false -> before y z = false -> before x z = false).

(** The stable insertion sort, the arrangement a sort must give where
    [before] orders the elements: [placed] holds the part already sorted,
    last element first, and [x] moves towards the front past the elements
    it sorts before. *)
Fixpoint place (x : A) (placed : list A) : list A :=
  match placed with
  | [] => [x]
  | e :: rest => if before x e then e :: place x rest else x :: placed
  end.

Definition insertionSort (l : list A) : list A :=
  rev (fold_left (fun placed x => place x placed) l []).

(** [before] orders the elements of [l], found out by going through the
    pairs and the triples of them. *)
Definition ordersList (l : list A) : bool :=
  forallb (fun x =>
    forallb (fun y =>
      (negb (before x y) || negb (before y x))
      && forallb (fun z => before x y || before y z || negb (before x z)) l)
      l)
    l.

End Ordered.

End Order.

(** ** Two runs merged into one *)

Module Merging.

Import JsArray.

Section Search.

Variable goRight : Z -> bool.

(** What the searches look for: a place with [goRight] before it and not
    at it. *)
Definition boundary (n k : Z) : Prop :=
  0 <= k <= n
  /\ (k = 0 \/ goRight (k - 1) = true)
  /\ (k = n \/ goRight k = false).

(** The search of [GallopLeft] and [GallopRight], with [goRight] for the
    comparison each of them makes. *)
Definition galloped (fuel : nat) (length hint : Z) : Z :=
  let '(lastOfs, offset) :=
    if goRight hint then
      let maxOfs := length - hint in
      let '(lastOfs, offset) :=
        gallop fuel (fun o => goRight (hint + o)) maxOfs 0 1 in
      (lastOfs + hint, Z.min offset maxOfs + hint)
    else
      let maxOfs := hint + 1 in
      let '(lastOfs, offset) :=
        gallop fuel (fun o => negb (goRight (hint - o))) maxOfs 0 1 in
      (hint - Z.min offset maxOfs, hint - lastOfs) in
  bisect fuel goRight (lastOfs + 1) offset.

End Search.

Section Zip.

Context {A : Type}.
Variable before : A -> A -> bool.

(** An element of the merged run goes with the run it comes from: [false]
    for run A, the earlier one, [true] for run B.  Two neighbours of the
    merged run are in order when an element of B that follows one of A does
    not sort before it, and an element of B that is followed by one of A
    sorts before it. *)
Definition inOrder (u v : bool * A) : Prop :=
  match fst u, fst v with
  | false, true => before (snd v) (snd u) = false
  | true, false => before (snd u) (snd v) = true
  | _, _ => True
  end.

(** The elements of one run among those of the merged run. *)
Definition from (s : bool) (t : list (bool * A)) : list A :=
  map snd (filter (fun u => Bool.eqb (fst u) s) t).

(** [merged] holds the elements of [runA] and of [runB], each run in its
    order, every two neighbours in order by [R], as is the first of them
    after [u]. *)
Definition ZipAfter (R : bool * A -> bool * A -> Prop) (u : option (bool * A))
           (runA runB merged : list A) : Prop :=
  exists t,
    Sorted R (match u with Some u => u :: t | None => t end)
    /\ map snd t = merged /\ from false t = runA /\ from true t = runB.

Definition Zip (runA runB merged : list A) : Prop :=
  ZipAfter inOrder None runA runB merged.

End Zip.

Section Stretch.

Context {A : Type}.
Variable R : bool * A -> bool * A -> Prop.

(** [v] may follow what was moved last, if anything was. *)
Definition okAfter (u : option (bool * A)) (v : bool * A) : Prop :=
  match u with Some u => R u v | None => True end.

(** The last element of a stretch taken from run [s], or what came before
    an empty stretch. *)
Definition lastOf (u : option (bool * A)) (s : bool) (stretch : list A)
  : option (bool * A) :=
  match rev stretch with x :: _ => Some (s, x) | [] => u end.

(** [x] is the last element of [l]. *)
Definition endsWith (l : list A) (x : A) : Prop :=
  exists front, l = (front ++ [x])%list.

End Stretch.

Section Merge.

Context {A : Type}.
Variable comparefn : A -> A -> float.

(** What the loops of a merge rely on: the heads of both runs may follow
    what was moved last, and the last element of run B sorts before the
    last of run A. *)
Definition headsOK (u : option (bool * A)) (runA runB : list A) : Prop :=
  (forall a, hd_error runA = Some a ->
             okAfter (inOrder (sortsBefore comparefn)) u (false, a))
  /\ (forall b, hd_error runB = Some b ->
                okAfter (inOrder (sortsBefore comparefn)) u (true, b)).

Definition lastOK (runA runB : list A) : Prop :=
  forall a b, endsWith runA a -> endsWith runB b ->
              sortsBefore comparefn b a = true.

(** [MergeHigh] fills the merged run from its end: what it moves next
    stands in front of what it moved last. *)
Definition inOrderBack (u v : bool * A) : Prop :=
  inOrder (sortsBefore comparefn) v u.

Definition headsBack (u : option (bool * A)) (runA runB : list A) : Prop :=
  (forall a, hd_error runA = Some a -> okAfter inOrderBack u (false, a))
  /\ (forall b, hd_error runB = Some b -> okAfter inOrderBack u (true, b)).

(** What [MergeAt] has found out before it merges: the first element of
    what is left of B sorts before the first of what is left of A, and the
    last of B before the last of A. *)
Definition firstOK (runA runB : list A) : Prop :=
  forall a b, hd_error runA = Some a -> hd_error runB = Some b ->
              sortsBefore comparefn b a = true.

End Merge.

Section Pending.

Context {A : Type}.
Variable Q : list A -> Prop.
Variable S : A -> Prop.

(** The pending runs are good: [Q] holds of each, and [S] of its
    elements. *)
Definition goodRuns (pendingRuns : list (list A)) : Prop :=
  Forall (fun run => Q run /\ Forall S run) pendingRuns.

(** The part of the array the pending runs hold. *)
Definition held (pendingRuns : list (list A)) : list A :=
  List.concat (rev pendingRuns).

End Pending.

End Merging.

Module Views.

Import DataTable.

(** The row has no value in the column: [null] or [undefined]. *)
Definition nullAt (col : string) (row : Record) : bool := isNullish (get row col).

(** The row limit, as [processedData] and [handleExport] apply it. *)
Definition limitRows (m : option Z) (rows : Dataset) : Dataset :=
  match m with
  | Some n => if truthyRows m then JsArray.slice 0 n rows else rows
  | None => rows
  end.

(** The other direction. *)
Definition flip (d : SortDirection) : SortDirection :=
  match d with asc => desc | desc => asc end.

(** The page bound of the specification. *)
Definition pageWithinBound (host : Host) (p : Props) (st : State) : Prop :=
  currentPage st <= totalPages host p st.

Section WithHost.

Variable host : Host.

(** The sorting step of [processedData]. *)
Definition sortedRows (st : State) (rows : Dataset) : Dataset :=
  if truthyColumn (sortColumn st) then
    match sortColumn st with
    | Some col => JsArray.sort (compareRows host col (sortDirection st)) rows
    | None => rows
    end
  else rows.

(** Neither row sorts before the other: the comparator puts them on one
    rank.  Two rows without a value are on one rank, as are two rows whose
    values compare equal. *)
Definition sameRank (col : string) (dir : SortDirection) (a b : Record) : bool :=
  negb (JsArray.sortsBefore (compareRows host col dir) a b)
  && negb (JsArray.sortsBefore (compareRows host col dir) b a).

(** The comparator of the sorting step orders the rows: for them it is
    what ECMAScript calls a consistent comparator.  Where no sorting is
    done there is nothing to ask. *)
Definition comparatorOrders (st : State) (rows : Dataset) : bool :=
  if truthyColumn (sortColumn st) then
    match sortColumn st with
    | Some col =>
        Order.ordersList
          (JsArray.sortsBefore (compareRows host col (sortDirection st))) rows
    | None => true
    end
  else true.

(** The numeric comparison: the difference, in the direction asked for. *)
Definition numericOrder (dir : SortDirection) (x y : float) : float :=
  match dir with
  | asc => (x - y)%float
  | desc => (y - x)%float
  end.

(** The comparison of the lower-cased string forms by the locale's order. *)
Definition textOrder (dir : SortDirection) (a b : Value) : float :=
  let x := JsString.toLowerCase (ToString host a) in
  let y := JsString.toLowerCase (ToString host b) in
  match dir with
  | asc => localeCompare host x y
  | desc => localeCompare host y x
  end.

(** The comparison of two values when the numeric one is taken for the pairs
    that parse as finite numbers only. *)
Definition comparisonOnFinite (dir : SortDirection) (a b : Value) : float :=
  if JsNumber.isFinite (parseFloat host a) && JsNumber.isFinite (parseFloat host b)
  then numericOrder dir (parseFloat host a) (parseFloat host b)
  else textOrder dir a b.

(** The comparison of two values when the numeric one is taken for the pairs
    that parse to a number, the infinities among them. *)
Definition comparisonOnParsed (dir : SortDirection) (a b : Value) : float :=
  if negb (JsNumber.isNaN (parseFloat host a))
     && negb (JsNumber.isNaN (parseFloat host b))
  then numericOrder dir (parseFloat host a) (parseFloat host b)
  else textOrder dir a b.

End WithHost.

End Views.

(** ** Tables to run the examples on *)

Module Examples.

Import DataTable.

(** The scenario of the specification: three rows, columns [a] and [b]. *)
Definition scenarioRows : Dataset :=
  [ [("a", VString "3"); ("b", VNull)];
    [("a", VString "1"); ("b", VString "x")];
    [("a", VString "2"); ("b", VNull)] ].

Definition scenarioTable : Props :=
  {| data := scenarioRows; title := "Query Results"; maxRows := Some 10 |}.

(** The same rows under no row limit. *)
Definition unlimitedTable : Props :=
  {| data := scenarioRows; title := "Sample Data"; maxRows := None |}.

(** The same rows under a row limit of 0. *)
Definition zeroLimitTable : Props :=
  {| data := scenarioRows; title := "Sample Data"; maxRows := Some 0 |}.

(** Two rows under a column whose name is the empty string. *)
Definition unnamedColumnRows : Dataset :=
  [ [(EmptyString, VNull)]; [(EmptyString, VString "x")] ].

Definition unnamedColumnTable : Props :=
  {| data := unnamedColumnRows; title := "Data Table"; maxRows := None |}.

(** Rows with repeated keys in column [k]. *)
Definition repeatedKeyRows : Dataset :=
  [ [("k", VString "b"); ("id", VString "1")];
    [("k", VString "a"); ("id", VString "2")];
    [("k", VString "B"); ("id", VString "3")];
    [("k", VString "a"); ("id", VString "4")] ].

Definition repeatedKeyTable : Props :=
  {| data := repeatedKeyRows; title := "Data Table"; maxRows := None |}.

(** The rows whose key is [b], in either case. *)
Definition keyIsB (row : Record) : bool :=
  match get row "k" with
  | VString s => String.eqb (JsString.toLowerCase s) "b"
  | _ => false
  end.

(** Four rows whose keys the comparator takes round in a circle: as
    numbers [-5] is below [ 7], as texts [ 7] is before [ x], and [ x]
    before [-5]. *)
Definition circleRows : Dataset :=
  [ [("k", VString "-5"); ("id", VString "1")];
    [("k", VString " x"); ("id", VString "2")];
    [("k", VString " 7"); ("id", VString "3")];
    [("k", VString "-5"); ("id", VString "4")] ].

Definition circleTable : Props :=
  {| data := circleRows; title := "Data Table"; maxRows := None |}.

(** The rows whose key is [-5]. *)
Definition keyIsMinusFive (row : Record) : bool :=
  match get row "k" with
  | VString s => String.eqb s "-5"
  | _ => false
  end.

(** The values 10 and 9 as strings, in this order. *)
Definition tenNineTable : Props :=
  {| data := [ [("v", VString "10")]; [("v", VString "9")] ];
     title := "Data Table"; maxRows := None |}.

(** Two spellings of the positive infinity. *)
Definition infinityRow : Record := [("v", VString "Infinity")].
Definition hugeRow : Record := [("v", VString "1e999")].

(** The value [Hello, "World"] and its CSV field. *)
Definition helloWorld : string :=
  "Hello, " ++ String JsString.dquote ("World" ++ JsString.str JsString.dquote).

Definition helloWorldField : string :=
  String JsString.dquote
    ("Hello, " ++ String JsString.dquote (String JsString.dquote
       ("World" ++ String JsString.dquote (String JsString.dquote
          (JsString.str JsString.dquote))))).

(** A table with no rows. *)
Definition emptyTable : Props :=
  {| data := []; title := "Data Table"; maxRows := None |}.

(** A string of sixty characters. *)
Definition sixty : string :=
  "abcdefghijklmnopqrstuvwxyzabcdefghijklmnopqrstuvwxyz01234567".

(** A state in which column [a] is sorted, page 1 is shown and nothing is
    expanded. *)
Definition sortedByA : State := handleSort "a" initialState.

End Examples.

(** ** More tables to run examples on *)

Module MoreExamples.

(** A table with one cell, of sixty characters. *)
Definition notesTable : DataTable.Props :=
  {| DataTable.data := [ [("note", VString Examples.sixty)] ];
     DataTable.title := "Notes"; DataTable.maxRows := None |}.

(** A letter A..Z. *)
Definition isCapital (c : ascii) : bool :=
  let n := nat_of_ascii c in ((65 <=? n) && (n <=? 90))%nat.

(** A character that is neither white space nor a letter A..Z. *)
Definition plain (c : ascii) : bool :=
  negb (JsString.isWhiteSpace c) && negb (isCapital c).

(** What can be said of the expanded cell, if there is one: its value is a
    string of more than fifty characters that a row of the dataset holds in
    the cell's column, which is a column of the table, and its row index is
    a position on a page. *)
Definition expandedFromTable (p : DataTable.Props) (st : DataTable.State) : Prop :=
  match DataTable.expandedCell st with
  | None => True
  | Some c =>
      (50 < String.length (DataTable.value c))%nat
      /\ (DataTable.rowIndex c < 10)%nat
      /\ In (DataTable.column c) (DataTable.columns p)
      /\ exists row,
           In row (DataTable.data p)
           /\ get row (DataTable.column c) = VString (DataTable.value c)
  end.

End MoreExamples.

(** ** The database explorer: [pages/DatabaseExplorer.js] *)

Module Explorer.

(** What the API tells of a table, as far as the page reads it. *)
Record TableInfo : Type := {
  total_rows : Z;
  sample_data : option Dataset
}.

(** The six [useState] cells of the page. *)
Record State : Type := {
  tables : list string;
  selectedTable : option string;
  tableData : option TableInfo;
  loading : bool;
  tableLoading : bool;
  error : option string
}.

(** The page with the calls that wait for the API: whether [loadTables]
    does, and the tables [loadTableData] was called for. *)
Record Page : Type := {
  state : State;
  tablesPending : bool;
  tablePending : list string
}.

(** The page after the mount: the effect has called [loadTables], which
    has set [loading] and cleared the error before its [await]. *)
Definition initialPage : Page :=
  {| state := {| tables := []; selectedTable := None; tableData := None;
                 loading := true; tableLoading := false; error := None |};
     tablesPending := true;
     tablePending := [] |}.

(** [loadTables] after its [await]: [data.tables || []]. *)
Definition loadTables_resolved (listed : option (list string)) (st : State) : State :=
  {| tables := match listed with Some l => l | None => [] end;
     selectedTable := selectedTable st; tableData := tableData st;
     loading := false; tableLoading := tableLoading st; error := error st |}.

Definition loadTables_rejected (reason : string) (st : State) : State :=
  {| tables := tables st;
     selectedTable := selectedTable st; tableData := tableData st;
     loading := false; tableLoading := tableLoading st;
     error := Some ("Failed to load database information: " ++ reason) |}.

(** [loadTableData] up to its [await]. *)
Definition loadTableData_begin (st : State) : State :=
  {| tables := tables st;
     selectedTable := selectedTable st; tableData := tableData st;
     loading := loading st; tableLoading := true; error := None |}.

Definition loadTableData_resolved (tableName : string) (info : TableInfo)
                                  (st : State) : State :=
  {| tables := tables st;
     selectedTable := Some tableName; tableData := Some info;
     loading := loading st; tableLoading := false; error := error st |}.

Definition loadTableData_rejected (reason : string) (st : State) : State :=
  {| tables := tables st;
     selectedTable := selectedTable st; tableData := None;
     loading := loading st; tableLoading := false;
     error := Some ("Failed to load table data: " ++ reason) |}.

(** Which of the three pages is rendered. *)
Inductive View : Type := LoadingView | ErrorView | MainView.

Definition view (st : State) : View :=
  if loading st then LoadingView
  else match error st with
       | Some _ => ErrorView
       | None => MainView
       end.

Inductive Event : Type :=
| TablesLoaded (listed : option (list string))
| TablesFailed (reason : string)
| ClickTable (tableName : string)
| TableLoaded (tableName : string) (info : TableInfo)
| TableFailed (tableName : string) (reason : string).

Definition inb (x : string) (l : list string) : bool :=
  existsb (String.eqb x) l.

(** The first occurrence of [x] taken out of [l]. *)
Fixpoint removeOne (x : string) (l : list string) : list string :=
  match l with
  | [] => []
  | y :: rest => if String.eqb x y then rest else y :: removeOne x rest
  end.

(** One event.  The list of tables, with its items to click, is on the
    main page only; an answer or a failure belongs to a call that waits. *)
Definition step (pg : Page) (e : Event) : Page :=
  match e with
  | TablesLoaded listed =>
      if tablesPending pg then
        {| state := loadTables_resolved listed (state pg);
           tablesPending := false; tablePending := tablePending pg |}
      else pg
  | TablesFailed reason =>
      if tablesPending pg then
        {| state := loadTables_rejected reason (state pg);
           tablesPending := false; tablePending := tablePending pg |}
      else pg
  | ClickTable tableName =>
      match view (state pg) with
      | MainView =>
          if inb tableName (tables (state pg)) then
            {| state := loadTableData_begin (state pg);
               tablesPending := tablesPending pg;
               tablePending := tableName :: tablePending pg |}
          else pg
      | _ => pg
      end
  | TableLoaded tableName info =>
      if inb tableName (tablePending pg) then
        {| state := loadTableData_resolved tableName info (state pg);
           tablesPending := tablesPending pg;
           tablePending := removeOne tableName (tablePending pg) |}
      else pg
  | TableFailed tableName reason =>
      if inb tableName (tablePending pg) then
        {| state := loadTableData_rejected reason (state pg);
           tablesPending := tablesPending pg;
           tablePending := removeOne tableName (tablePending pg) |}
      else pg
  end.

Definition run (es : list Event) : Page := fold_left step es initialPage.

(** What holds of the page after every event: while the list of tables is
    awaited the loading page is up and nothing has been clicked, and every
    table awaited or selected is one of the list. *)
Definition listed (pg : Page) : Prop :=
  (tablesPending pg = true ->
     loading (state pg) = true /\ tablePending pg = []
     /\ selectedTable (state pg) = None)
  /\ (forall t, In t (tablePending pg) -> In t (tables (state pg)))
  /\ (forall t, selectedTable (state pg) = Some t -> In t (tables (state pg))).

End Explorer.

(** ** The table on the explorer's page *)

Module ExplorerTable.

Import DataTable.

(** The page and the state of its [DataTable], if one is mounted. *)
Record Screen : Type := {
  page : Explorer.Page;
  table : option State
}.

(** The page after its mount: it shows no table. *)
Definition initialScreen : Screen :=
  {| page := Explorer.initialPage; table := None |}.

(** What happens on the page, or in the table it shows. *)
Inductive Event : Type :=
| OnPage (e : Explorer.Event)
| OnTable (e : DataTable.Event).

(** [selectedTable] is truthy: neither [null] nor the empty string. *)
Definition truthyName (t : option string) : bool :=
  match t with
  | Some name => negb (String.eqb name EmptyString)
  | None => false
  end.

Section WithHost.

Variable host : Host.

(** The props of the [DataTable] element in what the page renders, if
    there is one: the main page is up, a table is selected, no sample is
    loading, and the sample that was loaded has a row. *)
Definition tableProps (st : Explorer.State) : option Props :=
  match Explorer.view st with
  | Explorer.MainView =>
      if negb (truthyName (Explorer.selectedTable st)) then None
      else if Explorer.tableLoading st then None
      else
        match Explorer.tableData st with
        | Some info =>
            match Explorer.sample_data info with
            | Some (first :: rest) =>
                Some {| data := first :: rest;
                        title :=
                          "Sample Data (showing first "
                          ++ Number_toString host
                               (JsNumber.roundDecimal
                                  (Z.of_nat (List.length (first :: rest))) 0)
                          ++ " rows)";
                        maxRows := None |}
            | _ => None
            end
        | None => None
        end
  | _ => None
  end.

(** The state of the table when the page is rendered anew.  React keeps
    the state of a component whose element stays at its place in the tree,
    whatever props it is given; a component that was not there is mounted,
    which runs the [useState] initialisers; one whose element is gone is
    taken down. *)
Definition render (before : Explorer.State) (mounted : option State)
           (after : Explorer.State) : option State :=
  match tableProps after with
  | None => None
  | Some _ =>
      match tableProps before, mounted with
      | Some _, Some st => Some st
      | _, _ => Some initialState
      end
  end.

(** One event.  An event in the table needs a table that is shown. *)
Definition step (sc : Screen) (ev : Event) : Screen :=
  match ev with
  | OnPage e =>
      let pg := Explorer.step (page sc) e in
      {| page := pg;
         table := render (Explorer.state (page sc)) (table sc) (Explorer.state pg) |}
  | OnTable e =>
      match tableProps (Explorer.state (page sc)), table sc with
      | Some p, Some st =>
          {| page := page sc; table := Some (DataTable.step host p st e) |}
      | _, _ => sc
      end
  end.

Definition run (es : list Event) : Screen := fold_left step es initialScreen.

(** A table is mounted when the page shows one, and then only. *)
Definition inStep (sc : Screen) : Prop :=
  match tableProps (Explorer.state (page sc)), table sc with
  | Some _, Some _ => True
  | None, None => True
  | _, _ => False
  end.

End WithHost.

(** A sample of [n] rows, numbered from 1 in column [n]. *)
Definition sampleOf (n : nat) : Dataset :=
  map (fun i => [("n", VNumber (JsNumber.roundDecimal (Z.of_nat i + 1) 0))])
      (seq 0 n).

(** Two tables are clicked one after the other; the sample of the first
    arrives and is shown, it is sorted by [n] and its third page is opened,
    while the sample of the second is on its way. *)
Definition secondSampleAwaited : list Event :=
  [ OnPage (Explorer.TablesLoaded (Some ["emissions"; "ratings"]));
    OnPage (Explorer.ClickTable "emissions");
    OnPage (Explorer.ClickTable "ratings");
    OnPage (Explorer.TableLoaded "emissions"
              {| Explorer.total_rows := 25;
                 Explorer.sample_data := Some (sampleOf 25) |});
    OnTable (ClickHeader "n");
    OnTable ClickNext;
    OnTable ClickNext ].

(** The sample of the second table arrives: two rows. *)
Definition secondSampleArrives : Explorer.Event :=
  Explorer.TableLoaded "ratings"
    {| Explorer.total_rows := 2; Explorer.sample_data := Some (sampleOf 2) |}.

(** One table is clicked and its sample awaited. *)
Definition firstSampleAwaited : list Event :=
  [ OnPage (Explorer.TablesLoaded (Some ["emissions"; "ratings"]));
    OnPage (Explorer.ClickTable "emissions") ].

Definition firstSampleArrives : Explorer.Event :=
  Explorer.TableLoaded "emissions"
    {| Explorer.total_rows := 25; Explorer.sample_data := Some (sampleOf 25) |}.

End ExplorerTable.

(** ** What holds of the chat page *)

Module ChatNotions.

Import Chat.

(** A user message as the page sends it: not empty, nothing to trim. *)
Definition trimmedText (m : Message) : Prop :=
  type m = typeUser ->
  content m <> EmptyString /\ Helpers.trim (content m) = content m.

(** What holds of the page after every event. *)
Definition steady (pg : Page) : Prop :=
  (inFlight pg <= 1)%nat
  /\ (isLoading (chat pg) = true <-> inFlight pg = 1%nat)
  /\ Forall trimmedText (messages (chat pg)).

End ChatNotions.

(** ** The order of a column of text *)

Module TextOrder.

Import DataTable Views.

Section WithHost.

Variable host : Host.

(** The row has, in the column, a value that [parseFloat] does not read as
    a number. *)
Definition textAt (col : string) (row : Record) : bool :=
  negb (nullAt col row) && JsNumber.isNaN (parseFloat host (get row col)).

(** The row has such a value or none: no number stands in the column. *)
Definition textOrNone (col : string) (row : Record) : bool :=
  nullAt col row || textAt col row.

(** The text the row is compared by. *)
Definition sortKey (col : string) (row : Record) : string :=
  JsString.toLowerCase (ToString host (get row col)).

(** The locale puts [x] before [y], read in the direction of the sort. *)
Definition keyBefore (dir : SortDirection) (x y : string) : bool :=
  match dir with
  | asc => (localeCompare host x y <? 0)%float
  | desc => (localeCompare host y x <? 0)%float
  end.

(** Row [a] belongs in front of row [b]: [a] has a value, and [b] has none
    or a text that comes later. *)
Definition belongsBefore (col : string) (dir : SortDirection) (a b : Record) : bool :=
  negb (nullAt col a)
  && (nullAt col b || keyBefore dir (sortKey col a) (sortKey col b)).

(** No row stands behind one it belongs in front of. *)
Definition inTextOrder (col : string) (dir : SortDirection) (rows : Dataset) : Prop :=
  StronglySorted (fun a b => belongsBefore col dir b a = false) rows.

(** The locale's comparison orders the strings: of two strings at most one
    is before the other, and a string that is not before a second, which is
    not before a third, is not before the third. *)
Definition collates : Prop :=
  (forall x y, (localeCompare host x y <? 0)%float = true ->
               (localeCompare host y x <? 0)%float = false)
  /\ (forall x y z, (localeCompare host x y <? 0)%float = false ->
                    (localeCompare host y z <? 0)%float = false ->
                    (localeCompare host x z <? 0)%float = false).

End WithHost.

(** The code units of [a] come before those of [b] in the dictionary. *)
Fixpoint lexBefore (a b : list ascii) : bool :=
  match a, b with
  | _, [] => false
  | [], _ :: _ => true
  | x :: a', y :: b' =>
      if (nat_of_ascii x <? nat_of_ascii y)%nat then true
      else if (nat_of_ascii y <? nat_of_ascii x)%nat then false
      else lexBefore a' b'
  end.

(** Products, one without a name, in no order. *)
Definition productRows : Dataset :=
  [ [("product", VString "pellet")];
    [("product", VString "Coke")];
    [("product", VNull)];
    [("product", VString "billet")] ].

Definition productTable : Props :=
  {| data := productRows; title := "Products"; maxRows := None |}.

End TextOrder.

(** * Properties *)

(** ** The searches of the sort *)

Module SearchFacts.

Import JsArray Merging.

(** *** The binary search *)

Section Bisect.

Variable goRight : Z -> bool.

Local Abbreviation boundary := (Merging.boundary goRight).

Lemma bisect_boundary (fuel : nat) (n left right : Z) :
  0 <= left <= right -> right <= n ->
  right - left <= Z.of_nat fuel ->
  (left = 0 \/ goRight (left - 1) = true) ->
  (right = n \/ goRight right = false) ->
  boundary n (bisect fuel goRight left right).
Proof.
  revert left right. induction fuel as [|fuel IH]; intros left right Hl Hr Hf Hlo Hhi.
  - cbn [bisect]. assert (left = right) by lia. subst. repeat split; auto; lia.
  - cbn [bisect]. destruct (Z.ltb_spec left right) as [Hlt|Hge].
    + rewrite Z.shiftr_div_pow2 by lia. change (2 ^ 1) with 2.
      assert (Hm : left <= left + (right - left) / 2 < right).
      { pose proof (Z.div_pos (right - left) 2 ltac:(lia) ltac:(lia)).
        pose proof (Z.div_lt_upper_bound (right - left) 2 (right - left)
                      ltac:(lia) ltac:(lia)). lia. }
      destruct (goRight (left + (right - left) / 2)) eqn:E.
      * apply IH; try lia; auto.
        right. replace (left + (right - left) / 2 + 1 - 1)
                 with (left + (right - left) / 2) by lia. exact E.
      * apply IH; try lia; auto.
    + assert (left = right) by lia. subst. repeat split; auto; lia.
Qed.

(** *** The gallop *)

Lemma gallop_ext (fuel : nat) (f g : Z -> bool) (maxOfs lastOfs offset : Z) :
  (forall o, f o = g o) ->
  gallop fuel f maxOfs lastOfs offset = gallop fuel g maxOfs lastOfs offset.
Proof.
  intros H. revert lastOfs offset.
  induction fuel as [|fuel IH]; intros lastOfs offset; cbn [gallop]; [reflexivity|].
  rewrite H, IH. reflexivity.
Qed.

Lemma gallop_right_inv (fuel : nat) (hint maxOfs lastOfs offset : Z) :
  0 <= lastOfs < offset -> maxOfs <= offset + Z.of_nat fuel ->
  goRight (hint + lastOfs) = true ->
  forall lo ofs,
    gallop fuel (fun o => goRight (hint + o)) maxOfs lastOfs offset = (lo, ofs) ->
    0 <= lo < ofs /\ lo < Z.max maxOfs (lastOfs + 1)
    /\ goRight (hint + lo) = true
    /\ (maxOfs <= ofs \/ goRight (hint + ofs) = false).
Proof.
  revert lastOfs offset. induction fuel as [|fuel IH];
    intros lastOfs offset Hlo Hf Hg lo ofs; cbn [gallop].
  - intros [= <- <-]. repeat split; try lia; auto.
  - destruct (Z.ltb_spec offset maxOfs) as [Hlt|Hge]; cbn [andb].
    + destruct (goRight (hint + offset)) eqn:E.
      * rewrite Z.shiftl_mul_pow2 by lia. change (2 ^ 1) with 2.
        intros H. apply IH in H; try lia; auto.
        destruct H as (H1 & H2 & H3 & H4). repeat split; try lia; auto.
      * intros [= <- <-]. repeat split; try lia; auto.
    + intros [= <- <-]. repeat split; try lia; auto.
Qed.

Lemma gallop_left_inv (fuel : nat) (hint maxOfs lastOfs offset : Z) :
  0 <= lastOfs < offset -> maxOfs <= offset + Z.of_nat fuel ->
  goRight (hint - lastOfs) = false ->
  forall lo ofs,
    gallop fuel (fun o => negb (goRight (hint - o))) maxOfs lastOfs offset = (lo, ofs) ->
    0 <= lo < ofs /\ lo < Z.max maxOfs (lastOfs + 1)
    /\ goRight (hint - lo) = false
    /\ (maxOfs <= ofs \/ goRight (hint - ofs) = true).
Proof.
  revert lastOfs offset. induction fuel as [|fuel IH];
    intros lastOfs offset Hlo Hf Hg lo ofs; cbn [gallop].
  - intros [= <- <-]. repeat split; try lia; auto.
  - destruct (Z.ltb_spec offset maxOfs) as [Hlt|Hge]; cbn [andb].
    + destruct (goRight (hint - offset)) eqn:E; cbn [negb].
      * intros [= <- <-]. repeat split; try lia; auto.
      * rewrite Z.shiftl_mul_pow2 by lia. change (2 ^ 1) with 2.
        intros H. apply IH in H; try lia; auto.
        destruct H as (H1 & H2 & H3 & H4). repeat split; try lia; auto.
    + intros [= <- <-]. repeat split; try lia; auto.
Qed.

Local Abbreviation galloped := (Merging.galloped goRight).

Lemma galloped_boundary (fuel : nat) (length hint : Z) :
  0 <= hint < length -> length <= Z.of_nat fuel ->
  boundary length (galloped fuel length hint).
Proof.
  intros Hh Hf. unfold galloped.
  destruct (goRight hint) eqn:E.
  - destruct (gallop fuel (fun o => goRight (hint + o)) (length - hint) 0 1)
      as [lo ofs] eqn:G.
    apply gallop_right_inv in G; try lia.
    + destruct G as (H1 & H2 & H3 & H4).
      apply bisect_boundary; try lia.
      * right. replace (lo + hint + 1 - 1) with (hint + lo) by lia. exact H3.
      * destruct (Z.le_ge_cases ofs (length - hint)) as [Hle|Hge].
        -- rewrite Z.min_l by lia. destruct H4 as [H4|H4].
           ++ left. lia.
           ++ right. rewrite Z.add_comm. exact H4.
        -- rewrite Z.min_r by lia. left. lia.
    + rewrite Z.add_0_r. exact E.
  - destruct (gallop fuel (fun o => negb (goRight (hint - o))) (hint + 1) 0 1)
      as [lo ofs] eqn:G.
    apply gallop_left_inv in G; try lia.
    + destruct G as (H1 & H2 & H3 & H4).
      apply bisect_boundary; try lia.
      * destruct (Z.le_ge_cases ofs (hint + 1)) as [Hle|Hge].
        -- rewrite Z.min_l by lia. destruct H4 as [H4|H4].
           ++ left. lia.
           ++ right. replace (hint - ofs + 1 - 1) with (hint - ofs) by lia. exact H4.
        -- rewrite Z.min_r by lia. left. lia.
      * right. exact H3.
    + rewrite Z.sub_0_r. exact E.
Qed.

End Bisect.

Section Gallops.

Context {A : Type}.
Variable comparefn : A -> A -> float.

Local Abbreviation before := (sortsBefore comparefn).

Lemma gallopLeft_galloped (a : list A) (key : A) (hint : Z) :
  gallopLeft comparefn a key hint
  = galloped (fun m => before (item a key m) key) (List.length a)
             (Z.of_nat (List.length a)) hint.
Proof. reflexivity. Qed.

Lemma gallopRight_galloped (a : list A) (key : A) (hint : Z) :
  gallopRight comparefn a key hint
  = galloped (fun m => negb (before key (item a key m))) (List.length a)
             (Z.of_nat (List.length a)) hint.
Proof.
  unfold gallopRight, galloped.
  destruct (before key (item a key hint)); simpl.
  - rewrite (gallop_ext _ (fun o => negb (negb (before key (item a key (hint - o)))))
                        (fun o => before key (item a key (hint - o))))
      by (intros o; apply negb_involutive).
    reflexivity.
  - reflexivity.
Qed.

End Gallops.

End SearchFacts.

(** ** Merged runs *)

Module ZipFacts.

Import JsArray Merging.

(** *** Reading a run by index *)

Section Items.

Context {A : Type}.

Lemma firstn_item (a : list A) (key : A) (k : Z) :
  0 < k <= Z.of_nat (List.length a) ->
  firstn (Z.to_nat k) a
  = (firstn (Z.to_nat (k - 1)) a ++ [item a key (k - 1)])%list.
Proof.
  intros Hk. unfold item.
  replace (Z.to_nat k) with (S (Z.to_nat (k - 1))) by lia.
  assert (Hn : (Z.to_nat (k - 1) < List.length a)%nat) by lia.
  revert Hn. generalize (Z.to_nat (k - 1)) as n. clear Hk.
  induction a as [|x a IH]; intros n Hn; simpl in *; [lia|].
  destruct n as [|n]; [reflexivity|].
  simpl. f_equal. apply IH. lia.
Qed.

Lemma skipn_item (a : list A) (key : A) (k : Z) :
  0 <= k < Z.of_nat (List.length a) ->
  skipn (Z.to_nat k) a = item a key k :: skipn (Z.to_nat (k + 1)) a.
Proof.
  intros Hk. unfold item.
  replace (Z.to_nat (k + 1)) with (S (Z.to_nat k)) by lia.
  assert (Hn : (Z.to_nat k < List.length a)%nat) by lia.
  revert Hn. generalize (Z.to_nat k) as n. clear Hk.
  induction a as [|x a IH]; intros n Hn; simpl in *; [lia|].
  destruct n as [|n]; [reflexivity|].
  apply IH. lia.
Qed.

Lemma item_rev (a : list A) (key : A) (k : Z) :
  0 <= k < Z.of_nat (List.length a) ->
  item (rev a) key k = item a key (Z.of_nat (List.length a) - 1 - k).
Proof.
  intros Hk. unfold item.
  rewrite rev_nth by lia. f_equal. lia.
Qed.

End Items.

(** *** Building a merged run *)

Section Build.

Context {A : Type}.
Variable R : bool * A -> bool * A -> Prop.
Hypothesis same_run : forall s x y, R (s, x) (s, y).

Local Abbreviation okAfter := (Merging.okAfter R).

Local Abbreviation lastOf := (@Merging.lastOf A).

Lemma lastOf_cons (u : option (bool * A)) (s : bool) (x : A) (stretch : list A) :
  lastOf u s (x :: stretch) = lastOf (Some (s, x)) s stretch.
Proof.
  unfold lastOf. simpl. destruct (rev stretch); reflexivity.
Qed.

Lemma lastOf_snoc (u : option (bool * A)) (s : bool) (x : A) (stretch : list A) :
  lastOf u s (stretch ++ [x]) = Some (s, x).
Proof. unfold lastOf. rewrite rev_app_distr. reflexivity. Qed.

Lemma za_nil (u : option (bool * A)) : ZipAfter R u [] [] [].
Proof.
  exists []. destruct u; repeat split; repeat constructor.
Qed.

Lemma za_A (u : option (bool * A)) (x : A) (runA runB merged : list A) :
  okAfter u (false, x) ->
  ZipAfter R (Some (false, x)) runA runB merged ->
  ZipAfter R u (x :: runA) runB (x :: merged).
Proof.
  intros Hu (t & Hs & <- & <- & <-). exists ((false, x) :: t).
  repeat split. destruct u as [u|]; [|exact Hs].
  constructor; [exact Hs|constructor; exact Hu].
Qed.

Lemma za_B (u : option (bool * A)) (y : A) (runA runB merged : list A) :
  okAfter u (true, y) ->
  ZipAfter R (Some (true, y)) runA runB merged ->
  ZipAfter R u runA (y :: runB) (y :: merged).
Proof.
  intros Hu (t & Hs & <- & <- & <-). exists ((true, y) :: t).
  repeat split. destruct u as [u|]; [|exact Hs].
  constructor; [exact Hs|constructor; exact Hu].
Qed.

Lemma za_stretchA (stretch : list A) (u : option (bool * A))
      (runA runB merged : list A) :
  (forall x, hd_error stretch = Some x -> okAfter u (false, x)) ->
  ZipAfter R (lastOf u false stretch) runA runB merged ->
  ZipAfter R u (stretch ++ runA) runB (stretch ++ merged).
Proof.
  revert u. induction stretch as [|x stretch IH]; intros u Hu H; [exact H|].
  simpl. apply za_A; [apply Hu; reflexivity|].
  apply IH.
  - intros y _. apply same_run.
  - rewrite <- (lastOf_cons u). exact H.
Qed.

Lemma za_stretchB (stretch : list A) (u : option (bool * A))
      (runA runB merged : list A) :
  (forall y, hd_error stretch = Some y -> okAfter u (true, y)) ->
  ZipAfter R (lastOf u true stretch) runA runB merged ->
  ZipAfter R u runA (stretch ++ runB) (stretch ++ merged).
Proof.
  revert u. induction stretch as [|y stretch IH]; intros u Hu H; [exact H|].
  simpl. apply za_B; [apply Hu; reflexivity|].
  apply IH.
  - intros z _. apply same_run.
  - rewrite <- (lastOf_cons u). exact H.
Qed.

Lemma za_restA (u : option (bool * A)) (runA : list A) :
  (forall x, hd_error runA = Some x -> okAfter u (false, x)) ->
  ZipAfter R u runA [] runA.
Proof.
  intros H. rewrite <- (app_nil_r runA) at 1 2.
  apply za_stretchA; [exact H|apply za_nil].
Qed.

Lemma za_restB (u : option (bool * A)) (runB : list A) :
  (forall y, hd_error runB = Some y -> okAfter u (true, y)) ->
  ZipAfter R u [] runB runB.
Proof.
  intros H. rewrite <- (app_nil_r runB) at 1 2.
  apply za_stretchB; [exact H|apply za_nil].
Qed.

End Build.

End ZipFacts.

(** ** Where a gallop ends *)

Module MergeFacts.

Import JsArray Merging SearchFacts ZipFacts.

Section Ends.

Context {A : Type}.

Local Abbreviation endsWith := (@Merging.endsWith A).

Lemma endsWith_cons (y : A) (l : list A) (x : A) :
  endsWith l x -> endsWith (y :: l) x.
Proof. intros [front ->]. exists (y :: front). reflexivity. Qed.

Lemma endsWith_app (front l : list A) (x : A) :
  endsWith l x -> endsWith (front ++ l) x.
Proof. intros [f ->]. exists (front ++ f)%list. apply app_assoc. Qed.

Lemma endsWith_skipn (n : nat) (l : list A) (x : A) :
  endsWith (skipn n l) x -> endsWith l x.
Proof.
  intros H. rewrite <- (firstn_skipn n l). apply endsWith_app, H.
Qed.

Lemma endsWith_one (x y : A) : endsWith [x] y -> y = x.
Proof.
  intros [[|z front] H]; simpl in H.
  - congruence.
  - destruct front; discriminate.
Qed.

Lemma endsWith_rev (l : list A) (x : A) :
  endsWith l x <-> hd_error (rev l) = Some x.
Proof.
  split.
  - intros [front ->]. rewrite rev_app_distr. reflexivity.
  - intros H. exists (rev (tl (rev l))).
    rewrite <- (rev_involutive l) at 1.
    destruct (rev l) as [|y r]; [discriminate|].
    injection H as ->. reflexivity.
Qed.

Lemma lastOf_endsWith (u : option (bool * A)) (s : bool) (l : list A) (x : A) :
  endsWith l x -> lastOf u s l = Some (s, x).
Proof. intros [front ->]. apply lastOf_snoc. Qed.

Lemma lastOf_nil (u : option (bool * A)) (s : bool) : lastOf u s [] = u.
Proof. reflexivity. Qed.

End Ends.

Section Gallops.

Context {A : Type}.
Variable comparefn : A -> A -> float.

Local Abbreviation before := (sortsBefore comparefn).

(** [GallopRight] answers a place after which [key] sorts before the
    element it finds, and not before the element in front of it. *)
Lemma gallopRight_spec (a : list A) (key : A) (hint : Z) :
  0 <= hint < Z.of_nat (List.length a) ->
  0 <= gallopRight comparefn a key hint <= Z.of_nat (List.length a)
  /\ (forall x, endsWith (firstn (Z.to_nat (gallopRight comparefn a key hint)) a) x ->
                before key x = false)
  /\ (forall x, hd_error (skipn (Z.to_nat (gallopRight comparefn a key hint)) a) = Some x ->
                before key x = true).
Proof.
  intros Hh. rewrite gallopRight_galloped.
  destruct (galloped_boundary (fun m => negb (before key (item a key m)))
              (List.length a) (Z.of_nat (List.length a)) hint Hh ltac:(lia))
    as (Hk & Hlo & Hhi).
  set (k := galloped _ _ _ _) in *.
  split; [exact Hk|split].
  - intros x Hx. destruct Hlo as [->|Hlo].
    + destruct Hx as [front Hx]. simpl in Hx. destruct front; discriminate.
    + assert (0 < k).
      { destruct (Z.eq_dec k 0) as [E|]; [|lia]. rewrite E in Hx.
        destruct Hx as [front Hx]. simpl in Hx. destruct front; discriminate. }
      rewrite (firstn_item a key k) in Hx by lia.
      destruct Hx as [front Hx]. apply app_inj_tail in Hx as [_ <-].
      apply negb_true_iff, Hlo.
  - intros x Hx. destruct Hhi as [->|Hhi].
    + rewrite Nat2Z.id, skipn_all in Hx. discriminate.
    + assert (k < Z.of_nat (List.length a)).
      { destruct (Z.eq_dec k (Z.of_nat (List.length a))) as [E|]; [|lia].
        rewrite E, Nat2Z.id, skipn_all in Hx. discriminate. }
      rewrite (skipn_item a key k) in Hx by lia.
      injection Hx as <-. apply negb_false_iff, Hhi.
Qed.

(** [GallopLeft] answers a place at which the element does not sort before
    [key], and the element in front of it does. *)
Lemma gallopLeft_spec (a : list A) (key : A) (hint : Z) :
  0 <= hint < Z.of_nat (List.length a) ->
  0 <= gallopLeft comparefn a key hint <= Z.of_nat (List.length a)
  /\ (forall x, endsWith (firstn (Z.to_nat (gallopLeft comparefn a key hint)) a) x ->
                before x key = true)
  /\ (forall x, hd_error (skipn (Z.to_nat (gallopLeft comparefn a key hint)) a) = Some x ->
                before x key = false).
Proof.
  intros Hh. rewrite gallopLeft_galloped.
  destruct (galloped_boundary (fun m => before (item a key m) key)
              (List.length a) (Z.of_nat (List.length a)) hint Hh ltac:(lia))
    as (Hk & Hlo & Hhi).
  set (k := galloped _ _ _ _) in *.
  split; [exact Hk|split].
  - intros x Hx. destruct Hlo as [->|Hlo].
    + destruct Hx as [front Hx]. simpl in Hx. destruct front; discriminate.
    + assert (0 < k).
      { destruct (Z.eq_dec k 0) as [E|]; [|lia]. rewrite E in Hx.
        destruct Hx as [front Hx]. simpl in Hx. destruct front; discriminate. }
      rewrite (firstn_item a key k) in Hx by lia.
      destruct Hx as [front Hx]. apply app_inj_tail in Hx as [_ <-].
      exact Hlo.
  - intros x Hx. destruct Hhi as [->|Hhi].
    + rewrite Nat2Z.id, skipn_all in Hx. discriminate.
    + assert (k < Z.of_nat (List.length a)).
      { destruct (Z.eq_dec k (Z.of_nat (List.length a))) as [E|]; [|lia].
        rewrite E, Nat2Z.id, skipn_all in Hx. discriminate. }
      rewrite (skipn_item a key k) in Hx by lia.
      injection Hx as <-. exact Hhi.
Qed.

End Gallops.

End MergeFacts.

(** ** [MergeLow] *)

Module MergeLowFacts.

Import JsArray Merging SearchFacts ZipFacts MergeFacts.

Section Build2.

Context {A : Type}.
Variable R : bool * A -> bool * A -> Prop.
Hypothesis same_run : forall s x y, R (s, x) (s, y).

Lemma za_AB (u : option (bool * A)) (runA runB : list A) :
  (forall a, hd_error runA = Some a -> okAfter R u (false, a)) ->
  (forall b, hd_error runB = Some b -> okAfter R (lastOf u false runA) (true, b)) ->
  ZipAfter R u runA runB (runA ++ runB).
Proof.
  intros Ha Hb. rewrite <- (app_nil_r runA) at 1.
  apply za_stretchA; [exact same_run|exact Ha|].
  apply za_restB; [exact same_run|exact Hb].
Qed.

Lemma za_BA (u : option (bool * A)) (runA runB : list A) :
  (forall b, hd_error runB = Some b -> okAfter R u (true, b)) ->
  (forall a, hd_error runA = Some a -> okAfter R (lastOf u true runB) (false, a)) ->
  ZipAfter R u runA runB (runB ++ runA).
Proof.
  intros Hb Ha. rewrite <- (app_nil_r runB) at 1.
  apply za_stretchB; [exact same_run|exact Hb|].
  apply za_restA; [exact same_run|exact Ha].
Qed.

Lemma okAfter_lastOf (u : option (bool * A)) (s : bool) (stretch : list A)
      (v : bool * A) :
  (stretch = [] -> okAfter R u v) ->
  (forall x, endsWith stretch x -> R (s, x) v) ->
  okAfter R (lastOf u s stretch) v.
Proof.
  intros Hnil Hlast. destruct stretch as [|y stretch] using rev_ind.
  - apply Hnil. reflexivity.
  - rewrite lastOf_snoc. apply Hlast. exists stretch. reflexivity.
Qed.

Lemma hd_firstn (n : nat) (l : list A) (x : A) :
  hd_error (firstn n l) = Some x -> hd_error l = Some x.
Proof. destruct n, l; simpl; congruence. Qed.

End Build2.

Section MergeLow.

Context {A : Type}.
Variable comparefn : A -> A -> float.

Local Abbreviation before := (sortsBefore comparefn).
Local Abbreviation R := (inOrder before).

Lemma inOrder_same (s : bool) (x y : A) : R (s, x) (s, y).
Proof. destruct s; exact I. Qed.

Local Abbreviation headsOK := (Merging.headsOK comparefn).

Local Abbreviation lastOK := (Merging.lastOK comparefn).

Lemma mergeLowLoop_zip (fuel : nat) :
  forall (galloping : bool) (minGallop nofWinsA nofWinsB : Z)
         (tempArray workArray : list A) (u : option (bool * A)),
    (List.length tempArray + List.length workArray <= fuel)%nat ->
    (2 <= List.length tempArray)%nat -> workArray <> [] ->
    headsOK u tempArray workArray -> lastOK tempArray workArray ->
    ZipAfter R u tempArray workArray
      (fst (mergeLowLoop comparefn fuel galloping minGallop nofWinsA nofWinsB
                         tempArray workArray)).
Proof.
  induction fuel as [|fuel IH];
    intros galloping minGallop nofWinsA nofWinsB tempArray workArray u
           Hfuel HlenA HneB [HhA HhB] Hlast.
  { simpl in *. lia. }
  destruct tempArray as [|elementA restA]; [simpl in HlenA; lia|].
  destruct workArray as [|elementB restB]; [contradiction|].
  cbn [mergeLowLoop].
  destruct galloping; cbn [negb].
  2:{ (* the heads are compared *)
    destruct (before elementB elementA) eqn:E.
    - destruct restB as [|b1 restB].
      + cbn [fst]. apply za_B; [apply HhB; reflexivity|].
        apply za_restA; [exact inOrder_same|].
        intros a [= <-]. exact E.
      + assert (Hnext : forall g wA wB,
                  ZipAfter R (Some (true, elementB)) (elementA :: restA) (b1 :: restB)
                    (fst (mergeLowLoop comparefn fuel g minGallop wA wB
                                       (elementA :: restA) (b1 :: restB)))
                  /\ ZipAfter R (Some (true, elementB)) (elementA :: restA) (b1 :: restB)
                    (fst (mergeLowLoop comparefn fuel g (minGallop + 1) wA wB
                                       (elementA :: restA) (b1 :: restB)))).
        { intros g wA wB. split; apply IH; simpl in *; try lia; try discriminate.
          - split; [intros a [= <-]; exact E|intros b _; exact I].
          - intros a b Ha Hb. apply Hlast; [exact Ha|apply endsWith_cons, Hb].
          - split; [intros a [= <-]; exact E|intros b _; exact I].
          - intros a b Ha Hb. apply Hlast; [exact Ha|apply endsWith_cons, Hb]. }
        destruct (minGallop <=? nofWinsB + 1).
        * destruct (mergeLowLoop comparefn fuel true (minGallop + 1) 0 (nofWinsB + 1)
                                 (elementA :: restA) (b1 :: restB)) as [merged g] eqn:M.
          cbn [fst]. apply za_B; [apply HhB; reflexivity|].
          pose proof (proj2 (Hnext true 0 (nofWinsB + 1))) as H. rewrite M in H. exact H.
        * destruct (mergeLowLoop comparefn fuel false minGallop 0 (nofWinsB + 1)
                                 (elementA :: restA) (b1 :: restB)) as [merged g] eqn:M.
          cbn [fst]. apply za_B; [apply HhB; reflexivity|].
          pose proof (proj1 (Hnext false 0 (nofWinsB + 1))) as H. rewrite M in H. exact H.
    - destruct restA as [|a1 restA]; [simpl in HlenA; lia|].
      destruct restA as [|a2 restA].
      + cbn [fst]. apply za_A; [apply HhA; reflexivity|].
        apply za_BA; [exact inOrder_same| |].
        * intros b [= <-]. exact E.
        * intros a [= <-].
          rewrite (lastOf_endsWith _ true (elementB :: restB)
                     (last (elementB :: restB) elementB)).
          -- apply Hlast.
             ++ exists [elementA]. reflexivity.
             ++ exists (removelast (elementB :: restB)).
                apply app_removelast_last. discriminate.
          -- exists (removelast (elementB :: restB)).
             apply app_removelast_last. discriminate.
      + assert (Hnext : forall g mg wA wB,
                  ZipAfter R (Some (false, elementA)) (a1 :: a2 :: restA) (elementB :: restB)
                    (fst (mergeLowLoop comparefn fuel g mg wA wB
                                       (a1 :: a2 :: restA) (elementB :: restB)))).
        { intros g mg wA wB. apply IH; simpl in *; try lia; try discriminate.
          - split; [intros a _; exact I|intros b [= <-]; exact E].
          - intros a b Ha Hb. apply Hlast; [apply endsWith_cons, Ha|exact Hb]. }
        destruct (minGallop <=? nofWinsA + 1).
        * destruct (mergeLowLoop comparefn fuel true (minGallop + 1) (nofWinsA + 1) 0
                                 (a1 :: a2 :: restA) (elementB :: restB)) as [merged g] eqn:M.
          cbn [fst]. apply za_A; [apply HhA; reflexivity|].
          pose proof (Hnext true (minGallop + 1) (nofWinsA + 1) 0) as H.
          rewrite M in H. exact H.
        * destruct (mergeLowLoop comparefn fuel false minGallop (nofWinsA + 1) 0
                                 (a1 :: a2 :: restA) (elementB :: restB)) as [merged g] eqn:M.
          cbn [fst]. apply za_A; [apply HhA; reflexivity|].
          pose proof (Hnext false minGallop (nofWinsA + 1) 0) as H.
          rewrite M in H. exact H. }
  (* galloping *)
  pose proof (gallopRight_spec comparefn (elementA :: restA) elementB 0
                ltac:(simpl; lia)) as (Hk & Hk1 & Hk2).
  remember (gallopRight comparefn (elementA :: restA) elementB 0) as k eqn:Ek.
  pose proof (firstn_skipn (Z.to_nat k) (elementA :: restA)) as Hsplit.
  assert (HhW : forall x, hd_error (firstn (Z.to_nat k) (elementA :: restA)) = Some x ->
                          okAfter R u (false, x)).
  { intros x Hx. apply HhA. eapply hd_firstn, Hx. }
  assert (Hlen : (List.length (firstn (Z.to_nat k) (elementA :: restA))
                  + List.length (skipn (Z.to_nat k) (elementA :: restA))
                  = List.length (elementA :: restA))%nat).
  { rewrite <- length_app, Hsplit. reflexivity. }
  assert (Hk0 : firstn (Z.to_nat k) (elementA :: restA) = [] -> k = 0).
  { intros H0. destruct (Z.to_nat k) eqn:Ez; [lia|discriminate]. }
  assert (HlastA : forall a, endsWith (skipn (Z.to_nat k) (elementA :: restA)) a ->
                             endsWith (elementA :: restA) a).
  { intros a. apply endsWith_skipn. }
  remember (firstn (Z.to_nat k) (elementA :: restA)) as wonA eqn:EwA.
  remember (skipn (Z.to_nat k) (elementA :: restA)) as temp' eqn:Et.
  assert (HwB : okAfter R (lastOf u false wonA) (true, elementB)).
  { apply okAfter_lastOf.
    - intros ->. apply HhB. reflexivity.
    - intros x Hx. apply Hk1, Hx. }
  rewrite <- Hsplit.
  destruct temp' as [|nextA afterA].
  { cbn [fst]. rewrite app_nil_r.
    apply za_AB; [exact inOrder_same|exact HhW|].
    intros b [= <-]. exact HwB. }
  specialize (Hk2 nextA eq_refl).
  assert (HendB : endsWith (elementB :: restB) (last (elementB :: restB) elementB)).
  { exists (removelast (elementB :: restB)). apply app_removelast_last. discriminate. }
  destruct ((0 <? k) && (List.length afterA =? 0)%nat) eqn:Ecopy.
  { apply andb_true_iff in Ecopy as [Hkpos Hafter].
    apply Nat.eqb_eq in Hafter. destruct afterA; [|discriminate]. cbn [fst].
    apply za_stretchA; [exact inOrder_same|exact HhW|].
    apply za_BA; [exact inOrder_same| |].
    - intros b [= <-]. exact HwB.
    - intros a [= <-]. rewrite (lastOf_endsWith _ true _ _ HendB).
      apply Hlast; [apply HlastA; exists []; reflexivity|exact HendB]. }
  destruct restB as [|b1 restB].
  { cbn [fst]. apply za_stretchA; [exact inOrder_same|exact HhW|].
    apply za_B; [exact HwB|].
    apply za_restA; [exact inOrder_same|].
    intros a [= <-]. exact Hk2. }
  pose proof (gallopLeft_spec comparefn (b1 :: restB) nextA 0
                ltac:(simpl; lia)) as (Hj & Hj1 & Hj2).
  remember (gallopLeft comparefn (b1 :: restB) nextA 0) as j eqn:Ej.
  pose proof (firstn_skipn (Z.to_nat j) (b1 :: restB)) as HsplitB.
  assert (HlenB : (List.length (firstn (Z.to_nat j) (b1 :: restB))
                   + List.length (skipn (Z.to_nat j) (b1 :: restB))
                   = List.length (b1 :: restB))%nat).
  { rewrite <- length_app, HsplitB. reflexivity. }
  assert (HlastB : forall b, endsWith (skipn (Z.to_nat j) (b1 :: restB)) b ->
                             endsWith (elementB :: b1 :: restB) b).
  { intros b Hb. apply endsWith_cons. eapply endsWith_skipn, Hb. }
  remember (firstn (Z.to_nat j) (b1 :: restB)) as wonB eqn:EwB.
  remember (skipn (Z.to_nat j) (b1 :: restB)) as work' eqn:Ew.
  assert (HwA : okAfter R (lastOf (Some (true, elementB)) true wonB) (false, nextA)).
  { apply okAfter_lastOf.
    - intros _. exact Hk2.
    - intros x Hx. apply Hj1, Hx. }
  rewrite <- HsplitB.
  assert (Hstart : forall merged,
            ZipAfter R (lastOf (Some (true, elementB)) true wonB)
                     (nextA :: afterA) work' merged ->
            ZipAfter R u (wonA ++ nextA :: afterA) (elementB :: wonB ++ work')
                     (wonA ++ elementB :: wonB ++ merged)).
  { intros merged H.
    apply za_stretchA; [exact inOrder_same|exact HhW|].
    apply za_B; [exact HwB|].
    apply za_stretchB; [exact inOrder_same|intros y _; apply inOrder_same|].
    exact H. }
  destruct work' as [|nextB afterB].
  { cbn [fst]. apply Hstart.
    apply za_restA; [exact inOrder_same|].
    intros a [= <-]. exact HwA. }
  specialize (Hj2 nextB eq_refl).
  destruct afterA as [|a2 afterA].
  { (* not reached: one element of A left without a stretch of A moved *)
    exfalso. apply andb_false_iff in Ecopy as [Hz|Hz].
    - apply Z.ltb_ge in Hz. assert (H0 : k = 0) by lia.
      rewrite H0 in EwA. simpl in EwA. rewrite EwA in Hlen.
      simpl in Hlen, HlenA. lia.
    - simpl in Hz. discriminate. }
  destruct afterA as [|a3 afterA].
  { cbn [fst]. apply Hstart.
    apply za_A; [exact HwA|].
    apply za_BA; [exact inOrder_same| |].
    - intros b [= <-]. exact Hj2.
    - intros a [= <-].
      assert (HendW : endsWith (nextB :: afterB) (last (nextB :: afterB) nextB)).
      { exists (removelast (nextB :: afterB)). apply app_removelast_last. discriminate. }
      rewrite (lastOf_endsWith _ true _ _ HendW).
      apply Hlast; [|apply HlastB, HendW].
      apply HlastA. exists [nextA]. reflexivity. }
  assert (Hnext : forall g mg wA wB,
            ZipAfter R (Some (false, nextA)) (a2 :: a3 :: afterA) (nextB :: afterB)
              (fst (mergeLowLoop comparefn fuel g mg wA wB
                                 (a2 :: a3 :: afterA) (nextB :: afterB)))).
  { intros g mg wA wB. apply IH; try discriminate.
    - simpl in *. lia.
    - simpl. lia.
    - split; [intros a _; exact I|intros b [= <-]; exact Hj2].
    - intros a b Ha Hb. apply Hlast; [|apply HlastB, Hb].
      apply HlastA, endsWith_cons, Ha. }
  destruct ((kMinGallopWins <=? k) || (kMinGallopWins <=? j)).
  - destruct (mergeLowLoop comparefn fuel true (Z.max 1 (minGallop - 1)) k j
                           (a2 :: a3 :: afterA) (nextB :: afterB)) as [merged g] eqn:M.
    cbn [fst]. apply Hstart. apply za_A; [exact HwA|].
    pose proof (Hnext true (Z.max 1 (minGallop - 1)) k j) as H. rewrite M in H. exact H.
  - destruct (mergeLowLoop comparefn fuel false (Z.max 1 (minGallop - 1) + 1) 0 0
                           (a2 :: a3 :: afterA) (nextB :: afterB)) as [merged g] eqn:M.
    cbn [fst]. apply Hstart. apply za_A; [exact HwA|].
    pose proof (Hnext false (Z.max 1 (minGallop - 1) + 1) 0 0) as H. rewrite M in H. exact H.
Qed.

End MergeLow.

End MergeLowFacts.

(** ** [MergeHigh] *)

Module MergeHighFacts.

Import JsArray Merging SearchFacts ZipFacts MergeFacts MergeLowFacts.

Section MergeHigh.

Context {A : Type}.
Variable comparefn : A -> A -> float.

Local Abbreviation before := (sortsBefore comparefn).

Local Abbreviation inOrderBack := (Merging.inOrderBack comparefn).

Local Abbreviation R := inOrderBack.

Lemma inOrderBack_same (s : bool) (x y : A) : R (s, x) (s, y).
Proof. destruct s; exact I. Qed.

(** The gallops of [MergeHigh] read the runs in their own order; the
    stretch they win is the front of the run read from its end. *)
Lemma gallopRight_back (workArray : list A) (key : A) :
  workArray <> [] ->
  let lengthA := Z.of_nat (List.length workArray) in
  let nofWinsA :=
    Z.to_nat (lengthA - gallopRight comparefn (rev workArray) key (lengthA - 1)) in
  0 <= gallopRight comparefn (rev workArray) key (lengthA - 1) <= lengthA
  /\ (forall x, endsWith (firstn nofWinsA workArray) x -> before key x = true)
  /\ (forall x, hd_error (skipn nofWinsA workArray) = Some x -> before key x = false).
Proof.
  intros Hne lengthA nofWinsA.
  assert (Hpos : 0 < lengthA).
  { unfold lengthA. destruct workArray; [contradiction|simpl; lia]. }
  destruct (gallopRight_spec comparefn (rev workArray) key (lengthA - 1))
    as (Hk & H1 & H2).
  { rewrite length_rev. unfold lengthA in *. lia. }
  rewrite length_rev in Hk. fold lengthA in Hk.
  set (k := gallopRight comparefn (rev workArray) key (lengthA - 1)) in *.
  assert (Hn : (List.length workArray - Z.to_nat k)%nat = nofWinsA).
  { unfold nofWinsA, lengthA. lia. }
  rewrite firstn_rev, Hn in H1. rewrite skipn_rev, Hn in H2.
  split; [exact Hk|split].
  - intros x Hx. apply H2. apply endsWith_rev, Hx.
  - intros x Hx. apply H1. apply endsWith_rev. rewrite rev_involutive. exact Hx.
Qed.

Lemma gallopLeft_back (tempArray : list A) (key : A) :
  tempArray <> [] ->
  let lengthB := Z.of_nat (List.length tempArray) in
  let nofWinsB :=
    Z.to_nat (lengthB - gallopLeft comparefn (rev tempArray) key (lengthB - 1)) in
  0 <= gallopLeft comparefn (rev tempArray) key (lengthB - 1) <= lengthB
  /\ (forall x, endsWith (firstn nofWinsB tempArray) x -> before x key = false)
  /\ (forall x, hd_error (skipn nofWinsB tempArray) = Some x -> before x key = true).
Proof.
  intros Hne lengthB nofWinsB.
  assert (Hpos : 0 < lengthB).
  { unfold lengthB. destruct tempArray; [contradiction|simpl; lia]. }
  destruct (gallopLeft_spec comparefn (rev tempArray) key (lengthB - 1))
    as (Hk & H1 & H2).
  { rewrite length_rev. unfold lengthB in *. lia. }
  rewrite length_rev in Hk. fold lengthB in Hk.
  set (k := gallopLeft comparefn (rev tempArray) key (lengthB - 1)) in *.
  assert (Hn : (List.length tempArray - Z.to_nat k)%nat = nofWinsB).
  { unfold nofWinsB, lengthB. lia. }
  rewrite firstn_rev, Hn in H1. rewrite skipn_rev, Hn in H2.
  split; [exact Hk|split].
  - intros x Hx. apply H2. apply endsWith_rev, Hx.
  - intros x Hx. apply H1. apply endsWith_rev. rewrite rev_involutive. exact Hx.
Qed.

Local Abbreviation headsBack := (Merging.headsBack comparefn).

Lemma mergeHighLoop_zip (fuel : nat) :
  forall (galloping : bool) (minGallop nofWinsA nofWinsB : Z)
         (workArray tempArray : list A) (u : option (bool * A)),
    (List.length workArray + List.length tempArray <= fuel)%nat ->
    workArray <> [] -> (2 <= List.length tempArray)%nat ->
    headsBack u workArray tempArray -> lastOK comparefn workArray tempArray ->
    ZipAfter R u workArray tempArray
      (fst (mergeHighLoop comparefn fuel galloping minGallop nofWinsA nofWinsB
                          workArray tempArray)).
Proof.
  induction fuel as [|fuel IH];
    intros galloping minGallop nofWinsA nofWinsB workArray tempArray u
           Hfuel HneA HlenB [HhA HhB] Hlast.
  { simpl in *. lia. }
  destruct workArray as [|elementA restA]; [contradiction|].
  destruct tempArray as [|elementB restB]; [simpl in HlenB; lia|].
  cbn [mergeHighLoop].
  destruct galloping; cbn [negb].
  2:{ destruct (before elementB elementA) eqn:E.
    - destruct restA as [|a1 restA].
      + cbn [fst]. apply za_A; [apply HhA; reflexivity|].
        apply za_restB; [exact inOrderBack_same|].
        intros b [= <-]. exact E.
      + assert (Hnext : forall g mg wA wB,
                  ZipAfter R (Some (false, elementA)) (a1 :: restA) (elementB :: restB)
                    (fst (mergeHighLoop comparefn fuel g mg wA wB
                                        (a1 :: restA) (elementB :: restB)))).
        { intros g mg wA wB. apply IH; simpl in *; try lia; try discriminate.
          - split; [intros a _; exact I|intros b [= <-]; exact E].
          - intros a b Ha Hb. apply Hlast; [apply endsWith_cons, Ha|exact Hb]. }
        destruct (minGallop <=? nofWinsA + 1).
        * destruct (mergeHighLoop comparefn fuel true (minGallop + 1) (nofWinsA + 1) 0
                                  (a1 :: restA) (elementB :: restB)) as [merged g] eqn:M.
          cbn [fst]. apply za_A; [apply HhA; reflexivity|].
          pose proof (Hnext true (minGallop + 1) (nofWinsA + 1) 0) as H.
          rewrite M in H. exact H.
        * destruct (mergeHighLoop comparefn fuel false minGallop (nofWinsA + 1) 0
                                  (a1 :: restA) (elementB :: restB)) as [merged g] eqn:M.
          cbn [fst]. apply za_A; [apply HhA; reflexivity|].
          pose proof (Hnext false minGallop (nofWinsA + 1) 0) as H.
          rewrite M in H. exact H.
    - destruct restB as [|b1 restB]; [simpl in HlenB; lia|].
      destruct restB as [|b2 restB].
      + cbn [fst]. apply za_B; [apply HhB; reflexivity|].
        apply za_AB; [exact inOrderBack_same| |].
        * intros a [= <-]. exact E.
        * intros b [= <-].
          assert (HendA : endsWith (elementA :: restA) (last (elementA :: restA) elementA)).
          { exists (removelast (elementA :: restA)).
            apply app_removelast_last. discriminate. }
          rewrite (lastOf_endsWith _ false _ _ HendA).
          apply Hlast; [exact HendA|]. exists [elementB]. reflexivity.
      + assert (Hnext : forall g mg wA wB,
                  ZipAfter R (Some (true, elementB)) (elementA :: restA) (b1 :: b2 :: restB)
                    (fst (mergeHighLoop comparefn fuel g mg wA wB
                                        (elementA :: restA) (b1 :: b2 :: restB)))).
        { intros g mg wA wB. apply IH; simpl in *; try lia; try discriminate.
          - split; [intros a [= <-]; exact E|intros b _; exact I].
          - intros a b Ha Hb. apply Hlast; [exact Ha|apply endsWith_cons, Hb]. }
        destruct (minGallop <=? nofWinsB + 1).
        * destruct (mergeHighLoop comparefn fuel true (minGallop + 1) 0 (nofWinsB + 1)
                                  (elementA :: restA) (b1 :: b2 :: restB)) as [merged g] eqn:M.
          cbn [fst]. apply za_B; [apply HhB; reflexivity|].
          pose proof (Hnext true (minGallop + 1) 0 (nofWinsB + 1)) as H.
          rewrite M in H. exact H.
        * destruct (mergeHighLoop comparefn fuel false minGallop 0 (nofWinsB + 1)
                                  (elementA :: restA) (b1 :: b2 :: restB)) as [merged g] eqn:M.
          cbn [fst]. apply za_B; [apply HhB; reflexivity|].
          pose proof (Hnext false minGallop 0 (nofWinsB + 1)) as H.
          rewrite M in H. exact H. }
  (* galloping *)
  pose proof (gallopRight_back (elementA :: restA) elementB ltac:(discriminate))
    as HgA.
  cbv zeta in HgA. destruct HgA as (Hk & Hk1 & Hk2).
  remember (Z.of_nat (List.length (elementA :: restA))
            - gallopRight comparefn (rev (elementA :: restA)) elementB
                          (Z.of_nat (List.length (elementA :: restA)) - 1))
    as nofA eqn:EnA.
  pose proof (firstn_skipn (Z.to_nat nofA) (elementA :: restA)) as Hsplit.
  assert (HhW : forall x, hd_error (firstn (Z.to_nat nofA) (elementA :: restA)) = Some x ->
                          okAfter R u (false, x)).
  { intros x Hx. apply HhA. eapply hd_firstn, Hx. }
  assert (Hlen : (List.length (firstn (Z.to_nat nofA) (elementA :: restA))
                  + List.length (skipn (Z.to_nat nofA) (elementA :: restA))
                  = List.length (elementA :: restA))%nat).
  { rewrite <- length_app, Hsplit. reflexivity. }
  assert (HlastA : forall a, endsWith (skipn (Z.to_nat nofA) (elementA :: restA)) a ->
                             endsWith (elementA :: restA) a).
  { intros a. apply endsWith_skipn. }
  remember (firstn (Z.to_nat nofA) (elementA :: restA)) as wonA eqn:EwA.
  remember (skipn (Z.to_nat nofA) (elementA :: restA)) as work' eqn:Ew.
  assert (HwB : okAfter R (lastOf u false wonA) (true, elementB)).
  { apply okAfter_lastOf.
    - intros ->. apply HhB. reflexivity.
    - intros x Hx. apply Hk1, Hx. }
  rewrite <- Hsplit.
  destruct work' as [|nextA afterA].
  { cbn [fst]. rewrite app_nil_r.
    apply za_AB; [exact inOrderBack_same|exact HhW|].
    intros b [= <-]. exact HwB. }
  specialize (Hk2 nextA eq_refl).
  assert (HendA : endsWith (nextA :: afterA) (last (nextA :: afterA) nextA)).
  { exists (removelast (nextA :: afterA)). apply app_removelast_last. discriminate. }
  destruct restB as [|b1 restB]; [simpl in HlenB; lia|].
  destruct restB as [|b2 restB].
  { cbn [fst]. apply za_stretchA; [exact inOrderBack_same|exact HhW|].
    apply za_B; [exact HwB|].
    apply za_AB; [exact inOrderBack_same| |].
    - intros a [= <-]. exact Hk2.
    - intros b [= <-]. rewrite (lastOf_endsWith _ false _ _ HendA).
      apply Hlast; [apply HlastA, HendA|].
      exists [elementB]. reflexivity. }
  pose proof (gallopLeft_back (b1 :: b2 :: restB) nextA ltac:(discriminate)) as HgB.
  cbv zeta in HgB. destruct HgB as (Hj & Hj1 & Hj2).
  remember (Z.of_nat (List.length (b1 :: b2 :: restB))
            - gallopLeft comparefn (rev (b1 :: b2 :: restB)) nextA
                         (Z.of_nat (List.length (b1 :: b2 :: restB)) - 1))
    as nofB eqn:EnB.
  pose proof (firstn_skipn (Z.to_nat nofB) (b1 :: b2 :: restB)) as HsplitB.
  assert (HlenB' : (List.length (firstn (Z.to_nat nofB) (b1 :: b2 :: restB))
                    + List.length (skipn (Z.to_nat nofB) (b1 :: b2 :: restB))
                    = List.length (b1 :: b2 :: restB))%nat).
  { rewrite <- length_app, HsplitB. reflexivity. }
  assert (HlastB : forall b, endsWith (skipn (Z.to_nat nofB) (b1 :: b2 :: restB)) b ->
                             endsWith (elementB :: b1 :: b2 :: restB) b).
  { intros b Hb. apply endsWith_cons. eapply endsWith_skipn, Hb. }
  remember (firstn (Z.to_nat nofB) (b1 :: b2 :: restB)) as wonB eqn:EwB.
  remember (skipn (Z.to_nat nofB) (b1 :: b2 :: restB)) as temp' eqn:Et.
  assert (HwA : okAfter R (lastOf (Some (true, elementB)) true wonB) (false, nextA)).
  { apply okAfter_lastOf.
    - intros _. exact Hk2.
    - intros x Hx. apply Hj1, Hx. }
  rewrite <- HsplitB.
  assert (Hstart : forall runA merged,
            ZipAfter R (lastOf (Some (true, elementB)) true wonB) runA temp' merged ->
            ZipAfter R u (wonA ++ runA) (elementB :: wonB ++ temp')
                     (wonA ++ elementB :: wonB ++ merged)).
  { intros runA merged H.
    apply za_stretchA; [exact inOrderBack_same|exact HhW|].
    apply za_B; [exact HwB|].
    apply za_stretchB; [exact inOrderBack_same|intros y _; apply inOrderBack_same|].
    exact H. }
  destruct temp' as [|nextB afterB].
  { cbn [fst]. apply Hstart.
    apply za_restA; [exact inOrderBack_same|].
    intros a [= <-]. exact HwA. }
  specialize (Hj2 nextB eq_refl).
  destruct ((0 <? nofB) && (List.length afterB =? 0)%nat) eqn:Ecopy.
  { apply andb_true_iff in Ecopy as [Hpos Hafter].
    apply Nat.eqb_eq in Hafter. destruct afterB; [|discriminate]. cbn [fst].
    apply Hstart.
    apply za_AB; [exact inOrderBack_same| |].
    - intros a [= <-]. exact HwA.
    - intros b [= <-]. rewrite (lastOf_endsWith _ false _ _ HendA).
      apply Hlast; [apply HlastA, HendA|].
      apply HlastB. exists []. reflexivity. }
  destruct afterA as [|a2 afterA].
  { cbn [fst]. apply Hstart.
    apply za_A; [exact HwA|].
    apply za_restB; [exact inOrderBack_same|].
    intros b [= <-]. exact Hj2. }
  assert (HlenT : (2 <= List.length (nextB :: afterB))%nat).
  { destruct afterB as [|b3 afterB]; [|simpl; lia].
    exfalso. apply andb_false_iff in Ecopy as [Hz|Hz]; [|discriminate].
    apply Z.ltb_ge in Hz.
    replace (Z.to_nat nofB) with O in EwB by lia.
    simpl in EwB. rewrite EwB in HlenB'. simpl in HlenB'. lia. }
  assert (Hnext : forall g mg wA wB,
            ZipAfter R (Some (false, nextA)) (a2 :: afterA) (nextB :: afterB)
              (fst (mergeHighLoop comparefn fuel g mg wA wB
                                  (a2 :: afterA) (nextB :: afterB)))).
  { intros g mg wA wB. apply IH; try discriminate; try exact HlenT.
    - simpl in *. lia.
    - split; [intros a _; exact I|intros b [= <-]; exact Hj2].
    - intros a b Ha Hb. apply Hlast; [|apply HlastB, Hb].
      apply HlastA, endsWith_cons, Ha. }
  destruct ((kMinGallopWins <=? nofA) || (kMinGallopWins <=? nofB)).
  - destruct (mergeHighLoop comparefn fuel true (Z.max 1 (minGallop - 1)) nofA nofB
                            (a2 :: afterA) (nextB :: afterB)) as [merged g] eqn:M.
    cbn [fst]. apply Hstart. apply za_A; [exact HwA|].
    pose proof (Hnext true (Z.max 1 (minGallop - 1)) nofA nofB) as H.
    rewrite M in H. exact H.
  - destruct (mergeHighLoop comparefn fuel false (Z.max 1 (minGallop - 1) + 1) 0 0
                            (a2 :: afterA) (nextB :: afterB)) as [merged g] eqn:M.
    cbn [fst]. apply Hstart. apply za_A; [exact HwA|].
    pose proof (Hnext false (Z.max 1 (minGallop - 1) + 1) 0 0) as H.
    rewrite M in H. exact H.
Qed.

End MergeHigh.

End MergeHighFacts.

(** ** [MergeAt] *)

Module MergeAtFacts.

Import JsArray Merging SearchFacts ZipFacts MergeFacts MergeLowFacts MergeHighFacts.

(** *** Runs among the elements of a merged run *)

Section Tagged.

Context {A : Type}.

Lemma from_app (s : bool) (t1 t2 : list (bool * A)) :
  from s (t1 ++ t2) = (from s t1 ++ from s t2)%list.
Proof. unfold from. rewrite filter_app, map_app. reflexivity. Qed.

Lemma from_rev (s : bool) (t : list (bool * A)) :
  from s (rev t) = rev (from s t).
Proof.
  induction t as [|u t IH]; [reflexivity|].
  simpl. rewrite from_app, IH. unfold from at 2 3. simpl.
  destruct (Bool.eqb (fst u) s); simpl; [reflexivity|apply app_nil_r].
Qed.

Lemma from_own (s : bool) (l : list A) : from s (map (pair s) l) = l.
Proof.
  unfold from. induction l as [|x l IH]; simpl; [reflexivity|].
  rewrite eqb_reflx. simpl. f_equal. exact IH.
Qed.

Lemma from_other (s : bool) (l : list A) : from (negb s) (map (pair s) l) = [].
Proof.
  unfold from. induction l as [|x l IH]; simpl; [reflexivity|].
  destruct s; simpl; exact IH.
Qed.

Lemma snd_tagged (s : bool) (l : list A) : map snd (map (pair s) l) = l.
Proof. rewrite map_map. simpl. apply map_id. Qed.

Lemma from_hd (t : list (bool * A)) (s : bool) (x : A) :
  hd_error t = Some (s, x) -> hd_error (from s t) = Some x.
Proof.
  destruct t as [|u t]; [discriminate|]. intros [= ->].
  unfold from. simpl. rewrite eqb_reflx. reflexivity.
Qed.

Lemma from_last (t : list (bool * A)) (s : bool) (x : A) :
  endsWith t (s, x) -> endsWith (from s t) x.
Proof.
  intros [front ->]. rewrite from_app. apply endsWith_app.
  unfold from. simpl. rewrite eqb_reflx. exists []. reflexivity.
Qed.

Variable R : bool * A -> bool * A -> Prop.
Hypothesis same_run : forall s x y, R (s, x) (s, y).

Lemma Sorted_tagged (s : bool) (l : list A) : Sorted R (map (pair s) l).
Proof.
  induction l as [|x l IH]; simpl; [constructor|].
  constructor; [exact IH|]. destruct l; simpl; constructor. apply same_run.
Qed.

Lemma Sorted_app (t1 t2 : list (bool * A)) :
  Sorted R t1 -> Sorted R t2 ->
  (forall u v, endsWith t1 u -> hd_error t2 = Some v -> R u v) ->
  Sorted R (t1 ++ t2).
Proof.
  intros H1 H2 Hj. induction H1 as [|u t1 Ht1 IH Hu]; [exact H2|].
  simpl. constructor.
  - apply IH. intros x v Hx. apply Hj, endsWith_cons, Hx.
  - destruct t1 as [|w t1]; simpl.
    + destruct t2 as [|v t2]; constructor.
      apply Hj; [exists []; reflexivity|reflexivity].
    + constructor. inversion Hu. assumption.
Qed.

Lemma Sorted_rev (t : list (bool * A)) :
  Sorted (fun u v => R v u) t -> Sorted R (rev t).
Proof.
  induction 1 as [|u t Ht IH Hu]; [constructor|].
  simpl. apply Sorted_app; [exact IH|repeat constructor|].
  intros x v Hx [= <-].
  apply endsWith_rev in Hx. rewrite rev_involutive in Hx.
  destruct t as [|w t]; [discriminate|]. injection Hx as ->.
  inversion Hu. assumption.
Qed.

End Tagged.

Section MergeAt.

Context {A : Type}.
Variable comparefn : A -> A -> float.

Local Abbreviation before := (sortsBefore comparefn).
Local Abbreviation R := (inOrder before).

(** A merged run read from its end. *)
Lemma zip_back (runA runB merged : list A) :
  ZipAfter (inOrderBack comparefn) None runA runB merged ->
  Zip before (rev runA) (rev runB) (rev merged).
Proof.
  intros (t & Hs & <- & <- & <-). exists (rev t).
  split; [|split; [|split]].
  - apply Sorted_rev. exact Hs.
  - apply map_rev.
  - apply from_rev.
  - apply from_rev.
Qed.

(** Around a merged run: the elements of A that stay in front of it and
    those of B that stay behind it. *)
Lemma zip_frame (front runA runB back merged : list A) :
  Zip before runA runB merged ->
  runA <> [] \/ runB <> [] ->
  (forall x y, endsWith front x -> hd_error runB = Some y -> before y x = false) ->
  (forall x y, endsWith runA x -> hd_error back = Some y -> before y x = false) ->
  Zip before (front ++ runA) (runB ++ back) (front ++ merged ++ back).
Proof.
  intros (t & Hs & <- & <- & <-) Hne Hfront Hback.
  exists (map (pair false) front ++ t ++ map (pair true) back)%list.
  split; [|split; [|split]].
  - apply Sorted_app; [apply Sorted_tagged, inOrder_same| |].
    + apply Sorted_app; [exact Hs|apply Sorted_tagged, inOrder_same|].
      intros [s x] [s' y] Hx Hy.
      destruct back as [|y' back]; [discriminate|]. injection Hy as <- <-.
      destruct s; [exact I|].
      apply (Hback x y'); [apply (from_last _ _ _ Hx)|reflexivity].
    + intros [s x] [s' y] Hx Hy.
      assert (s = false /\ endsWith front x) as [-> Hfx].
      { destruct Hx as [f Hx]. destruct front as [|z front] using rev_ind.
        - destruct f; discriminate.
        - rewrite map_app in Hx. apply app_inj_tail in Hx as [_ [= <- <-]].
          split; [reflexivity|exists front; reflexivity]. }
      destruct t as [|v t].
      * exfalso. destruct Hne as [Hne|Hne]; apply Hne; reflexivity.
      * simpl in Hy. injection Hy as ->.
        destruct s'; [|exact I].
        apply (Hfront x y Hfx). apply (from_hd ((true, y) :: t)). reflexivity.
  - rewrite !map_app, !snd_tagged. reflexivity.
  - rewrite !from_app, from_own. change false with (negb true) at 2.
    rewrite from_other, app_nil_r. reflexivity.
  - rewrite !from_app, from_own. change true with (negb false) at 1.
    rewrite from_other. reflexivity.
Qed.

Local Abbreviation firstOK := (Merging.firstOK comparefn).

Lemma mergeLow_zip (minGallop : Z) (runA runB : list A) :
  runA <> [] -> firstOK runA runB -> lastOK comparefn runA runB ->
  Zip before runA runB (fst (mergeLow comparefn minGallop runA runB)).
Proof.
  intros HneA Hfirst Hlast. unfold mergeLow, Zip.
  destruct runB as [|elementB restB].
  { cbn [fst]. apply za_restA; [exact (inOrder_same comparefn)|]. intros x _. exact I. }
  destruct runA as [|elementA restA]; [contradiction|].
  assert (HE : before elementB elementA = true) by (apply Hfirst; reflexivity).
  destruct restB as [|b1 restB].
  { cbn [fst]. apply za_B; [exact I|].
    apply za_restA; [exact (inOrder_same comparefn)|].
    intros a [= <-]. exact HE. }
  destruct restA as [|a1 restA].
  { cbn [fst]. apply za_BA; [exact (inOrder_same comparefn)|intros b _; exact I|].
    intros a [= <-].
    assert (HendB : endsWith (elementB :: b1 :: restB)
                             (last (elementB :: b1 :: restB) elementB)).
    { exists (removelast (elementB :: b1 :: restB)).
      apply app_removelast_last. discriminate. }
    rewrite (lastOf_endsWith _ true _ _ HendB).
    apply Hlast; [exists []; reflexivity|exact HendB]. }
  destruct (mergeLowLoop comparefn
              (List.length (elementA :: a1 :: restA)
               + List.length (elementB :: b1 :: restB)) false minGallop 0 0
              (elementA :: a1 :: restA) (b1 :: restB)) as [merged g] eqn:M.
  cbn [fst]. apply za_B; [exact I|].
  pose proof (mergeLowLoop_zip comparefn
                (List.length (elementA :: a1 :: restA)
                 + List.length (elementB :: b1 :: restB)) false minGallop 0 0
                (elementA :: a1 :: restA) (b1 :: restB) (Some (true, elementB))) as H.
  rewrite M in H. apply H; try discriminate.
  - simpl. lia.
  - simpl. lia.
  - split; [intros a [= <-]; exact HE|intros b _; exact I].
  - intros a b Ha Hb. apply Hlast; [exact Ha|apply endsWith_cons, Hb].
Qed.

Lemma endsWith_last (l : list A) (d : A) : l <> [] -> endsWith l (last l d).
Proof.
  intros H. exists (removelast l). apply app_removelast_last, H.
Qed.

Lemma mergeHigh_zip (minGallop : Z) (runA runB : list A) :
  runA <> [] -> runB <> [] -> firstOK runA runB -> lastOK comparefn runA runB ->
  Zip before runA runB (fst (mergeHigh comparefn minGallop runA runB)).
Proof.
  intros HneA HneB Hfirst Hlast. unfold mergeHigh.
  destruct (rev runA) as [|elementA restA] eqn:Er.
  { exfalso. apply HneA. rewrite <- (rev_involutive runA), Er. reflexivity. }
  assert (HA : runA = (rev restA ++ [elementA])%list).
  { rewrite <- (rev_involutive runA), Er. reflexivity. }
  assert (HendA : endsWith runA elementA) by (exists (rev restA); exact HA).
  destruct runB as [|b0 runB']; [contradiction|].
  assert (HendB : endsWith (b0 :: runB') (last (b0 :: runB') b0))
    by (apply endsWith_last; discriminate).
  destruct restA as [|a1 restA].
  { cbn [fst]. apply za_BA; [exact (inOrder_same comparefn)|intros b _; exact I|].
    simpl in HA. subst runA.
    intros a [= <-]. rewrite (lastOf_endsWith _ true _ _ HendB).
    apply Hlast; [exact HendA|exact HendB]. }
  destruct runB' as [|b1 runB'].
  { cbn [fst]. apply za_BA; [exact (inOrder_same comparefn)|intros b _; exact I|].
    intros a Ha. apply (Hfirst a b0 Ha). reflexivity. }
  destruct (mergeHighLoop comparefn
              (List.length runA + List.length (b0 :: b1 :: runB')) false minGallop 0 0
              (a1 :: restA) (rev (b0 :: b1 :: runB'))) as [merged g] eqn:M.
  cbn [fst].
  rewrite <- (rev_involutive runA), Er, <- (rev_involutive (b0 :: b1 :: runB')).
  apply zip_back. apply za_A; [exact I|].
  pose proof (mergeHighLoop_zip comparefn
                (List.length runA + List.length (b0 :: b1 :: runB')) false minGallop 0 0
                (a1 :: restA) (rev (b0 :: b1 :: runB')) (Some (false, elementA))) as H.
  rewrite M in H. apply H; try discriminate.
  - rewrite length_rev, HA, length_app, length_rev. simpl. lia.
  - rewrite length_rev. simpl. lia.
  - split; [intros a _; exact I|].
    intros b Hb. apply endsWith_rev in Hb.
    apply (Hlast elementA b HendA Hb).
  - intros a b Ha Hb. apply Hfirst.
    + rewrite HA. apply endsWith_rev in Ha.
      destruct (rev (a1 :: restA)) as [|z r]; [discriminate|].
      simpl in *. exact Ha.
    + apply endsWith_rev in Hb. rewrite rev_involutive in Hb. exact Hb.
Qed.

(** [MergeAt] merges: its result holds the elements of both runs, each run
    in its order, and every two neighbours in order. *)
Lemma mergeAt_zip (minGallop : Z) (runA runB : list A) :
  Zip before runA runB (fst (mergeAt comparefn minGallop runA runB)).
Proof.
  unfold mergeAt.
  destruct runB as [|keyRight runB'].
  { cbn [fst]. apply za_restA; [exact (inOrder_same comparefn)|intros x _; exact I]. }
  destruct runA as [|a0 runA'].
  { destruct (Z.to_nat _); cbn [skipn rev fst app];
      (apply za_restB; [exact (inOrder_same comparefn)|intros x _; exact I]). }
  set (runA := a0 :: runA') in *. set (runB := keyRight :: runB') in *.
  pose proof (gallopRight_spec comparefn runA keyRight 0
                ltac:(unfold runA; cbn [List.length]; lia))
    as (Hk & Hk1 & Hk2).
  set (k := Z.to_nat (gallopRight comparefn runA keyRight 0)) in *.
  pose proof (firstn_skipn k runA) as HsplitA.
  destruct (rev (skipn k runA)) as [|keyLeft r] eqn:Er.
  { cbn [fst]. apply za_AB; [exact (inOrder_same comparefn)|intros x _; exact I|].
    intros b [= <-].
    assert (Hs : skipn k runA = []).
    { rewrite <- (rev_involutive (skipn k runA)), Er. reflexivity. }
    rewrite Hs, app_nil_r in HsplitA. rewrite HsplitA in Hk1.
    rewrite (lastOf_endsWith _ false runA (last runA a0))
      by (apply endsWith_last; discriminate).
    apply Hk1, endsWith_last. discriminate. }
  assert (HendA : endsWith (skipn k runA) keyLeft).
  { apply endsWith_rev. rewrite Er. reflexivity. }
  pose proof (gallopLeft_spec comparefn runB keyLeft (Z.of_nat (List.length runB) - 1)
                ltac:(unfold runB; cbn [List.length]; lia)) as (Hj & Hj1 & Hj2).
  set (lengthB := Z.to_nat (gallopLeft comparefn runB keyLeft
                                       (Z.of_nat (List.length runB) - 1))) in *.
  pose proof (firstn_skipn lengthB runB) as HsplitB.
  assert (HhdB : forall y, hd_error (firstn lengthB runB) = Some y -> y = keyRight).
  { intros y Hy. apply hd_firstn in Hy. injection Hy as <-. reflexivity. }
  destruct (firstn lengthB runB) as [|b0 restB] eqn:EB.
  { cbn [fst]. apply za_AB; [exact (inOrder_same comparefn)|intros x _; exact I|].
    intros b [= <-].
    rewrite (lastOf_endsWith _ false runA keyLeft) by (apply (endsWith_skipn k), HendA).
    apply Hj2. simpl in HsplitB. rewrite HsplitB. reflexivity. }
  assert (Hmerge : forall merged,
            Zip before (skipn k runA) (b0 :: restB) merged ->
            Zip before runA runB (firstn k runA ++ merged ++ skipn lengthB runB)).
  { intros merged H. rewrite <- HsplitA at 1. rewrite <- HsplitB at 1.
    apply zip_frame; [exact H|right; discriminate| |].
    - intros x y Hx [= <-]. rewrite (HhdB b0 eq_refl). apply Hk1, Hx.
    - intros x y Hx Hy.
      assert (x = keyLeft) as ->.
      { destruct HendA as [f1 H1]. destruct Hx as [f2 H2].
        rewrite H1 in H2. apply app_inj_tail in H2 as [_ H2]. symmetry. exact H2. }
      apply Hj2, Hy. }
  assert (HneA : skipn k runA <> []).
  { intros H0. rewrite H0 in Er. discriminate. }
  assert (Hfirst : firstOK (skipn k runA) (b0 :: restB)).
  { intros a b Ha [= <-]. rewrite (HhdB b0 eq_refl). apply Hk2, Ha. }
  assert (Hlast : lastOK comparefn (skipn k runA) (b0 :: restB)).
  { intros a b Ha Hb.
    assert (a = keyLeft) as ->.
    { destruct HendA as [f1 H1]. destruct Ha as [f2 H2].
      rewrite H1 in H2. apply app_inj_tail in H2 as [_ H2]. symmetry. exact H2. }
    apply Hj1. exact Hb. }
  destruct (List.length (skipn k runA) <=? List.length (b0 :: restB))%nat.
  - destruct (mergeLow comparefn minGallop (skipn k runA) (b0 :: restB))
      as [merged g] eqn:M.
    cbn [fst]. apply Hmerge.
    pose proof (mergeLow_zip minGallop _ _ HneA Hfirst Hlast) as H.
    rewrite M in H. exact H.
  - destruct (mergeHigh comparefn minGallop (skipn k runA) (b0 :: restB))
      as [merged g] eqn:M.
    cbn [fst]. apply Hmerge.
    pose proof (mergeHigh_zip minGallop (skipn k runA) (b0 :: restB) HneA
                  ltac:(discriminate) Hfirst Hlast) as H.
    rewrite M in H. exact H.
Qed.

End MergeAt.

End MergeAtFacts.

(** ** What a merge keeps *)

Module ZipUse.

Import JsArray Merging ZipFacts MergeFacts MergeAtFacts.

Section Use.

Context {A : Type}.
Variable before : A -> A -> bool.

Local Abbreviation R := (inOrder before).

Lemma in_merged (t : list (bool * A)) (x : A) :
  In x (map snd t) <-> In x (from false t) \/ In x (from true t).
Proof.
  unfold from. induction t as [|[[] y] t IH]; simpl.
  - tauto.
  - rewrite IH. tauto.
  - rewrite IH. tauto.
Qed.

Lemma filter_nothing (P : A -> bool) (l : list A) :
  (forall x, In x l -> P x = false) -> filter P l = [].
Proof.
  induction l as [|x l IH]; intros H; simpl; [reflexivity|].
  rewrite (H x) by (left; reflexivity). apply IH.
  intros y Hy. apply H. right. exact Hy.
Qed.

(** The merged run holds the elements of both runs. *)
Lemma zip_Permutation (runA runB merged : list A) :
  Zip before runA runB merged -> Permutation merged (runA ++ runB).
Proof.
  intros (t & _ & <- & <- & <-). unfold from.
  induction t as [|[[] x] t IH]; simpl.
  - constructor.
  - apply Permutation_cons_app. exact IH.
  - constructor. exact IH.
Qed.

(** Looking ahead in a merged run: the first element of run A that comes
    after elements of B comes after one that sorts before it, and the first
    of B after elements of A comes after one it does not sort before. *)
Lemma ahead_A (t : list (bool * A)) (y a : A) :
  Sorted R ((true, y) :: t) -> hd_error (from false t) = Some a ->
  exists y', In y' (y :: from true t) /\ before y' a = true.
Proof.
  revert y. induction t as [|[[] z] t IH]; intros y Hs Ha.
  - discriminate.
  - apply Sorted_inv in Hs as [Hs _].
    destruct (IH z Hs Ha) as (y' & Hy' & Hb).
    exists y'. split; [right; exact Hy'|exact Hb].
  - apply Sorted_inv in Hs as [_ Hh]. apply HdRel_inv in Hh.
    unfold from in Ha. simpl in Ha. injection Ha as <-.
    exists y. split; [left; reflexivity|exact Hh].
Qed.

Lemma ahead_B (t : list (bool * A)) (x b : A) :
  Sorted R ((false, x) :: t) -> hd_error (from true t) = Some b ->
  exists x', In x' (x :: from false t) /\ before b x' = false.
Proof.
  revert x. induction t as [|[[] z] t IH]; intros x Hs Hb.
  - discriminate.
  - apply Sorted_inv in Hs as [_ Hh]. apply HdRel_inv in Hh.
    unfold from in Hb. simpl in Hb. injection Hb as <-.
    exists x. split; [left; reflexivity|exact Hh].
  - apply Sorted_inv in Hs as [Hs _].
    destruct (IH z Hs Hb) as (x' & Hx' & Hbx).
    exists x'. split; [right; exact Hx'|exact Hbx].
Qed.

(** *** A class that sorts last *)

Section Marked.

Variable N : A -> bool.
Hypothesis N_never_before : forall x e, N x = true -> before x e = false.
Hypothesis others_before_N :
  forall x e, N x = false -> N e = true -> before x e = true.

Local Abbreviation markedLast := (Order.markedLast N).

Lemma markedLast_hd (l : list A) (x : A) :
  markedLast l = true -> hd_error l = Some x -> N x = true -> forallb N l = true.
Proof.
  destruct l as [|y l]; [discriminate|]. intros H [= ->] Nx.
  simpl in *. rewrite Nx in *. exact H.
Qed.

Lemma markedLast_all (l : list A) : forallb N l = true -> markedLast l = true.
Proof.
  induction l as [|x l IH]; simpl; [reflexivity|].
  intros H. apply andb_true_iff in H as [-> H]. exact H.
Qed.

Lemma markedLast_some (l : list A) :
  markedLast l = true -> forallb N l = false ->
  exists x, hd_error l = Some x /\ N x = false.
Proof.
  destruct l as [|x l]; [discriminate|]. simpl.
  destruct (N x) eqn:Nx.
  - simpl. congruence.
  - intros _ _. exists x. split; [reflexivity|exact Nx].
Qed.

Lemma zip_marked_tagged (t : list (bool * A)) :
  Sorted R t ->
  markedLast (from false t) = true -> markedLast (from true t) = true ->
  markedLast (map snd t) = true
  /\ filter N (map snd t) = (filter N (from false t) ++ filter N (from true t))%list.
Proof.
  induction t as [|[s x] t IH]; intros Hs HA HB; [split; reflexivity|].
  pose proof Hs as Hs0. apply Sorted_inv in Hs as [Hs _].
  assert (Hall : forall l, forallb N l = true -> forall z, In z l -> N z = true).
  { intros l Hl. apply forallb_forall, Hl. }
  destruct s.
  - (* from run B *)
    assert (EA : from false ((true, x) :: t) = from false t) by reflexivity.
    assert (EB : from true ((true, x) :: t) = x :: from true t) by reflexivity.
    rewrite EA, EB in *. simpl in HB. simpl map. simpl.
    destruct (N x) eqn:Nx.
    + assert (Hnil : from false t = []).
      { destruct (from false t) as [|a l] eqn:Ea; [reflexivity|exfalso].
        destruct (ahead_A t x a Hs0) as (y' & Hy' & Hb); [rewrite Ea; reflexivity|].
        rewrite N_never_before in Hb; [discriminate|].
        destruct Hy' as [<-|Hy']; [exact Nx|]. apply (Hall _ HB), Hy'. }
      destruct (IH Hs) as [IH1 IH2]; [exact HA|apply markedLast_all, HB|].
      rewrite IH2, Hnil. simpl. split; [|reflexivity].
      apply forallb_forall. intros z Hz. apply in_merged in Hz.
      rewrite Hnil in Hz. destruct Hz as [[]|Hz]. apply (Hall _ HB), Hz.
    + destruct (IH Hs HA HB) as [IH1 IH2]. split; [exact IH1|exact IH2].
  - (* from run A *)
    assert (EA : from false ((false, x) :: t) = x :: from false t) by reflexivity.
    assert (EB : from true ((false, x) :: t) = from true t) by reflexivity.
    rewrite EA, EB in *. simpl in HA. simpl map. simpl.
    destruct (N x) eqn:Nx.
    + assert (HallB : forallb N (from true t) = true).
      { destruct (forallb N (from true t)) eqn:Ef; [reflexivity|exfalso].
        destruct (markedLast_some _ HB Ef) as (b & Hb & Nb).
        destruct (ahead_B t x b Hs0 Hb) as (x' & Hx' & Hbx).
        rewrite others_before_N in Hbx; [discriminate|exact Nb|].
        destruct Hx' as [<-|Hx']; [exact Nx|]. apply (Hall _ HA), Hx'. }
      destruct (IH Hs) as [IH1 IH2]; [apply markedLast_all, HA|exact HB|].
      rewrite IH2. split; [|reflexivity].
      apply forallb_forall. intros z Hz. apply in_merged in Hz.
      destruct Hz as [Hz|Hz]; [apply (Hall _ HA), Hz|apply (Hall _ HallB), Hz].
    + destruct (IH Hs HA HB) as [IH1 IH2]. split; [exact IH1|exact IH2].
Qed.

(** Merging keeps the marked elements last, those of run A before those
    of run B. *)
Lemma zip_marked (runA runB merged : list A) :
  Zip before runA runB merged ->
  markedLast runA = true -> markedLast runB = true ->
  markedLast merged = true
  /\ filter N merged = (filter N runA ++ filter N runB)%list.
Proof.
  intros (t & Hs & <- & <- & <-). apply zip_marked_tagged, Hs.
Qed.

End Marked.

(** *** Elements that the comparison orders *)

Section Ordered.

Variable S : A -> Prop.
Hypothesis orders : Order.ordersOn before S.

Local Abbreviation ordered := (Order.ordered before).
Local Abbreviation level := (Order.level before).

Lemma ordered_inv (x : A) (l : list A) :
  ordered (x :: l) -> ordered l /\ forall y, In y l -> before y x = false.
Proof.
  intros H. apply StronglySorted_inv in H as [H1 H2].
  split; [exact H1|]. apply Forall_forall, H2.
Qed.

Lemma zip_ordered_tagged (t : list (bool * A)) :
  Sorted R t -> Forall S (map snd t) ->
  ordered (from false t) -> ordered (from true t) ->
  ordered (map snd t)
  /\ forall x, S x ->
       filter (level x) (map snd t)
       = (filter (level x) (from false t) ++ filter (level x) (from true t))%list.
Proof.
  destruct orders as [Hasym Hnt].
  induction t as [|[s e] t IH]; intros Hs HS HA HB.
  { split; [constructor|reflexivity]. }
  pose proof Hs as Hs0. apply Sorted_inv in Hs as [Hs _].
  simpl in HS. apply Forall_cons_iff in HS as [Se HS].
  assert (HSin : forall z, In z (map snd t) -> S z) by (apply Forall_forall, HS).
  assert (HSA : forall z, In z (from false t) -> S z).
  { intros z Hz. apply HSin, in_merged. left. exact Hz. }
  assert (HSB : forall z, In z (from true t) -> S z).
  { intros z Hz. apply HSin, in_merged. right. exact Hz. }
  destruct s.
  - (* from run B *)
    assert (EA : from false ((true, e) :: t) = from false t) by reflexivity.
    assert (EB : from true ((true, e) :: t) = e :: from true t) by reflexivity.
    rewrite EA, EB in *. apply ordered_inv in HB as [HB HBe].
    destruct (IH Hs HS HA HB) as [IH1 IH2].
    assert (HK : forall a, In a (from false t) -> before e a = true).
    { destruct (from false t) as [|a1 l] eqn:Ea; [intros a []|].
      destruct (ahead_A t e a1 Hs0) as (y' & Hy' & Hb); [rewrite Ea; reflexivity|].
      assert (Sa1 : S a1) by (apply HSA; rewrite ?Ea; left; reflexivity).
      assert (H1 : before e a1 = true).
      { destruct Hy' as [<-|Hy']; [exact Hb|].
        destruct (before e a1) eqn:E; [reflexivity|].
        rewrite (Hnt y' e a1) in Hb; auto. }
      apply ordered_inv in HA as [_ HA1].
      intros a [<-|Ha]; [exact H1|].
      destruct (before e a) eqn:E; [reflexivity|].
      assert (Sa : S a) by (apply HSA; rewrite ?Ea; right; exact Ha).
      rewrite (Hnt e a a1) in H1; auto. }
    split.
    + simpl. constructor; [exact IH1|].
      apply Forall_forall. intros z Hz. apply in_merged in Hz.
      destruct Hz as [Hz|Hz]; [|apply HBe, Hz].
      apply Hasym; auto.
    + intros x Sx. simpl. rewrite IH2 by exact Sx.
      destruct (level x e) eqn:Le; [|reflexivity].
      replace (filter (level x) (from false t)) with (@nil A); [reflexivity|].
      symmetry. apply filter_nothing. intros a Ha.
      destruct (level x a) eqn:La; [exfalso|reflexivity].
      unfold Order.level in Le, La.
      apply andb_true_iff in Le as [_ Le]. apply negb_true_iff in Le.
      apply andb_true_iff in La as [La _]. apply negb_true_iff in La.
      pose proof (HK a Ha) as Hb.
      rewrite (Hnt e x a) in Hb; auto. discriminate.
  - (* from run A *)
    assert (EA : from false ((false, e) :: t) = e :: from false t) by reflexivity.
    assert (EB : from true ((false, e) :: t) = from true t) by reflexivity.
    rewrite EA, EB in *. apply ordered_inv in HA as [HA HAe].
    destruct (IH Hs HS HA HB) as [IH1 IH2].
    assert (HK : forall b, In b (from true t) -> before b e = false).
    { destruct (from true t) as [|b1 l] eqn:Eb; [intros b []|].
      destruct (ahead_B t e b1 Hs0) as (x' & Hx' & Hb); [rewrite ?Eb; reflexivity|].
      assert (Sb1 : S b1) by (apply HSB; rewrite ?Eb; left; reflexivity).
      assert (H1 : before b1 e = false).
      { destruct Hx' as [<-|Hx']; [exact Hb|].
        apply (Hnt b1 x' e); auto. }
      apply ordered_inv in HB as [_ HB1].
      intros b [<-|Hb']; [exact H1|].
      assert (Sb : S b) by (apply HSB; rewrite ?Eb; right; exact Hb').
      apply (Hnt b b1 e); auto. }
    split.
    + simpl. constructor; [exact IH1|].
      apply Forall_forall. intros z Hz. apply in_merged in Hz.
      destruct Hz as [Hz|Hz]; [apply HAe, Hz|apply HK, Hz].
    + intros x Sx. simpl. rewrite IH2 by exact Sx.
      destruct (level x e); reflexivity.
Qed.

(** Merging two runs that are in order gives a run in order, in which the
    elements of one level stand as in run A and then as in run B. *)
Lemma zip_ordered (runA runB merged : list A) :
  Zip before runA runB merged ->
  Forall S runA -> Forall S runB ->
  ordered runA -> ordered runB ->
  ordered merged
  /\ forall x, S x ->
       filter (level x) merged
       = (filter (level x) runA ++ filter (level x) runB)%list.
Proof.
  intros (t & Hs & <- & <- & <-) SA SB. apply zip_ordered_tagged; [exact Hs|].
  apply Forall_forall. intros z Hz. apply in_merged in Hz.
  rewrite Forall_forall in SA, SB. destruct Hz; auto.
Qed.

End Ordered.

End Use.

End ZipUse.

(** ** Runs and the loop of the sort *)

Module RunFacts.

Import JsArray Merging SearchFacts ZipFacts MergeFacts MergeLowFacts MergeAtFacts ZipUse.

Section Runs.

Context {A : Type}.
Variable comparefn : A -> A -> float.

Local Abbreviation before := (sortsBefore comparefn).

(** *** Binary insertion *)

(** A round of [BinaryInsertionSort] merges the run with the one element
    that follows it. *)
Lemma binaryInsert_zip (run : list A) (pivot : A) :
  Zip before run [pivot] (binaryInsert comparefn run pivot).
Proof.
  unfold binaryInsert.
  destruct (bisect_boundary (fun mid => negb (before pivot (item run pivot mid)))
              (List.length run) (Z.of_nat (List.length run))
              0 (Z.of_nat (List.length run)))
    as (Hk & Hlo & Hhi); try lia; auto.
  set (left := bisect _ _ _ _) in *.
  rewrite <- (firstn_skipn (Z.to_nat left) run) at 1.
  apply za_stretchA; [exact (inOrder_same comparefn)|intros x _; exact I|].
  apply za_B.
  - apply okAfter_lastOf; [intros _; exact I|].
    intros x Hx. destruct Hlo as [E|Hlo].
    + rewrite E in Hx. destruct Hx as [front Hx]. destruct front; discriminate.
    + assert (0 < left).
      { destruct (Z.eq_dec left 0) as [E|]; [|lia]. rewrite E in Hx.
        destruct Hx as [front Hx]. destruct front; discriminate. }
      rewrite (firstn_item run pivot left) in Hx by lia.
      destruct Hx as [front Hx]. apply app_inj_tail in Hx as [_ <-].
      apply negb_true_iff, Hlo.
  - apply za_restA; [exact (inOrder_same comparefn)|].
    intros x Hx. destruct Hhi as [E|Hhi].
    + rewrite E, Nat2Z.id, skipn_all in Hx. discriminate.
    + assert (left < Z.of_nat (List.length run)).
      { destruct (Z.eq_dec left (Z.of_nat (List.length run))) as [E|]; [|lia].
        rewrite E, Nat2Z.id, skipn_all in Hx. discriminate. }
      rewrite (skipn_item run pivot left) in Hx by lia.
      injection Hx as <-. apply negb_false_iff, Hhi.
Qed.

(** *** The run the array starts with *)

Lemma runRest_chain (isDescending : bool) (previousElement : A) (l : list A) :
  (runRest comparefn isDescending previousElement l <= List.length l)%nat
  /\ Sorted (fun x y => before y x = isDescending)
            (previousElement
               :: firstn (runRest comparefn isDescending previousElement l) l).
Proof.
  revert previousElement. induction l as [|current rest IH]; intros previous; simpl.
  - split; [lia|repeat constructor].
  - destruct (Bool.eqb (before current previous) isDescending) eqn:E.
    + destruct (IH current) as [Hn Hs]. simpl. split; [lia|].
      constructor; [exact Hs|]. constructor. apply eqb_prop, E.
    + simpl. split; [lia|repeat constructor].
Qed.

(** [CountAndMakeRun] cuts the array in two: a stretch in which no element
    sorts before the one in front of it, or in which every element does and
    which comes out reversed, and the rest. *)
Lemma countAndMakeRun_spec (l : list A) :
  exists stretch,
    l = (stretch ++ snd (countAndMakeRun comparefn l))%list
    /\ (l <> [] -> stretch <> [])
    /\ ((fst (countAndMakeRun comparefn l) = stretch
         /\ Sorted (fun x y => before y x = false) stretch)
        \/ (fst (countAndMakeRun comparefn l) = rev stretch
            /\ Sorted (fun x y => before y x = true) stretch)).
Proof.
  destruct l as [|elementHigh [|elementLow rest]].
  - exists []. split; [reflexivity|]. split; [auto|].
    left. split; [reflexivity|constructor].
  - exists [elementHigh]. split; [reflexivity|]. split; [discriminate|].
    left. split; [reflexivity|repeat constructor].
  - unfold countAndMakeRun.
    set (isDescending := before elementLow elementHigh).
    destruct (runRest_chain isDescending elementLow rest) as [Hn Hs].
    set (n := runRest comparefn isDescending elementLow rest) in *.
    exists (firstn (S (S n)) (elementHigh :: elementLow :: rest)).
    cbn [fst snd]. split; [symmetry; apply firstn_skipn|].
    split; [discriminate|].
    assert (Hc : Sorted (fun x y => before y x = isDescending)
                        (firstn (S (S n)) (elementHigh :: elementLow :: rest))).
    { simpl. constructor; [exact Hs|]. constructor. reflexivity. }
    destruct isDescending; [right|left]; (split; [reflexivity|exact Hc]).
Qed.

(** *** The loop of the sort *)

Section Loop.

(** [Q] is what holds of every run, [E] what holds between the array
    before and after a step, [S] what holds of the elements. *)
Variable Q : list A -> Prop.
Variable E : list A -> list A -> Prop.
Variable S : A -> Prop.

Hypothesis E_refl : forall a, E a a.
Hypothesis E_trans : forall a b c, E a b -> E b c -> E a c.
Hypothesis E_app : forall a a' b b', E a a' -> E b b' -> E (a ++ b) (a' ++ b').
Hypothesis E_Permutation : forall a b, E a b -> Permutation a b.

Hypothesis run_found :
  forall l, Forall S l -> l <> [] ->
    Q (fst (countAndMakeRun comparefn l))
    /\ E (fst (countAndMakeRun comparefn l) ++ snd (countAndMakeRun comparefn l)) l.
Hypothesis inserted :
  forall run pivot, Forall S run -> S pivot -> Q run ->
    Q (binaryInsert comparefn run pivot)
    /\ E (binaryInsert comparefn run pivot) (run ++ [pivot]).
Hypothesis merged :
  forall g a b, Forall S a -> Forall S b -> Q a -> Q b ->
    Q (fst (mergeAt comparefn g a b))
    /\ E (fst (mergeAt comparefn g a b)) (a ++ b).

Lemma E_Forall (a b : list A) : E a b -> Forall S b -> Forall S a.
Proof.
  intros H. apply Permutation_Forall, Permutation_sym, E_Permutation, H.
Qed.

Lemma binaryInsertionSort_inv (more run : list A) :
  Forall S run -> Forall S more -> Q run ->
  Q (binaryInsertionSort comparefn run more)
  /\ E (binaryInsertionSort comparefn run more) (run ++ more).
Proof.
  unfold binaryInsertionSort. revert run.
  induction more as [|pivot more IH]; intros run Sr Sm Qr; simpl.
  - rewrite app_nil_r. split; [exact Qr|apply E_refl].
  - apply Forall_cons_iff in Sm as [Sp Sm].
    destruct (inserted run pivot Sr Sp Qr) as [Qi Ei].
    destruct (IH (binaryInsert comparefn run pivot)) as [Q' E']; auto.
    { apply (E_Forall _ _ Ei). apply Forall_app. split; [exact Sr|].
      constructor; [exact Sp|constructor]. }
    split; [exact Q'|].
    apply (E_trans _ _ _ E').
    change (pivot :: more) with ([pivot] ++ more)%list. rewrite app_assoc.
    apply E_app; [exact Ei|apply E_refl].
Qed.

Local Abbreviation goodRuns := (Merging.goodRuns Q S).

Local Abbreviation held := (@Merging.held A).

Lemma held_cons (run : list A) (pendingRuns : list (list A)) :
  held (run :: pendingRuns) = (held pendingRuns ++ run)%list.
Proof.
  unfold held. simpl. rewrite concat_app. simpl. rewrite app_nil_r. reflexivity.
Qed.

Lemma merged_good (g : Z) (a b : list A) :
  (Q a /\ Forall S a) -> (Q b /\ Forall S b) ->
  (Q (fst (mergeAt comparefn g a b)) /\ Forall S (fst (mergeAt comparefn g a b)))
  /\ E (fst (mergeAt comparefn g a b)) (a ++ b).
Proof.
  intros [Qa Sa] [Qb Sb]. destruct (merged g a b Sa Sb Qa Qb) as [Qm Em].
  split; [split; [exact Qm|]|exact Em].
  apply (E_Forall _ _ Em). apply Forall_app. split; assumption.
Qed.

(** Merging the last two runs, or the two before the last. *)
Lemma merge_top (g : Z) (x y : list A) (below : list (list A)) :
  goodRuns (x :: y :: below) ->
  goodRuns (fst (mergeAt comparefn g y x) :: below)
  /\ E (held (fst (mergeAt comparefn g y x) :: below)) (held (x :: y :: below)).
Proof.
  intros H. inversion H as [|? ? Hx H']; subst. inversion H' as [|? ? Hy Hb]; subst.
  destruct (merged_good g y x Hy Hx) as [Hm Em].
  split; [constructor; assumption|].
  rewrite !held_cons, <- app_assoc. apply E_app; [apply E_refl|exact Em].
Qed.

Lemma merge_under (g : Z) (x y z : list A) (lower : list (list A)) :
  goodRuns (x :: y :: z :: lower) ->
  goodRuns (x :: fst (mergeAt comparefn g z y) :: lower)
  /\ E (held (x :: fst (mergeAt comparefn g z y) :: lower))
       (held (x :: y :: z :: lower)).
Proof.
  intros H. inversion H as [|? ? Hx H']; subst. inversion H' as [|? ? Hy H'']; subst.
  inversion H'' as [|? ? Hz Hl]; subst.
  destruct (merged_good g z y Hz Hy) as [Hm Em].
  split; [constructor; [assumption|constructor; assumption]|].
  rewrite !held_cons, <- !app_assoc. apply E_app; [apply E_refl|].
  rewrite app_assoc. apply E_app; [exact Em|apply E_refl].
Qed.

Lemma mergeCollapse_inv (fuel : nat) :
  forall (g : Z) (pendingRuns : list (list A)),
    goodRuns pendingRuns ->
    goodRuns (fst (mergeCollapse comparefn fuel g pendingRuns))
    /\ E (held (fst (mergeCollapse comparefn fuel g pendingRuns))) (held pendingRuns)
    /\ (pendingRuns <> [] -> fst (mergeCollapse comparefn fuel g pendingRuns) <> []).
Proof.
  induction fuel as [|fuel IH]; intros g pendingRuns Hg.
  { simpl. split; [exact Hg|split; [apply E_refl|auto]]. }
  assert (Hstay : goodRuns pendingRuns /\ E (held pendingRuns) (held pendingRuns)
                  /\ (pendingRuns <> [] -> pendingRuns <> [])).
  { split; [exact Hg|split; [apply E_refl|auto]]. }
  assert (Htop : forall x y below, pendingRuns = x :: y :: below ->
            goodRuns (fst (let '(m, g') := mergeAt comparefn g y x in
                           mergeCollapse comparefn fuel g' (m :: below)))
            /\ E (held (fst (let '(m, g') := mergeAt comparefn g y x in
                             mergeCollapse comparefn fuel g' (m :: below))))
                 (held pendingRuns)
            /\ (pendingRuns <> [] ->
                fst (let '(m, g') := mergeAt comparefn g y x in
                     mergeCollapse comparefn fuel g' (m :: below)) <> [])).
  { intros x y below ->.
    destruct (merge_top g x y below Hg) as [Hg' He'].
    destruct (mergeAt comparefn g y x) as [m g'] eqn:M. cbn [fst] in *.
    destruct (IH g' (m :: below) Hg') as (H1 & H2 & H3).
    split; [exact H1|split; [exact (E_trans _ _ _ H2 He')|]].
    intros _. apply H3. discriminate. }
  assert (Hunder : forall x y z lower, pendingRuns = x :: y :: z :: lower ->
            goodRuns (fst (let '(m, g') := mergeAt comparefn g z y in
                           mergeCollapse comparefn fuel g' (x :: m :: lower)))
            /\ E (held (fst (let '(m, g') := mergeAt comparefn g z y in
                             mergeCollapse comparefn fuel g' (x :: m :: lower))))
                 (held pendingRuns)
            /\ (pendingRuns <> [] ->
                fst (let '(m, g') := mergeAt comparefn g z y in
                     mergeCollapse comparefn fuel g' (x :: m :: lower)) <> [])).
  { intros x y z lower ->.
    destruct (merge_under g x y z lower Hg) as [Hg' He'].
    destruct (mergeAt comparefn g z y) as [m g'] eqn:M. cbn [fst] in *.
    destruct (IH g' (x :: m :: lower) Hg') as (H1 & H2 & H3).
    split; [exact H1|split; [exact (E_trans _ _ _ H2 He')|]].
    intros _. apply H3. discriminate. }
  cbn [mergeCollapse].
  destruct pendingRuns as [|x [|y below]]; try exact Hstay.
  destruct below as [|z lower].
  - cbn [negb orb]. destruct (List.length y <=? List.length x)%nat.
    + apply (Htop x y []). reflexivity.
    + exact Hstay.
  - match goal with
    | |- context [if ?c then _ else if _ then _ else _] => destruct c
    end.
    + destruct (List.length z <? List.length x)%nat.
      * apply (Hunder x y z lower). reflexivity.
      * apply (Htop x y (z :: lower)). reflexivity.
    + destruct (List.length y <=? List.length x)%nat.
      * apply (Htop x y (z :: lower)). reflexivity.
      * exact Hstay.
Qed.

Lemma held_nil : held [] = [].
Proof. reflexivity. Qed.

Lemma mergeForceCollapse_inv (fuel : nat) :
  forall (g : Z) (pendingRuns : list (list A)),
    goodRuns pendingRuns -> pendingRuns <> [] ->
    (List.length pendingRuns <= fuel)%nat ->
    Q (mergeForceCollapse comparefn fuel g pendingRuns)
    /\ E (mergeForceCollapse comparefn fuel g pendingRuns) (held pendingRuns).
Proof.
  induction fuel as [|fuel IH]; intros g pendingRuns Hg Hne Hf.
  { destruct pendingRuns; [contradiction|simpl in Hf; lia]. }
  assert (Htop : forall x y below, pendingRuns = x :: y :: below ->
            Q (let '(m, g') := mergeAt comparefn g y x in
               mergeForceCollapse comparefn fuel g' (m :: below))
            /\ E (let '(m, g') := mergeAt comparefn g y x in
                  mergeForceCollapse comparefn fuel g' (m :: below))
                 (held pendingRuns)).
  { intros x y below ->.
    destruct (merge_top g x y below Hg) as [Hg' He'].
    destruct (mergeAt comparefn g y x) as [m g'] eqn:M. cbn [fst] in *.
    destruct (IH g' (m :: below) Hg') as (H1 & H2);
      [discriminate|simpl in *; lia|].
    split; [exact H1|exact (E_trans _ _ _ H2 He')]. }
  cbn [mergeForceCollapse].
  destruct pendingRuns as [|x [|y below]]; [contradiction| |].
  - inversion Hg as [|? ? [Qx _] _]; subst.
    split; [exact Qx|]. rewrite held_cons, held_nil. apply E_refl.
  - destruct below as [|z lower]; [apply (Htop x y []); reflexivity|].
    destruct (List.length z <? List.length x)%nat;
      [|apply (Htop x y (z :: lower)); reflexivity].
    destruct (merge_under g x y z lower Hg) as [Hg' He'].
    destruct (mergeAt comparefn g z y) as [m g'] eqn:M. cbn [fst] in *.
    destruct (IH g' (x :: m :: lower) Hg') as (H1 & H2);
      [discriminate|simpl in *; lia|].
    split; [exact H1|exact (E_trans _ _ _ H2 He')].
Qed.

Lemma timSortLoop_inv (fuel : nat) :
  forall (minRunLength : nat) (g : Z) (pendingRuns : list (list A))
         (remaining : list A),
    goodRuns pendingRuns -> Forall S remaining ->
    pendingRuns <> [] \/ remaining <> [] ->
    (List.length remaining < fuel)%nat ->
    Q (timSortLoop comparefn fuel minRunLength g pendingRuns remaining)
    /\ E (timSortLoop comparefn fuel minRunLength g pendingRuns remaining)
         (held pendingRuns ++ remaining).
Proof.
  induction fuel as [|fuel IH]; intros minRunLength g pendingRuns remaining
                                       Hg Sr Hne Hf; [lia|].
  cbn [timSortLoop].
  destruct remaining as [|r0 remaining'].
  { destruct Hne as [Hne|Hne]; [|contradiction].
    rewrite app_nil_r. apply mergeForceCollapse_inv; auto. }
  set (remaining := r0 :: remaining') in *.
  destruct (run_found remaining Sr ltac:(discriminate)) as [Qrun Erun].
  destruct (countAndMakeRun_spec remaining) as (stretch & Hcut & Hstretch & _).
  destruct (countAndMakeRun comparefn remaining) as [run rest] eqn:C.
  cbn [fst snd] in *.
  set (forced := (Nat.min minRunLength (List.length remaining) - List.length run)%nat).
  pose proof (E_Forall _ _ Erun Sr) as Srr.
  apply Forall_app in Srr as [Srun Srest].
  assert (Sfirst : Forall S (firstn forced rest)).
  { rewrite <- (firstn_skipn forced rest) in Srest.
    apply Forall_app in Srest as [H _]. exact H. }
  assert (Sskip : Forall S (skipn forced rest)).
  { rewrite <- (firstn_skipn forced rest) in Srest.
    apply Forall_app in Srest as [_ H]. exact H. }
  destruct (binaryInsertionSort_inv (firstn forced rest) run Srun Sfirst Qrun)
    as [Qins Eins].
  set (run' := binaryInsertionSort comparefn run (firstn forced rest)) in *.
  assert (Hg' : goodRuns (run' :: pendingRuns)).
  { constructor; [split; [exact Qins|]|exact Hg].
    apply (E_Forall _ _ Eins). apply Forall_app. split; assumption. }
  destruct (mergeCollapse_inv (Datatypes.S (List.length pendingRuns)) g
                              (run' :: pendingRuns) Hg') as (Hg'' & Ec & Hnec).
  destruct (mergeCollapse comparefn (Datatypes.S (List.length pendingRuns)) g
                          (run' :: pendingRuns)) as [pendingRuns' g'] eqn:MC.
  cbn [fst] in *.
  destruct (IH minRunLength g' pendingRuns' (skipn forced rest) Hg'' Sskip)
    as [Qres Eres].
  { left. apply Hnec. discriminate. }
  { assert (Hl : (List.length rest < List.length remaining)%nat).
    { rewrite Hcut, length_app.
      destruct stretch; [exfalso; apply Hstretch; [discriminate|reflexivity]|].
      simpl. lia. }
    rewrite length_skipn. lia. }
  split; [exact Qres|].
  apply (E_trans _ _ _ Eres).
  apply (E_trans _ (held (run' :: pendingRuns) ++ skipn forced rest)).
  { apply E_app; [exact Ec|apply E_refl]. }
  rewrite held_cons, <- app_assoc. apply E_app; [apply E_refl|].
  apply (E_trans _ ((run ++ firstn forced rest) ++ skipn forced rest)).
  { apply E_app; [exact Eins|apply E_refl]. }
  rewrite <- app_assoc, firstn_skipn. exact Erun.
Qed.

(** What holds of every run holds of the sorted array, and what holds
    between the array before and after a step holds between the sorted
    array and the array. *)
Lemma sort_inv (l : list A) :
  Forall S l -> (2 <= List.length l)%nat ->
  Q (sort comparefn l) /\ E (sort comparefn l) l.
Proof.
  intros Sl Hl. unfold sort.
  destruct (Nat.ltb_spec (List.length l) 2) as [|_]; [lia|].
  destruct (timSortLoop_inv (Datatypes.S (List.length l))
              (Z.to_nat (computeMinRunLength (Z.of_nat (List.length l))))
              kMinGallopWins [] l) as [H1 H2]; auto.
  - constructor.
  - right. destruct l; [simpl in Hl; lia|discriminate].
Qed.

End Loop.

End Runs.

End RunFacts.

(** ** The stable insertion sort *)

Module InsertionFacts.

Section Facts.

Context {A : Type}.
Variable before : A -> A -> bool.

Local Abbreviation place := (Order.place before).
Local Abbreviation insertionSort := (Order.insertionSort before).

(** [place] puts [x] behind a block of elements it sorts before. *)
Lemma place_split (x : A) (placed : list A) :
  exists passed kept,
    placed = (passed ++ kept)%list
    /\ place x placed = (passed ++ x :: kept)%list
    /\ Forall (fun e => before x e = true) passed.
Proof.
  induction placed as [|e rest IH]; simpl.
  - exists [], []. repeat split; constructor.
  - destruct (before x e) eqn:E.
    + destruct IH as (passed & kept & -> & -> & HF).
      exists (e :: passed), kept. repeat split. constructor; assumption.
    + exists [], (e :: rest). repeat split. constructor.
Qed.

Lemma place_Permutation (x : A) (placed : list A) :
  Permutation (place x placed) (x :: placed).
Proof.
  destruct (place_split x placed) as (passed & kept & -> & -> & _).
  symmetry. apply Permutation_middle.
Qed.

Lemma fold_place_Permutation (l placed : list A) :
  Permutation (fold_left (fun acc x => place x acc) l placed) (rev l ++ placed).
Proof.
  revert placed. induction l as [|x l IH]; intros placed; simpl.
  - reflexivity.
  - rewrite IH, place_Permutation, <- app_assoc. simpl.
    apply Permutation_app_head. reflexivity.
Qed.

Lemma insertionSort_Permutation (l : list A) : Permutation (insertionSort l) l.
Proof.
  unfold Order.insertionSort. rewrite <- Permutation_rev, fold_place_Permutation.
  rewrite app_nil_r. symmetry. apply Permutation_rev.
Qed.

(** *** The result is in order *)

Section InOrder.

Variable S : A -> Prop.
Hypothesis orders : Order.ordersOn before S.

Lemma place_class (x : A) (placed : list A) :
  S x -> Forall S placed -> Forall S (place x placed).
Proof.
  intros Hx Hp.
  apply (Permutation_Forall (Permutation_sym (place_Permutation x placed))).
  constructor; assumption.
Qed.

Lemma place_ordered_on (x : A) (placed : list A) :
  S x -> Forall S placed ->
  StronglySorted (fun a b => before a b = false) placed ->
  StronglySorted (fun a b => before a b = false) (place x placed).
Proof.
  destruct orders as [Hasym Hnt].
  intros Hx. induction placed as [|e rest IH]; intros Hp H; simpl.
  - repeat constructor.
  - apply StronglySorted_inv in H as [Hrest He].
    apply Forall_cons_iff in Hp as [Pe Hp].
    destruct (before x e) eqn:E.
    + constructor; [apply IH; assumption|].
      apply (Permutation_Forall (Permutation_sym (place_Permutation x rest))).
      constructor; [apply Hasym; assumption|exact He].
    + constructor; [constructor; assumption|].
      constructor; [exact E|].
      rewrite Forall_forall in He, Hp |- *. intros b Hb.
      apply (Hnt x e b); auto.
Qed.

Lemma snoc_ordered (R : A -> A -> Prop) (l : list A) (x : A) :
  StronglySorted R l -> Forall (fun a => R a x) l ->
  StronglySorted R (l ++ [x]).
Proof.
  induction 1 as [|a l Hl IH Ha]; intros Hx; simpl.
  - repeat constructor.
  - apply Forall_cons_iff in Hx as [Hax Hx].
    constructor; [apply IH, Hx|].
    apply Forall_app. split; [exact Ha|repeat constructor; exact Hax].
Qed.

Lemma rev_ordered (l : list A) :
  StronglySorted (fun a b => before a b = false) l ->
  Order.ordered before (rev l).
Proof.
  unfold Order.ordered.
  induction 1 as [|a l Hl IH Ha]; simpl; [constructor|].
  apply snoc_ordered; [exact IH|]. apply Forall_rev, Ha.
Qed.

Lemma insertionSort_ordered_on (l : list A) :
  Forall S l -> Order.ordered before (insertionSort l).
Proof.
  intros Hl. unfold Order.insertionSort. apply rev_ordered.
  assert (H : StronglySorted (fun a b => before a b = false) (@nil A))
    by constructor.
  assert (Hn : Forall S (@nil A)) by constructor.
  revert H Hn. generalize (@nil A) as placed.
  induction Hl as [|x l Hx Hl IH]; intros placed H Hn; simpl; [exact H|].
  apply IH; [apply place_ordered_on|apply place_class]; assumption.
Qed.

End InOrder.

(** *** Stability *)

Section Stable.

Variable P : A -> bool.

Lemma filter_none (l : list A) :
  Forall (fun e => P e = false) l -> filter P l = [].
Proof.
  induction 1 as [|e l He _ IH]; simpl; [reflexivity|].
  rewrite He. assumption.
Qed.

Lemma fold_place_stable (l placed : list A) :
  (forall a b, In a l -> In b (l ++ placed) -> P a = true -> P b = true ->
               before a b = false) ->
  filter P (rev (fold_left (fun acc x => place x acc) l placed))
  = (filter P (rev placed) ++ filter P l)%list.
Proof.
  revert placed. induction l as [|x l IH]; intros placed H; simpl.
  - rewrite app_nil_r. reflexivity.
  - rewrite IH.
    + destruct (place_split x placed) as (passed & kept & Hp & -> & HF).
      subst placed. rewrite !rev_app_distr. simpl.
      rewrite !filter_app, <- !app_assoc. simpl.
      destruct (P x) eqn:Px; simpl.
      * assert (Hnone : filter P (rev passed) = []).
        { apply filter_none. apply Forall_rev.
          rewrite Forall_forall in HF |- *. intros e He.
          destruct (P e) eqn:Pe; [|reflexivity].
          pose proof (HF e He) as Hb.
          rewrite (H x e) in Hb; try assumption; try discriminate.
          - left; reflexivity.
          - right. apply in_or_app. right. apply in_or_app. left. assumption. }
        rewrite Hnone. simpl. reflexivity.
      * reflexivity.
    + intros a b Ha Hb Pa Pb. apply H; try assumption.
      * right; assumption.
      * apply in_app_or in Hb. destruct Hb as [Hb|Hb].
        -- right. apply in_or_app. left; assumption.
        -- apply (Permutation_in _ (place_Permutation x placed)) in Hb.
           destruct Hb as [<-|Hb]; [left; reflexivity|].
           right. apply in_or_app. right; assumption.
Qed.

(** The elements of a class in which none sorts before another come out
    in the order they went in. *)
Lemma insertionSort_stable (l : list A) :
  (forall a b, In a l -> In b l -> P a = true -> P b = true ->
               before a b = false) ->
  filter P (insertionSort l) = filter P l.
Proof.
  intros H. unfold Order.insertionSort. rewrite fold_place_stable.
  - reflexivity.
  - rewrite app_nil_r. assumption.
Qed.

End Stable.

(** *** One arrangement only *)

Section Unique.

Local Abbreviation ordered := (Order.ordered before).
Local Abbreviation level := (Order.level before).

(** Two arrangements of the same elements that are both in order, with the
    elements of each level in the same order, are the same. *)
Lemma ordered_unique (r1 : list A) :
  forall r2,
    Permutation r1 r2 -> ordered r1 -> ordered r2 ->
    (forall x, In x r1 -> before x x = false) ->
    (forall x, In x r1 -> filter (level x) r1 = filter (level x) r2) ->
    r1 = r2.
Proof.
  induction r1 as [|h1 t1 IH]; intros r2 Hp H1 H2 Hirr Hf.
  { apply Permutation_nil in Hp. subst. reflexivity. }
  destruct r2 as [|h2 t2].
  { apply Permutation_sym, Permutation_nil in Hp. discriminate. }
  apply StronglySorted_inv in H1 as [H1 Hh1].
  apply StronglySorted_inv in H2 as [H2 Hh2].
  rewrite Forall_forall in Hh1, Hh2.
  assert (L : level h1 h2 = true).
  { unfold Order.level. apply andb_true_iff. split; apply negb_true_iff.
    - assert (Hin : In h1 (h2 :: t2)).
      { apply (Permutation_in _ Hp). left. reflexivity. }
      destruct Hin as [<-|Hin]; [apply Hirr; left; reflexivity|apply Hh2, Hin].
    - assert (Hin : In h2 (h1 :: t1)).
      { apply (Permutation_in _ (Permutation_sym Hp)). left. reflexivity. }
      destruct Hin as [<-|Hin]; [apply Hirr; left; reflexivity|apply Hh1, Hin]. }
  assert (L1 : level h1 h1 = true).
  { unfold Order.level. rewrite Hirr by (left; reflexivity). reflexivity. }
  pose proof (Hf h1 (or_introl eq_refl)) as Hh. simpl in Hh.
  rewrite L, L1 in Hh. injection Hh as <- _.
  f_equal. apply IH; auto.
  - apply (Permutation_cons_inv Hp).
  - intros x Hx. apply Hirr. right. exact Hx.
  - intros x Hx. pose proof (Hf x (or_intror Hx)) as Hx'. simpl in Hx'.
    destruct (level x h1); [injection Hx' as Hx'|]; exact Hx'.
Qed.

End Unique.

End Facts.

End InsertionFacts.

(** ** What [sort] returns *)

Module SortFacts.

Import JsArray Merging ZipUse MergeAtFacts RunFacts.

Section Facts.

Context {A : Type}.
Variable comparefn : A -> A -> float.

Local Abbreviation before := (sortsBefore comparefn).
Local Abbreviation sort := (JsArray.sort comparefn).

Lemma sort_short (l : list A) : (List.length l < 2)%nat -> sort l = l.
Proof.
  intros H. unfold JsArray.sort.
  destruct (Nat.ltb_spec (List.length l) 2) as [_|]; [reflexivity|lia].
Qed.

(** *** The same elements *)

Lemma sort_Permutation (l : list A) : Permutation (sort l) l.
Proof.
  destruct (Nat.lt_ge_cases (List.length l) 2) as [Hl|Hl].
  { rewrite sort_short by exact Hl. reflexivity. }
  apply (sort_inv comparefn (fun _ => True) (@Permutation A) (fun _ => True));
    auto.
  - intros a b c. apply Permutation_trans.
  - intros a a' b b'. apply Permutation_app.
  - intros r _ _. split; [exact I|].
    destruct (countAndMakeRun_spec comparefn r) as (stretch & Hr & _ & [[-> _]|[-> _]]).
    + rewrite <- Hr. reflexivity.
    + rewrite Hr at 2. apply Permutation_app_tail. symmetry. apply Permutation_rev.
  - intros run pivot _ _ _. split; [exact I|].
    apply (zip_Permutation before), binaryInsert_zip.
  - intros g a b _ _ _ _. split; [exact I|].
    apply (zip_Permutation before), mergeAt_zip.
  - apply Forall_forall. intros; exact I.
Qed.

Lemma sort_length (l : list A) : List.length (sort l) = List.length l.
Proof. apply Permutation_length, sort_Permutation. Qed.

(** *** An array that is one run *)

Lemma runRest_all (previousElement : A) (l : list A) :
  (forall x e, In x l -> In e (previousElement :: l) -> before x e = false) ->
  runRest comparefn false previousElement l = List.length l.
Proof.
  revert previousElement. induction l as [|x l IH]; intros previous H; simpl.
  - reflexivity.
  - rewrite H by (left; reflexivity). simpl. f_equal. apply IH.
    intros y e Hy He. apply H; right; assumption.
Qed.

Lemma countAndMakeRun_fixed (l : list A) :
  (forall x e, In x l -> In e l -> before x e = false) ->
  countAndMakeRun comparefn l = (l, []).
Proof.
  intros H. destruct l as [|a [|b rest]]; try reflexivity.
  unfold countAndMakeRun.
  rewrite (H b a) by (simpl; auto).
  rewrite runRest_all
    by (intros x e Hx He; apply H; [right; right; exact Hx|right; exact He]).
  change (Datatypes.S (Datatypes.S (List.length rest)))
    with (List.length (a :: b :: rest)).
  rewrite firstn_all, skipn_all. reflexivity.
Qed.

(** When no element of the array sorts before another, the array is one
    run and stays as it is. *)
Lemma sort_fixed_on (l : list A) :
  (forall x e, In x l -> In e l -> before x e = false) -> sort l = l.
Proof.
  intros H. unfold JsArray.sort.
  destruct (Nat.ltb_spec (List.length l) 2) as [|Hl]; [reflexivity|].
  cbn [timSortLoop].
  rewrite countAndMakeRun_fixed by exact H.
  destruct l as [|a [|b rest]]; try (simpl in Hl; lia).
  replace (Nat.min _ _ - _)%nat with 0%nat by lia.
  reflexivity.
Qed.

Lemma sort_fixed (l : list A) :
  (forall x e, In x l -> before x e = false) -> sort l = l.
Proof. intros H. apply sort_fixed_on. intros x e Hx _. apply H, Hx. Qed.

(** *** A class that sorts last *)

Section Last.

(** [N] marks the rows that sort after the others: the comparator never puts
    one of them before a row, and puts every other row before them. *)
Variable N : A -> bool.
Hypothesis N_never_before : forall x e, N x = true -> before x e = false.
Hypothesis others_before_N :
  forall x e, N x = false -> N e = true -> before x e = true.

Local Abbreviation markedLast := (Order.markedLast N).

Lemma forallb_rev (Q : A -> bool) (l : list A) :
  forallb Q (rev l) = forallb Q l.
Proof.
  induction l as [|x l IH]; simpl; [reflexivity|].
  rewrite forallb_app, IH. simpl. destruct (Q x), (forallb Q l); reflexivity.
Qed.

Lemma markedLast_snoc (l : list A) (x : A) :
  markedLast (l ++ [x])
  = if N x then markedLast l else forallb (fun y => negb (N y)) l.
Proof.
  induction l as [|y l IH]; simpl.
  - destruct (N x); reflexivity.
  - destruct (N y) eqn:Ny; simpl.
    + rewrite forallb_app. simpl. destruct (N x); simpl.
      * rewrite andb_true_r. reflexivity.
      * rewrite andb_false_r. reflexivity.
    + exact IH.
Qed.

Lemma markedLast_unmarked (l : list A) :
  forallb (fun y => negb (N y)) l = true -> markedLast l = true.
Proof.
  induction l as [|x l IH]; simpl; [reflexivity|].
  intros H. apply andb_true_iff in H as [Hx H].
  apply negb_true_iff in Hx. rewrite Hx. apply IH, H.
Qed.

(** In a run that goes up, only marked rows follow a marked row. *)
Lemma ascending_after_marked (l : list A) :
  forall x, Sorted (fun x y => before y x = false) (x :: l) ->
            N x = true -> forallb N l = true.
Proof.
  induction l as [|y l IH]; intros x Hs Nx; simpl; [reflexivity|].
  apply Sorted_inv in Hs as [Hs Hh]. apply HdRel_inv in Hh.
  destruct (N y) eqn:Ny.
  - simpl. apply (IH y Hs Ny).
  - rewrite (others_before_N y x Ny Nx) in Hh. discriminate.
Qed.

Lemma ascending_markedLast (l : list A) :
  Sorted (fun x y => before y x = false) l -> markedLast l = true.
Proof.
  induction l as [|x l IH]; intros Hs; simpl; [reflexivity|].
  destruct (N x) eqn:Nx.
  - apply (ascending_after_marked l x Hs Nx).
  - apply Sorted_inv in Hs as [Hs _]. apply IH, Hs.
Qed.

(** In a run that goes down, no row after the first is marked. *)
Lemma descending_unmarked (l : list A) :
  forall x, Sorted (fun x y => before y x = true) (x :: l) ->
            forallb (fun y => negb (N y)) l = true.
Proof.
  induction l as [|y l IH]; intros x Hs; simpl; [reflexivity|].
  apply Sorted_inv in Hs as [Hs Hh]. apply HdRel_inv in Hh.
  destruct (N y) eqn:Ny.
  - rewrite (N_never_before y x Ny) in Hh. discriminate.
  - simpl. apply (IH y Hs).
Qed.

Lemma descending_marked (l : list A) :
  Sorted (fun x y => before y x = true) l ->
  markedLast (rev l) = true /\ filter N (rev l) = filter N l.
Proof.
  destruct l as [|x l]; intros Hs; [split; reflexivity|].
  pose proof (descending_unmarked l x Hs) as Hu.
  assert (Hnone : forall k, forallb (fun y => negb (N y)) k = true ->
                            filter N k = []).
  { intros k Hk. apply filter_nothing. intros y Hy.
    rewrite forallb_forall in Hk. apply negb_true_iff, Hk, Hy. }
  simpl. split.
  - rewrite markedLast_snoc. destruct (N x).
    + apply markedLast_unmarked. rewrite forallb_rev. exact Hu.
    + rewrite forallb_rev. exact Hu.
  - rewrite filter_app, (Hnone (rev l)) by (rewrite forallb_rev; exact Hu).
    rewrite (Hnone l Hu). simpl. destruct (N x); reflexivity.
Qed.

(** The marked rows are last after the sort, in the order they had. *)
Lemma sort_marked (l : list A) :
  markedLast (sort l) = true /\ filter N (sort l) = filter N l.
Proof.
  destruct (Nat.lt_ge_cases (List.length l) 2) as [Hl|Hl].
  { rewrite sort_short by exact Hl. split; [|reflexivity].
    destruct l as [|x [|y l]]; simpl in *; try lia; try reflexivity.
    destruct (N x); reflexivity. }
  destruct (sort_inv comparefn (fun r => markedLast r = true)
              (fun a b => Permutation a b /\ filter N a = filter N b)
              (fun _ => True)) with (l := l) as [H1 [_ H2]]; auto.
  - intros a b c [P1 F1] [P2 F2]. split; [apply (Permutation_trans P1 P2)|].
    rewrite F1. exact F2.
  - intros a a' b b' [P1 F1] [P2 F2]. split; [apply Permutation_app; assumption|].
    rewrite !filter_app, F1, F2. reflexivity.
  - intros a b [P1 _]. exact P1.
  - intros r _ _.
    destruct (countAndMakeRun_spec comparefn r) as (stretch & Hr & _ & [[-> Hs]|[-> Hs]]).
    + rewrite <- Hr. split; [apply ascending_markedLast, Hs|]. split; reflexivity.
    + destruct (descending_marked stretch Hs) as [Hm Hf].
      split; [exact Hm|]. rewrite Hr at 2 4. split.
      * apply Permutation_app_tail. symmetry. apply Permutation_rev.
      * rewrite !filter_app, Hf. reflexivity.
  - intros run pivot _ _ Hq.
    pose proof (binaryInsert_zip comparefn run pivot) as Hz.
    destruct (zip_marked before N N_never_before others_before_N _ _ _ Hz Hq)
      as [Hm Hf].
    { simpl. destruct (N pivot); reflexivity. }
    split; [exact Hm|]. split; [apply (zip_Permutation before), Hz|].
    rewrite Hf, filter_app. reflexivity.
  - intros g a b _ _ Ha Hb.
    pose proof (mergeAt_zip comparefn g a b) as Hz.
    destruct (zip_marked before N N_never_before others_before_N _ _ _ Hz Ha Hb)
      as [Hm Hf].
    split; [exact Hm|]. split; [apply (zip_Permutation before), Hz|].
    rewrite Hf, filter_app. reflexivity.
  - apply Forall_forall. intros; exact I.
Qed.

(** After the sort the marked rows are at the end. *)
Lemma sort_markedLast (l : list A) : markedLast (sort l) = true.
Proof. apply sort_marked. Qed.

Lemma markedLast_firstn (k : nat) (l : list A) :
  markedLast l = true -> markedLast (firstn k l) = true.
Proof.
  revert k. induction l as [|x l IH]; intros [|k] H; simpl; try reflexivity.
  simpl in H. destruct (N x).
  - clear IH. revert k. induction l as [|y l IHl]; intros [|k]; simpl; try reflexivity.
    simpl in H. apply andb_true_iff in H as [-> H]. simpl. apply IHl, H.
  - apply IH, H.
Qed.

(** What [markedLast] says, by positions. *)
Lemma markedLast_positions (l : list A) :
  markedLast l = true ->
  forall i j x y,
    nth_error l i = Some x -> nth_error l j = Some y ->
    N x = true -> N y = false -> (j < i)%nat.
Proof.
  induction l as [|z l IH]; intros H i j x y Hi Hj Nx Ny.
  - destruct i; discriminate.
  - simpl in H. destruct j as [|j].
    + destruct i as [|i]; [|lia].
      simpl in Hi, Hj. congruence.
    + simpl in Hj. destruct (N z) eqn:Nz.
      * rewrite forallb_forall in H.
        apply nth_error_In in Hj. apply H in Hj. congruence.
      * destruct i as [|i].
        -- simpl in Hi. congruence.
        -- simpl in Hi. apply -> Nat.succ_lt_mono. eapply IH; eassumption.
Qed.

End Last.

(** *** Rows that the comparator orders *)

Section Consistent.

(** [S] holds of elements that the comparator orders, which is what
    ECMAScript calls a consistent comparator for them. *)
Variable S : A -> Prop.
Hypothesis orders : Order.ordersOn before S.

Local Abbreviation ordered := (Order.ordered before).
Local Abbreviation level := (Order.level before).

Lemma before_irreflexive (x : A) : S x -> before x x = false.
Proof.
  intros Sx. destruct (before x x) eqn:E; [|reflexivity].
  rewrite <- E. apply orders; assumption.
Qed.

Lemma before_transitive (x y z : A) :
  S x -> S y -> S z ->
  before x y = true -> before y z = true -> before x z = true.
Proof.
  destruct orders as [Hasym Hnt]. intros Sx Sy Sz Hxy Hyz.
  destruct (before x z) eqn:E; [reflexivity|].
  rewrite (Hnt x z y) in Hxy; auto.
Qed.

Lemma level_before (x a b : A) :
  S x -> S a -> S b ->
  level x a = true -> level x b = true -> before a b = false.
Proof.
  destruct orders as [_ Hnt]. unfold Order.level. intros Sx Sa Sb Ha Hb.
  apply andb_true_iff in Ha as [Ha1 Ha2], Hb as [Hb1 Hb2].
  apply negb_true_iff in Ha1, Ha2, Hb1, Hb2.
  apply (Hnt a x b); assumption.
Qed.

Lemma Sorted_on (R : A -> A -> Prop) (l : list A) :
  (forall x y z, S x -> S y -> S z -> R x y -> R y z -> R x z) ->
  Forall S l -> Sorted R l -> StronglySorted R l.
Proof.
  intros Ht. induction l as [|x l IH]; intros Sl Hs; [constructor|].
  apply Forall_cons_iff in Sl as [Sx Sl].
  apply Sorted_inv in Hs as [Hs Hh].
  specialize (IH Sl Hs). constructor; [exact IH|].
  destruct l as [|y l]; [constructor|].
  apply HdRel_inv in Hh. apply StronglySorted_inv in IH as [_ Hy].
  apply Forall_cons_iff in Sl as [Sy Sl].
  constructor; [exact Hh|].
  rewrite Forall_forall in Hy, Sl |- *. intros z Hz.
  apply (Ht x y z); auto.
Qed.

(** A run that goes up is in order. *)
Lemma ascending_ordered (l : list A) :
  Forall S l -> Sorted (fun x y => before y x = false) l -> ordered l.
Proof.
  destruct orders as [_ Hnt]. apply Sorted_on.
  intros x y z Sx Sy Sz Hxy Hyz. apply (Hnt z y x); assumption.
Qed.

(** A run that goes down is in order once reversed, and holds one element
    of a level at most. *)
Lemma descending_ordered (l : list A) :
  Forall S l -> Sorted (fun x y => before y x = true) l ->
  ordered (rev l)
  /\ forall x, S x -> filter (level x) (rev l) = filter (level x) l.
Proof.
  intros Sl Hs.
  assert (Hss : StronglySorted (fun x y => before y x = true) l).
  { apply Sorted_on; [|exact Sl|exact Hs].
    intros x y z Sx Sy Sz Hxy Hyz. apply (before_transitive z y x); assumption. }
  clear Hs. induction Hss as [|a l Hss IH Ha]; [split; [constructor|reflexivity]|].
  apply Forall_cons_iff in Sl as [Sa Sl].
  destruct (IH Sl) as [IH1 IH2]. simpl. split.
  - apply InsertionFacts.snoc_ordered; [exact IH1|].
    apply Forall_rev. rewrite Forall_forall in Ha, Sl |- *. intros e He.
    apply orders; auto.
  - intros x Sx. rewrite filter_app, IH2 by exact Sx. simpl.
    destruct (level x a) eqn:La; [|apply app_nil_r].
    rewrite (filter_nothing (level x) l); [reflexivity|].
    intros e He. destruct (level x e) eqn:Le; [|reflexivity].
    rewrite Forall_forall in Ha, Sl.
    pose proof (Ha e He) as Hb.
    rewrite (level_before x e a Sx (Sl e He) Sa Le La) in Hb. discriminate.
Qed.

(** On rows that the comparator orders the engine returns them in order,
    those of one level in the order they had. *)
Lemma sort_ordered (l : list A) :
  Forall S l ->
  ordered (sort l)
  /\ forall x, S x -> filter (level x) (sort l) = filter (level x) l.
Proof.
  intros Sl.
  destruct (Nat.lt_ge_cases (List.length l) 2) as [Hl|Hl].
  { rewrite sort_short by exact Hl. split; [|reflexivity].
    destruct l as [|x [|y l]]; simpl in *; try lia; repeat constructor. }
  destruct (sort_inv comparefn ordered
              (fun a b => Permutation a b
                          /\ forall x, S x -> filter (level x) a = filter (level x) b)
              S) with (l := l) as [H1 [_ H2]]; auto.
  - intros a b c [P1 F1] [P2 F2]. split; [apply (Permutation_trans P1 P2)|].
    intros x Sx. rewrite F1 by exact Sx. apply F2, Sx.
  - intros a a' b b' [P1 F1] [P2 F2]. split; [apply Permutation_app; assumption|].
    intros x Sx. rewrite !filter_app, F1, F2 by exact Sx. reflexivity.
  - intros a b [P1 _]. exact P1.
  - intros r Sr _.
    destruct (countAndMakeRun_spec comparefn r) as (stretch & Hr & _ & [[-> Hs]|[-> Hs]]).
    + rewrite <- Hr. split; [|split; reflexivity].
      apply ascending_ordered; [|exact Hs].
      rewrite Hr in Sr. apply Forall_app in Sr. apply Sr.
    + assert (Ss : Forall S stretch).
      { rewrite Hr in Sr. apply Forall_app in Sr. apply Sr. }
      destruct (descending_ordered stretch Ss Hs) as [Ho Hf].
      split; [exact Ho|]. split.
      * rewrite Hr at 2. apply Permutation_app_tail. symmetry. apply Permutation_rev.
      * intros x Sx. rewrite Hr at 2. rewrite !filter_app, Hf by exact Sx. reflexivity.
  - intros run pivot Sr Sp Hq.
    pose proof (binaryInsert_zip comparefn run pivot) as Hz.
    destruct (zip_ordered before S orders _ _ _ Hz) as [Ho Hf]; auto.
    { repeat constructor. }
    split; [exact Ho|]. split; [apply (zip_Permutation before), Hz|].
    intros x Sx. rewrite Hf, filter_app by exact Sx. reflexivity.
  - intros g a b Sa Sb Ha Hb.
    pose proof (mergeAt_zip comparefn g a b) as Hz.
    destruct (zip_ordered before S orders _ _ _ Hz) as [Ho Hf]; auto.
    split; [exact Ho|]. split; [apply (zip_Permutation before), Hz|].
    intros x Sx. rewrite Hf, filter_app by exact Sx. reflexivity.
Qed.

(** On rows that the comparator orders the engine returns what the stable
    insertion sort returns: there is one such arrangement only. *)
Lemma sort_insertionSort (l : list A) :
  Forall S l -> sort l = Order.insertionSort before l.
Proof.
  intros Sl. destruct (sort_ordered l Sl) as [Ho Hf].
  assert (Sin : forall x, In x l -> S x) by (apply Forall_forall; exact Sl).
  apply (InsertionFacts.ordered_unique before).
  - rewrite sort_Permutation. symmetry. apply InsertionFacts.insertionSort_Permutation.
  - exact Ho.
  - apply (InsertionFacts.insertionSort_ordered_on before S orders), Sl.
  - intros x Hx. apply before_irreflexive, Sin.
    apply (Permutation_in _ (sort_Permutation l)), Hx.
  - intros x Hx.
    assert (Sx : S x).
    { apply Sin, (Permutation_in _ (sort_Permutation l)), Hx. }
    rewrite Hf by exact Sx. symmetry.
    apply InsertionFacts.insertionSort_stable.
    intros a b Ha Hb La Lb. apply (level_before x); auto.
Qed.

End Consistent.

Lemma ordersList_spec (l : list A) :
  Order.ordersList before l = true ->
  Order.ordersOn before (fun x => In x l).
Proof.
  unfold Order.ordersList. intros H. rewrite forallb_forall in H.
  assert (H' : forall x y, In x l -> In y l ->
             (negb (before x y) || negb (before y x)) = true
             /\ forall z, In z l ->
                  (before x y || before y z || negb (before x z)) = true).
  { intros x y Hx Hy. specialize (H x Hx). rewrite forallb_forall in H.
    specialize (H y Hy). apply andb_true_iff in H as [H1 H2].
    split; [exact H1|]. rewrite forallb_forall in H2. exact H2. }
  split.
  - intros x y Hx Hy Hxy. destruct (H' x y Hx Hy) as [H1 _].
    rewrite Hxy in H1. simpl in H1. apply negb_true_iff, H1.
  - intros x y z Hx Hy Hz Hxy Hyz. destruct (H' x y Hx Hy) as [_ H2].
    specialize (H2 z Hz). rewrite Hxy, Hyz in H2. simpl in H2.
    apply negb_true_iff, H2.
Qed.

(** On an array whose elements the comparator orders the engine returns
    what the stable insertion sort returns. *)
Lemma sort_insertionSort_list (l : list A) :
  Order.ordersList before l = true -> sort l = Order.insertionSort before l.
Proof.
  intros H. apply (sort_insertionSort (fun x => In x l)).
  - apply ordersList_spec, H.
  - apply Forall_forall. auto.
Qed.

End Facts.

End SortFacts.

(** ** [slice] *)

Module SliceFacts.

Import JsArray.

Section Facts.

Context {A : Type}.

(** [l.slice(0, n)] is a prefix of [l]. *)
Lemma slice0_firstn (n : Z) (l : list A) :
  slice 0 n l = firstn (Z.to_nat (relIndex (Z.of_nat (List.length l)) n)) l.
Proof.
  unfold slice. replace (relIndex (Z.of_nat (List.length l)) 0) with 0.
  - simpl. rewrite Z.sub_0_r. reflexivity.
  - unfold relIndex. simpl. lia.
Qed.

(** For a positive [n] it is the first [n] elements. *)
Lemma slice0_positive (n : Z) (l : list A) :
  0 < n -> slice 0 n l = firstn (Z.to_nat n) l.
Proof.
  intros Hn. rewrite slice0_firstn. unfold relIndex.
  destruct (n <? 0) eqn:E; [lia|].
  destruct (Z.le_ge_cases n (Z.of_nat (List.length l))) as [H|H].
  - rewrite Z.min_l by assumption. reflexivity.
  - rewrite Z.min_r by lia. rewrite Nat2Z.id.
    rewrite firstn_all. symmetry. apply firstn_all2. lia.
Qed.

(** A prefix keeps a prefix of every class of rows. *)
Lemma filter_firstn (P : A -> bool) (k : nat) (l : list A) :
  exists k', filter P (firstn k l) = firstn k' (filter P l).
Proof.
  revert k. induction l as [|x l IH]; intros [|k]; simpl.
  - exists O. reflexivity.
  - exists O. reflexivity.
  - exists O. reflexivity.
  - destruct (IH k) as [k' Hk']. destruct (P x).
    + exists (S k'). simpl. rewrite Hk'. reflexivity.
    + exists k'. assumption.
Qed.

End Facts.

End SliceFacts.

(** ** The table *)

Module TableFacts.

Import DataTable Views.

Section WithHost.

Variable host : Host.

(** [processedData] is the row limit applied to the sorted rows. *)
Lemma processedData_unfold (p : Props) (st : State) :
  processedData host p st = limitRows (maxRows p) (sortedRows host st (data p)).
Proof.
  unfold processedData, limitRows, sortedRows.
  destruct (data p) as [|r rows] eqn:E; [|reflexivity].
  assert (Hs : forall f, JsArray.sort f (@nil Record) = []) by reflexivity.
  assert (Hl : forall n, JsArray.slice 0 n (@nil Record) = []).
  { intros n. rewrite SliceFacts.slice0_firstn. apply firstn_nil. }
  destruct (truthyColumn (sortColumn st)), (sortColumn st), (maxRows p) as [n|];
    rewrite ?Hs; try reflexivity;
    destruct (truthyRows (Some n)); rewrite ?Hl; reflexivity.
Qed.

Lemma sortedRows_Permutation (st : State) (rows : Dataset) :
  Permutation (sortedRows host st rows) rows.
Proof.
  unfold sortedRows.
  destruct (truthyColumn (sortColumn st)); [|reflexivity].
  destruct (sortColumn st); [|reflexivity].
  apply SortFacts.sort_Permutation.
Qed.

(** The row limit keeps a prefix. *)
Lemma limitRows_prefix (m : option Z) (rows : Dataset) :
  exists k, limitRows m rows = firstn k rows.
Proof.
  unfold limitRows. destruct m as [n|].
  - destruct (truthyRows (Some n)).
    + eexists. apply SliceFacts.slice0_firstn.
    + exists (List.length rows). symmetry. apply firstn_all.
  - exists (List.length rows). symmetry. apply firstn_all.
Qed.

Lemma limitRows_falsy (m : option Z) (rows : Dataset) :
  truthyRows m = false -> limitRows m rows = rows.
Proof.
  unfold limitRows. intros H. destruct m; [rewrite H|]; reflexivity.
Qed.

(** The number of visible rows does not depend on the state. *)
Lemma processedData_length (p : Props) (st st' : State) :
  List.length (processedData host p st) = List.length (processedData host p st').
Proof.
  rewrite !processedData_unfold.
  assert (H : forall s, List.length (sortedRows host s (data p))
                        = List.length (data p))
    by (intros; apply Permutation_length, sortedRows_Permutation).
  unfold limitRows. destruct (maxRows p) as [n|]; [|rewrite !H; reflexivity].
  destruct (truthyRows (Some n)); [|rewrite !H; reflexivity].
  rewrite !SliceFacts.slice0_firstn, !H, !length_firstn, !H. reflexivity.
Qed.

Lemma totalPages_state (p : Props) (st st' : State) :
  totalPages host p st = totalPages host p st'.
Proof.
  unfold totalPages. rewrite (processedData_length p st st'). reflexivity.
Qed.

Lemma totalPages_positive (p : Props) (st : State) :
  processedData host p st <> [] -> 1 <= totalPages host p st.
Proof.
  intros H. unfold totalPages, ceilDiv, rowsPerPage.
  destruct (processedData host p st) as [|r rows]; [congruence|].
  simpl List.length. apply Z.div_le_lower_bound; lia.
Qed.

End WithHost.

(** The comparator on a row without a value. *)
Lemma compareRows_null_first (host : Host) (col : string) (dir : SortDirection)
      (a b : Record) :
  nullAt col a = true -> compareRows host col dir a b = 1%float.
Proof. unfold nullAt, compareRows. intros ->. reflexivity. Qed.

Lemma compareRows_null_second (host : Host) (col : string) (dir : SortDirection)
      (a b : Record) :
  nullAt col a = false -> nullAt col b = true ->
  compareRows host col dir a b = (-1)%float.
Proof. unfold nullAt, compareRows. intros -> ->. reflexivity. Qed.

Lemma null_never_before (host : Host) (col : string) (dir : SortDirection)
      (a b : Record) :
  nullAt col a = true ->
  JsArray.sortsBefore (compareRows host col dir) a b = false.
Proof.
  intros H. unfold JsArray.sortsBefore.
  rewrite compareRows_null_first by assumption. reflexivity.
Qed.

Lemma others_before_null (host : Host) (col : string) (dir : SortDirection)
      (a b : Record) :
  nullAt col a = false -> nullAt col b = true ->
  JsArray.sortsBefore (compareRows host col dir) a b = true.
Proof.
  intros Ha Hb. unfold JsArray.sortsBefore.
  rewrite compareRows_null_second by assumption. reflexivity.
Qed.

(** [handleSort] always leaves its column as the sort column. *)
Lemma handleSort_column (col : string) (st : State) :
  sortColumn (handleSort col st) = Some col.
Proof.
  destruct st as [[c|] sd cp ec]; unfold handleSort; simpl; [|reflexivity].
  destruct (String.eqb_spec c col); simpl; congruence.
Qed.

Lemma sortedRows_falsy (host : Host) (st : State) (rows : Dataset) :
  truthyColumn (sortColumn st) = false -> sortedRows host st rows = rows.
Proof. unfold sortedRows. intros ->. reflexivity. Qed.

End TableFacts.

(** ** The table on the explorer's page *)

Module ScreenFacts.

Import DataTable Views TableFacts ExplorerTable.

Section WithHost.

Variable host : Host.

(** The table the page shows has a row and no row limit. *)
Lemma tableProps_rows (st : Explorer.State) (p : Props) :
  tableProps host st = Some p -> data p <> [] /\ maxRows p = None.
Proof.
  unfold tableProps. destruct (Explorer.view st); try discriminate.
  destruct (negb (truthyName (Explorer.selectedTable st))); [discriminate|].
  destruct (Explorer.tableLoading st); [discriminate|].
  destruct (Explorer.tableData st) as [info|]; [|discriminate].
  destruct (Explorer.sample_data info) as [[|first rest]|]; try discriminate.
  intros [= <-]. split; [discriminate|reflexivity].
Qed.

(** While a sample loads the page shows no table. *)
Lemma tableProps_loading (st : Explorer.State) :
  Explorer.tableLoading st = true -> tableProps host st = None.
Proof.
  intros H. unfold tableProps. rewrite H.
  destruct (Explorer.view st); try reflexivity.
  destruct (negb (truthyName (Explorer.selectedTable st))); reflexivity.
Qed.

(** A table mounted on a dataset with a visible row is within the page
    bound. *)
Lemma mounted_within_bound (p : Props) :
  processedData host p initialState <> [] ->
  pageWithinBound host p initialState.
Proof.
  intros H. unfold pageWithinBound. simpl currentPage.
  apply totalPages_positive, H.
Qed.

Lemma shown_within_bound (st : Explorer.State) (p : Props) :
  tableProps host st = Some p -> pageWithinBound host p initialState.
Proof.
  intros H. apply tableProps_rows in H as [Hd Hm].
  apply mounted_within_bound. rewrite processedData_unfold, Hm. exact Hd.
Qed.

Lemma step_inStep (sc : Screen) (ev : Event) :
  inStep host sc -> inStep host (step host sc ev).
Proof.
  unfold inStep. destruct ev as [e|e]; simpl.
  - intros H. unfold render.
    destruct (tableProps host (Explorer.state (Explorer.step (page sc) e)));
      [|exact I].
    destruct (tableProps host (Explorer.state (page sc))), (table sc); exact I.
  - destruct (tableProps host (Explorer.state (page sc))) as [p|] eqn:Hp,
             (table sc) as [st|] eqn:Ht; simpl; rewrite ?Hp, ?Ht; auto.
Qed.

Lemma run_inStep (es : list Event) : inStep host (run host es).
Proof.
  unfold run. assert (H : inStep host initialScreen) by exact I.
  revert H. generalize initialScreen as sc.
  induction es as [|ev es IH]; intros sc H; simpl; [exact H|].
  apply IH, step_inStep, H.
Qed.

End WithHost.

End ScreenFacts.

(** ** The grid engine *)

Module GridEngine.

Import DataTable Views TableFacts.




(** The rows without a value in the sort column come last, in either
    direction, when the sort column has a name that is not empty. *)
Lemma rows_without_value_come_last
      (host : Host) (p : Props) (st : State) (col : string) :
  sortColumn st = Some col -> col <> EmptyString ->
  forall i j x y,
    nth_error (processedData host p st) i = Some x ->
    nth_error (processedData host p st) j = Some y ->
    nullAt col x = true -> nullAt col y = false -> (j < i)%nat.
Proof.
  intros Hc Hne.
  apply (SortFacts.markedLast_positions (nullAt col)).
  rewrite processedData_unfold.
  destruct (limitRows_prefix (maxRows p) (sortedRows host st (data p))) as [k ->].
  apply SortFacts.markedLast_firstn.
  unfold sortedRows. rewrite Hc. simpl.
  destruct (String.eqb_spec col EmptyString); [contradiction|]. simpl.
  apply SortFacts.sort_markedLast.
  - intros x e. apply null_never_before.
  - intros x e. apply others_before_null.
Qed.

Lemma rows_without_value_come_last_witness :
  nth_error (processedData ExampleHost.host Examples.scenarioTable
               (handleSort "b" (handleSort "b" initialState))) 1
  = Some [("a", VString "3"); ("b", VNull)]
  /\ nth_error (processedData ExampleHost.host Examples.scenarioTable
                  (handleSort "b" (handleSort "b" initialState))) 0
     = Some [("a", VString "1"); ("b", VString "x")]
  /\ (0 < 1)%nat.
Proof.
  split; [reflexivity|]. split; [reflexivity|].
  apply (rows_without_value_come_last ExampleHost.host Examples.scenarioTable
           (handleSort "b" (handleSort "b" initialState)) "b"
           eq_refl ltac:(discriminate) 1%nat 0%nat
           [("a", VString "3"); ("b", VNull)]
           [("a", VString "1"); ("b", VString "x")]);
    reflexivity.
Defined.

(** C2 fails on a column whose name is the empty string: [handleSort] makes
    it the sort column, [processedData] reads the empty string as no sort
    column, and the row without a value stays in front of the row with
    one. *)
Lemma unnamed_column_is_left_unsorted :
  sortColumn (handleSort EmptyString initialState) = Some EmptyString
  /\ processedData ExampleHost.host Examples.unnamedColumnTable
       (handleSort EmptyString initialState)
     = [ [(EmptyString, VNull)]; [(EmptyString, VString "x")] ]
  /\ nullAt EmptyString [(EmptyString, VNull)] = true
  /\ nullAt EmptyString [(EmptyString, VString "x")] = false.
Proof. repeat split. Qed.

(** The rows of a class that the comparator holds on one rank keep their
    order through the sorting step, where the comparator orders the rows. *)
Lemma sortedRows_class (host : Host) (st : State) (rows : Dataset)
      (P : Record -> bool) :
  comparatorOrders host st rows = true ->
  (forall col a b, sortColumn st = Some col -> In a rows -> In b rows ->
                   P a = true -> P b = true ->
                   sameRank host col (sortDirection st) a b = true) ->
  filter P (sortedRows host st rows) = filter P rows.
Proof.
  unfold sortedRows, comparatorOrders. intros Ho H.
  destruct (truthyColumn (sortColumn st)); [|reflexivity].
  destruct (sortColumn st) as [col|] eqn:Hc; [|reflexivity].
  rewrite SortFacts.sort_insertionSort_list by exact Ho.
  apply InsertionFacts.insertionSort_stable. intros a b Ha Hb Pa Pb.
  specialize (H col a b eq_refl Ha Hb Pa Pb). unfold sameRank in H.
  apply andb_true_iff in H as [H _]. apply negb_true_iff in H. exact H.
Qed.

(** The rows without a value in the sort column keep their order through
    the sorting step. *)
Lemma sortedRows_nulls (host : Host) (st : State) (rows : Dataset) (col : string) :
  sortColumn st = Some col ->
  filter (nullAt col) (sortedRows host st rows) = filter (nullAt col) rows.
Proof.
  intros Hc. unfold sortedRows. rewrite Hc.
  destruct (truthyColumn (Some col)); [|reflexivity].
  apply SortFacts.sort_marked.
  - intros x e. apply null_never_before.
  - intros x e. apply others_before_null.
Qed.

Lemma processedData_class (host : Host) (p : Props) (st : State)
      (P : Record -> bool) :
  filter P (sortedRows host st (data p)) = filter P (data p) ->
  (exists k, filter P (processedData host p st) = firstn k (filter P (data p)))
  /\ (truthyRows (maxRows p) = false ->
      filter P (processedData host p st) = filter P (data p)).
Proof.
  intros H. rewrite processedData_unfold. split.
  - destruct (limitRows_prefix (maxRows p) (sortedRows host st (data p))) as [k ->].
    destruct (SliceFacts.filter_firstn P k (sortedRows host st (data p))) as [k' ->].
    exists k'. rewrite H. reflexivity.
  - intros Hf. rewrite limitRows_falsy by assumption. exact H.
Qed.




(** C4.  What [handleExport] hands over depends on the dataset, [maxRows],
    the title and the format only: it is the same in any two states of the
    table, so also in the states any two sequences of clicks lead to.  The
    rows are the dataset's own rows in their order, the first [maxRows] of
    them under a row limit. *)
Theorem export_ignores_the_view (host : Host) (p : Props) (format : string) :
  (forall st st', handleExport host p st format = handleExport host p st' format)
  /\ (forall es es',
        handleExport host p (run host p initialState es) format
        = handleExport host p (run host p initialState es') format)
  /\ (forall st,
        content (handleExport host p st format)
        = if String.eqb format "csv" then convertToCSV host (exportData p)
          else JSON_stringify host (exportData p))
  /\ exportData p = limitRows (maxRows p) (data p)
  /\ (forall n, maxRows p = Some n -> 0 < n ->
        exportData p = firstn (Z.to_nat n) (data p)).
Proof.
  split; [reflexivity|]. split; [reflexivity|].
  split; [|split].
  - intros st. unfold handleExport. destruct (String.eqb format "csv"); reflexivity.
  - reflexivity.
  - intros n Hm Hn. unfold exportData. rewrite Hm. simpl.
    destruct (Z.eqb_spec n 0); [lia|]. simpl.
    apply SliceFacts.slice0_positive, Hn.
Qed.

Lemma export_ignores_the_view_witness :
  exportData Examples.scenarioTable = firstn 10 Examples.scenarioRows
  /\ handleExport ExampleHost.host Examples.scenarioTable
       (run ExampleHost.host Examples.scenarioTable initialState
            [ClickHeader "a"; ClickHeader "a"; ClickNext]) "csv"
     = handleExport ExampleHost.host Examples.scenarioTable initialState "csv".
Proof.
  pose proof (export_ignores_the_view ExampleHost.host Examples.scenarioTable "csv")
    as (_ & Hruns & _ & _ & Hrows).
  split.
  - apply (Hrows 10); reflexivity.
  - apply (Hruns [ClickHeader "a"; ClickHeader "a"; ClickNext] []).
Defined.



(** C6, as stated, fails on two spellings of the positive infinity: neither
    parses as a finite number, yet the comparator compares them as numbers
    (the result of Infinity - Infinity is NaN, which the sort reads as
    equal and so keeps the rows in place), where the comparison of the
    lower-cased strings orders them. *)
Lemma infinities_are_compared_as_numbers :
  nullAt "v" Examples.infinityRow = false
  /\ nullAt "v" Examples.hugeRow = false
  /\ JsNumber.isFinite (parseFloat ExampleHost.host (get Examples.infinityRow "v"))
     = false
  /\ compareRows ExampleHost.host "v" asc Examples.infinityRow Examples.hugeRow = nan
  /\ comparisonOnFinite ExampleHost.host asc
       (get Examples.infinityRow "v") (get Examples.hugeRow "v") = 1%float
  /\ compareRows ExampleHost.host "v" asc Examples.infinityRow Examples.hugeRow
     <> comparisonOnFinite ExampleHost.host asc
          (get Examples.infinityRow "v") (get Examples.hugeRow "v")
  /\ processedData ExampleHost.host
       {| data := [Examples.infinityRow; Examples.hugeRow];
          title := "Data Table"; maxRows := None |}
       (handleSort "v" initialState)
     = [Examples.infinityRow; Examples.hugeRow].
Proof.
  assert (Hc : compareRows ExampleHost.host "v" asc
                 Examples.infinityRow Examples.hugeRow = nan)
    by (vm_compute; reflexivity).
  assert (Hs : comparisonOnFinite ExampleHost.host asc
                 (get Examples.infinityRow "v") (get Examples.hugeRow "v") = 1%float)
    by (vm_compute; reflexivity).
  split; [reflexivity|]. split; [reflexivity|].
  split; [vm_compute; reflexivity|].
  split; [exact Hc|]. split; [exact Hs|].
  split.
  - rewrite Hc, Hs. intros H.
    apply (f_equal PrimFloat.is_nan) in H. vm_compute in H. discriminate H.
  - vm_compute. reflexivity.
Qed.

Lemma finite_is_not_NaN (x : float) :
  JsNumber.isFinite x = true -> JsNumber.isNaN x = false.
Proof.
  unfold JsNumber.isFinite, JsNumber.isNaN, PrimFloat.is_finite.
  destruct (PrimFloat.is_nan x); [discriminate|reflexivity].
Qed.

(** C6 (amended).  Two values that are present are compared as numbers when
    both parse to a number, the infinities included (so also when both
    parse as finite numbers), and otherwise by the locale's order of their
    lower-cased string forms; sorting the strings 10 and 9 ascending puts 9
    first. *)
Theorem present_values_compare_by_number_or_text
        (host : Host) (col : string) (dir : SortDirection) :
  (forall a b, nullAt col a = false -> nullAt col b = false ->
     compareRows host col dir a b
     = comparisonOnParsed host dir (get a col) (get b col))
  /\ (forall a b, nullAt col a = false -> nullAt col b = false ->
      JsNumber.isFinite (parseFloat host (get a col)) = true ->
      JsNumber.isFinite (parseFloat host (get b col)) = true ->
      compareRows host col dir a b
      = numericOrder dir (parseFloat host (get a col)) (parseFloat host (get b col)))
  /\ (forall a b, nullAt col a = false -> nullAt col b = false ->
      JsNumber.isNaN (parseFloat host (get a col))
      || JsNumber.isNaN (parseFloat host (get b col)) = true ->
      compareRows host col dir a b = textOrder host dir (get a col) (get b col))
  /\ processedData host Examples.tenNineTable (handleSort "v" initialState)
     = [ [("v", VString "9")]; [("v", VString "10")] ].
Proof.
  assert (Hmain : forall a b, nullAt col a = false -> nullAt col b = false ->
            compareRows host col dir a b
            = comparisonOnParsed host dir (get a col) (get b col)).
  { intros a b Ha Hb. unfold nullAt in Ha, Hb.
    unfold compareRows, comparisonOnParsed, numericOrder, textOrder.
    rewrite Ha, Hb. reflexivity. }
  split; [exact Hmain|]. split; [|split].
  - intros a b Ha Hb Fa Fb. rewrite Hmain by assumption.
    unfold comparisonOnParsed.
    rewrite (finite_is_not_NaN _ Fa), (finite_is_not_NaN _ Fb). reflexivity.
  - intros a b Ha Hb Hnan. rewrite Hmain by assumption.
    unfold comparisonOnParsed.
    apply orb_true_iff in Hnan as [-> | ->]; simpl;
      rewrite ?andb_false_r; reflexivity.
  - vm_compute. reflexivity.
Qed.

Lemma present_values_compare_by_number_or_text_witness :
  compareRows ExampleHost.host "v" asc [("v", VString "9")] [("v", VString "10")]
  = (-1)%float
  /\ compareRows ExampleHost.host "v" desc [("v", VString "9")] [("v", VString "10")]
     = 1%float
  /\ compareRows ExampleHost.host "v" asc [("v", VString "Pear")] [("v", VString "apple")]
     = ExampleHost.codeUnitCompare "pear" "apple".
Proof.
  pose proof (present_values_compare_by_number_or_text ExampleHost.host "v" asc)
    as (_ & Hnum & Htext & _).
  pose proof (present_values_compare_by_number_or_text ExampleHost.host "v" desc)
    as (_ & Hnum' & _).
  split; [|split].
  - rewrite Hnum by reflexivity. reflexivity.
  - rewrite Hnum' by reflexivity. reflexivity.
  - rewrite Htext by reflexivity. reflexivity.
Defined.

(** [includes] of a one-character string. *)
Lemma includes_char (c : ascii) (s : string) :
  JsString.includes (String c EmptyString) s
  = existsb (fun a => Ascii.eqb a c) (list_ascii_of_string s).
Proof.
  induction s as [|a s IH]; [reflexivity|].
  simpl. rewrite <- IH. simpl.
  destruct (ascii_dec c a) as [->|Hne].
  - rewrite Ascii.eqb_refl. destruct s; reflexivity.
  - destruct (Ascii.eqb_spec a c); [congruence|reflexivity].
Qed.

Lemma existsb_orb3 {A : Type} (f g h : A -> bool) (l : list A) :
  existsb (fun x => f x || g x || h x) l = existsb f l || existsb g l || existsb h l.
Proof.
  induction l as [|x l IH]; [reflexivity|]. simpl. rewrite IH.
  destruct (f x), (g x), (h x), (existsb f l), (existsb g l), (existsb h l);
    reflexivity.
Qed.

Lemma replaceAll_dquote (s : string) :
  JsString.replaceAll JsString.dquote
    (String JsString.dquote (JsString.str JsString.dquote)) s
  = CsvSpec.doubleQuotes s.
Proof.
  induction s as [|a s IH]; [reflexivity|].
  simpl. rewrite IH. destruct (Ascii.eqb a JsString.dquote) eqn:E; [|reflexivity].
  apply Ascii.eqb_eq in E. subst a. reflexivity.
Qed.

(** C7.  The CSV text of a dataset with a first record is the header line
    of that record's column names joined by commas, then a line per record,
    the lines joined by newlines; a missing value gives an empty field, and
    a string with a comma, a double quote or a newline is wrapped in double
    quotes with its own double quotes doubled, as [Hello, "World"] shows. *)
Theorem csv_follows_the_format (host : Host) (first : Record) (rest : Dataset) :
  convertToCSV host (first :: rest)
  = CsvSpec.serialize host (Object_keys first) (first :: rest)
  /\ CsvSpec.field host (VString Examples.helloWorld) = Examples.helloWorldField
  /\ convertToCSV host [ [("greeting", VString Examples.helloWorld); ("n", VNull)] ]
     = "greeting,n" ++ String JsString.newline (Examples.helloWorldField ++ ",").
Proof.
  split; [|split; vm_compute; reflexivity].
  unfold convertToCSV, CsvSpec.serialize. f_equal. f_equal.
  apply map_ext. intros row. unfold Array_join, CsvSpec.line.
  rewrite map_map. f_equal. apply map_ext. intros header.
  unfold CsvSpec.field.
  destruct (get row header) as [| |[|]|x|s]; try reflexivity.
  simpl isNullish. cbv iota. unfold JsString.str.
  rewrite !includes_char, replaceAll_dquote.
  unfold CsvSpec.needsQuoting. rewrite existsb_orb3.
  destruct (existsb _ _ || existsb _ _ || existsb _ _); reflexivity.
Qed.

(** C8.  A string of more than 50 characters is shown as its first 50
    characters and an ellipsis, and a click on its cell stores the string
    itself, whole; a click on any other value changes nothing. *)
Theorem long_text_is_cut_and_expands_whole
        (host : Host) (col : string) (index : nat) (st : State) :
  (forall s, (50 < String.length s)%nat ->
     formatCellValue host (VString s) = JsString.substring0 50 s ++ "..."
     /\ String.length (JsString.substring0 50 s) = 50%nat
     /\ String.prefix (JsString.substring0 50 s) s = true
     /\ expandedCell (handleCellClick (VString s) col index st)
        = Some {| value := s; column := col; rowIndex := index |}
     /\ sortColumn (handleCellClick (VString s) col index st) = sortColumn st
     /\ sortDirection (handleCellClick (VString s) col index st) = sortDirection st
     /\ currentPage (handleCellClick (VString s) col index st) = currentPage st)
  /\ (forall v, (forall s, v = VString s -> (String.length s <= 50)%nat) ->
     handleCellClick v col index st = st).
Proof.
  split.
  - intros s Hs. unfold formatCellValue, handleCellClick.
    apply Nat.ltb_lt in Hs as Hb. rewrite Hb.
    assert (Hlen : forall n t, (n <= String.length t)%nat ->
                     String.length (String.substring 0 n t) = n).
    { induction n as [|n IH]; intros [|c t] Hn; simpl in *; try reflexivity; try lia.
      rewrite IH by lia. reflexivity. }
    assert (Hpre : forall n t, String.prefix (String.substring 0 n t) t = true).
    { induction n as [|n IH]; intros [|c t]; simpl; try reflexivity.
      destruct (ascii_dec c c); [apply IH|congruence]. }
    repeat split; try reflexivity.
    + apply Hlen. lia.
    + apply Hpre.
  - intros v Hv. unfold handleCellClick.
    destruct v as [| |b|x|s]; try reflexivity.
    specialize (Hv s eq_refl).
    destruct (Nat.ltb_spec 50 (String.length s)); [lia|reflexivity].
Qed.

Lemma long_text_is_cut_and_expands_whole_witness :
  String.length Examples.sixty = 60%nat
  /\ formatCellValue ExampleHost.host (VString Examples.sixty)
     = "abcdefghijklmnopqrstuvwxyzabcdefghijklmnopqrstuvwx..."
  /\ expandedCell (handleCellClick (VString Examples.sixty) "note" 4 initialState)
     = Some {| value := Examples.sixty; column := "note"; rowIndex := 4 |}
  /\ handleCellClick (VString "short") "note" 4 initialState = initialState
  /\ handleCellClick (VNumber 12) "note" 4 initialState = initialState.
Proof.
  pose proof (long_text_is_cut_and_expands_whole ExampleHost.host "note" 4 initialState)
    as (Hlong & Hother).
  destruct (Hlong Examples.sixty) as (Hfmt & _ & _ & Hexp & _).
  { vm_compute. repeat constructor. }
  split; [reflexivity|].
  split; [exact Hfmt|].
  split; [exact Hexp|].
  split; apply Hother.
  - intros s [= <-]. vm_compute. repeat constructor.
  - intros s [=].
Defined.

(** C9.  [handleSort] on the current sort column flips the direction and
    keeps the column; on any other column it makes that column the sort
    column, ascending; either way the current page becomes 1. *)
Theorem handleSort_sets_sort_state (col : string) (st : State) :
  (sortColumn st = Some col ->
     sortColumn (handleSort col st) = Some col
     /\ sortDirection (handleSort col st) = flip (sortDirection st))
  /\ (sortColumn st <> Some col ->
     sortColumn (handleSort col st) = Some col
     /\ sortDirection (handleSort col st) = asc)
  /\ currentPage (handleSort col st) = 1
  /\ expandedCell (handleSort col st) = expandedCell st
  /\ flip (flip (sortDirection st)) = sortDirection st.
Proof.
  destruct st as [sc sd cp ec]. unfold handleSort. simpl.
  split; [|split; [|split; [|split]]].
  - intros ->. rewrite String.eqb_refl. split; reflexivity.
  - intros H. destruct sc as [c|]; [|split; reflexivity].
    destruct (String.eqb_spec c col); [congruence|split; reflexivity].
  - destruct sc as [c|]; [|reflexivity].
    destruct (String.eqb c col); reflexivity.
  - destruct sc as [c|]; [|reflexivity].
    destruct (String.eqb c col); reflexivity.
  - destruct sd; reflexivity.
Qed.

Lemma handleSort_sets_sort_state_witness :
  sortColumn Examples.sortedByA = Some "a"
  /\ sortDirection (handleSort "a" Examples.sortedByA) = desc
  /\ sortDirection (handleSort "a" (handleSort "a" Examples.sortedByA)) = asc
  /\ sortColumn (handleSort "b" Examples.sortedByA) = Some "b"
  /\ sortDirection (handleSort "b" (handleSort "a" Examples.sortedByA)) = asc.
Proof.
  pose proof (handleSort_sets_sort_state "a" Examples.sortedByA) as (Hsame & _).
  pose proof (handleSort_sets_sort_state "a" (handleSort "a" Examples.sortedByA))
    as (Hback & _).
  pose proof (handleSort_sets_sort_state "b" Examples.sortedByA) as (_ & Hother & _).
  pose proof (handleSort_sets_sort_state "b" (handleSort "a" Examples.sortedByA))
    as (_ & Hother' & _).
  split; [reflexivity|].
  split; [apply Hsame; reflexivity|].
  split; [apply Hback; reflexivity|].
  split; [apply Hother; discriminate|].
  apply Hother'. discriminate.
Defined.

(** C10.  With [maxRows] 0 or [null] no row limit is applied: the visible
    rows are all the rows of the dataset (in their own order when no column
    is sorted), and the export is handed the whole dataset. *)
Theorem falsy_maxRows_means_no_limit
        (host : Host) (p : Props) (st : State) (format : string) :
  maxRows p = None \/ maxRows p = Some 0 ->
  processedData host p st = sortedRows host st (data p)
  /\ Permutation (processedData host p st) (data p)
  /\ List.length (processedData host p st) = List.length (data p)
  /\ (truthyColumn (sortColumn st) = false -> processedData host p st = data p)
  /\ exportData p = data p
  /\ content (handleExport host p st format)
     = if String.eqb format "csv" then convertToCSV host (data p)
       else JSON_stringify host (data p).
Proof.
  intros Hm.
  assert (Hf : truthyRows (maxRows p) = false)
    by (destruct Hm as [-> | ->]; reflexivity).
  assert (Hp : processedData host p st = sortedRows host st (data p))
    by (rewrite processedData_unfold; apply limitRows_falsy, Hf).
  assert (He : exportData p = data p).
  { change (exportData p) with (limitRows (maxRows p) (data p)).
    apply limitRows_falsy, Hf. }
  split; [exact Hp|]. rewrite Hp.
  split; [apply sortedRows_Permutation|].
  split; [apply Permutation_length, sortedRows_Permutation|].
  split; [apply sortedRows_falsy|].
  split; [exact He|].
  unfold handleExport. rewrite He.
  destruct (String.eqb format "csv"); reflexivity.
Qed.

Lemma falsy_maxRows_means_no_limit_witness :
  maxRows Examples.zeroLimitTable = Some 0
  /\ Permutation
       (processedData ExampleHost.host Examples.zeroLimitTable Examples.sortedByA)
       Examples.scenarioRows
  /\ exportData Examples.zeroLimitTable = Examples.scenarioRows.
Proof.
  destruct (falsy_maxRows_means_no_limit ExampleHost.host Examples.zeroLimitTable
              Examples.sortedByA "csv") as (_ & Hperm & _ & _ & Hexp & _).
  { right. reflexivity. }
  split; [reflexivity|]. split; [exact Hperm|exact Hexp].
Defined.

Lemma pageNumbers_range (n page : Z) :
  In page (pageNumbers n) -> 1 <= page /\ page <= n.
Proof.
  unfold pageNumbers. rewrite in_map_iff. intros (i & <- & Hi).
  apply in_seq in Hi. lia.
Qed.

Lemma handleCellClick_page (v : Value) (col : string) (index : nat) (st : State) :
  currentPage (handleCellClick v col index st) = currentPage st.
Proof.
  unfold handleCellClick. destruct v as [| |b|x|s]; try reflexivity.
  destruct (50 <? String.length s)%nat; reflexivity.
Qed.

Lemma handleSort_page (col : string) (st : State) :
  currentPage (handleSort col st) = 1.
Proof. reflexivity. Qed.

Lemma step_keeps_page_bound (host : Host) (p : Props) (st : State) (e : Event) :
  1 <= totalPages host p st ->
  1 <= currentPage st /\ currentPage st <= totalPages host p st ->
  1 <= currentPage (step host p st e)
  /\ currentPage (step host p st e) <= totalPages host p (step host p st e).
Proof.
  intros HT Hst.
  rewrite (totalPages_state host p (step host p st e) st).
  unfold step. destruct (data p) as [|r rows]; [exact Hst|].
  destruct e as [col|index col| | |page|format|].
  - destruct (inb col (columns p)); [|exact Hst].
    rewrite handleSort_page. lia.
  - destruct (inb col (columns p)); [|exact Hst].
    destruct (nth_error (currentData host p st) index); [|exact Hst].
    rewrite handleCellClick_page. exact Hst.
  - destruct (1 <? totalPages host p st); simpl; [|exact Hst].
    destruct (Z.eqb_spec (currentPage st) 1); simpl; [exact Hst|lia].
  - destruct (1 <? totalPages host p st); simpl; [|exact Hst].
    destruct (Z.eqb_spec (currentPage st) (totalPages host p st)); simpl;
      [exact Hst|lia].
  - destruct (1 <? totalPages host p st); simpl; [|exact Hst].
    destruct (existsb (Z.eqb page) (pageButtons host p st)) eqn:E; [|exact Hst].
    apply existsb_exists in E as (q & Hq & Heq).
    apply Z.eqb_eq in Heq. subst q.
    unfold pageButtons in Hq. apply filter_In in Hq as [Hq _].
    apply pageNumbers_range in Hq. simpl. exact Hq.
  - exact Hst.
  - destruct (expandedCell st); exact Hst.
Qed.

(** The page bound of the specification holds at all times: from a mount
    with a visible row, whatever is clicked, the current page stays between
    1 and the page count. *)
Lemma page_bound_is_kept (host : Host) (p : Props) (es : list Event) :
  processedData host p initialState <> [] ->
  1 <= currentPage (run host p initialState es)
  /\ pageWithinBound host p (run host p initialState es).
Proof.
  intros Hrows. unfold pageWithinBound, run.
  assert (HT : forall st, 1 <= totalPages host p st).
  { intros st. rewrite (totalPages_state host p st initialState).
    apply totalPages_positive, Hrows. }
  assert (Hinit : 1 <= currentPage initialState
                  /\ currentPage initialState <= totalPages host p initialState)
    by (split; [reflexivity|apply HT]).
  revert Hinit. generalize initialState as st.
  induction es as [|e es IH]; intros st Hst; simpl.
  - exact Hst.
  - apply IH, step_keeps_page_bound; [apply HT|exact Hst].
Qed.

Lemma page_bound_is_kept_witness :
  currentPage (run ExampleHost.host Examples.scenarioTable initialState
                 [ClickNext; ClickHeader "a"; ClickPage 7; ClickPrevious]) = 1
  /\ pageWithinBound ExampleHost.host Examples.scenarioTable
       (run ExampleHost.host Examples.scenarioTable initialState
          [ClickNext; ClickHeader "a"; ClickPage 7; ClickPrevious]).
Proof.
  split; [reflexivity|].
  apply (page_bound_is_kept ExampleHost.host Examples.scenarioTable
           [ClickNext; ClickHeader "a"; ClickPage 7; ClickPrevious]).
  discriminate.
Defined.

End GridEngine.

(** ** Pages and page buttons *)

Module PagerFacts.

Import DataTable Views TableFacts Pager.

Section Chunks.

Context {A : Type}.

Lemma firstn_min_length (n : nat) (l : list A) :
  firstn (Nat.min n (List.length l)) l = firstn n l.
Proof.
  destruct (Nat.le_gt_cases n (List.length l)) as [H|H].
  - rewrite Nat.min_l by assumption. reflexivity.
  - rewrite Nat.min_r by lia. rewrite firstn_all.
    symmetry. apply firstn_all2. lia.
Qed.

(** A window of ten rows from a position that is not negative. *)
Lemma slice_window (a : nat) (l : list A) :
  JsArray.slice (Z.of_nat a) (Z.of_nat a + 10) l = firstn 10 (skipn a l).
Proof.
  unfold JsArray.slice, JsArray.relIndex.
  destruct (Z.ltb_spec (Z.of_nat a) 0) as [Ha|_]; [lia|].
  destruct (Z.ltb_spec (Z.of_nat a + 10) 0) as [Ha|_]; [lia|].
  destruct (Nat.le_gt_cases (List.length l) a) as [H|H].
  - rewrite (Z.min_r (Z.of_nat a)) by lia. rewrite Nat2Z.id.
    rewrite !skipn_all2 by lia. rewrite !firstn_nil. reflexivity.
  - rewrite (Z.min_l (Z.of_nat a)) by lia. rewrite Nat2Z.id.
    rewrite <- (firstn_min_length 10 (skipn a l)), length_skipn.
    f_equal. lia.
Qed.

(** The windows of [c] rows, one after the other, give back the rows. *)
Lemma windows_firstn (c n : nat) (l : list A) :
  flat_map (fun i => firstn c (skipn (c * i) l)) (seq 0 n) = firstn (c * n) l.
Proof.
  induction n as [|n IH].
  - rewrite Nat.mul_0_r. reflexivity.
  - rewrite seq_S, flat_map_app, IH. simpl. rewrite app_nil_r.
    rewrite <- (firstn_skipn (c * n) (firstn (c * S n) l)).
    rewrite firstn_firstn, (Nat.min_l (c * n)) by lia.
    f_equal. replace (c * S n)%nat with (c * n + c)%nat by lia.
    apply firstn_skipn_comm.
Qed.

End Chunks.

Section WithHost.

Variable host : Host.

(** The rows do not depend on the page shown. *)
Lemma processedData_page (p : Props) (st : State) (k : Z) :
  processedData host p (setCurrentPage k st) = processedData host p st.
Proof. reflexivity. Qed.

(** The page [i + 1] is the window of ten rows from row [10 * i]. *)
Lemma currentData_window (p : Props) (st : State) (i : nat) :
  currentData host p (setCurrentPage (Z.of_nat i + 1) st)
  = firstn 10 (skipn (10 * i) (processedData host p st)).
Proof.
  unfold currentData, endIndex, startIndex, rowsPerPage.
  rewrite processedData_page. simpl currentPage.
  replace ((Z.of_nat i + 1 - 1) * 10) with (Z.of_nat (10 * i)) by lia.
  apply slice_window.
Qed.

Lemma totalPages_covers (p : Props) (st : State) :
  (List.length (processedData host p st)
   <= 10 * Z.to_nat (totalPages host p st))%nat.
Proof.
  unfold totalPages, ceilDiv, rowsPerPage.
  set (n := Z.of_nat (List.length (processedData host p st))).
  assert (Hn : 0 <= n) by (subst n; lia).
  assert (Hq : n <= 10 * ((n + 10 - 1) / 10)).
  { pose proof (Z.div_mod (n + 10 - 1) 10 ltac:(lia)) as Hd.
    pose proof (Z.mod_pos_bound (n + 10 - 1) 10 ltac:(lia)) as Hm. lia. }
  assert (Hp : 0 <= (n + 10 - 1) / 10) by (apply Z.div_pos; lia).
  lia.
Qed.

(** The pages, from the first to the last, hold the visible rows in their
    order, each row on one page. *)
Theorem pages_hold_each_visible_row_once (p : Props) (st : State) :
  flat_map (fun page => currentData host p (setCurrentPage page st))
           (pageNumbers (totalPages host p st))
  = processedData host p st.
Proof.
  unfold pageNumbers. rewrite flat_map_concat_map, map_map, <- flat_map_concat_map.
  rewrite (flat_map_ext _ (fun i => firstn 10 (skipn (10 * i) (processedData host p st))))
    by (intros i; apply currentData_window).
  rewrite windows_firstn. apply firstn_all2, totalPages_covers.
Qed.

(** A page between the first and the last shows between one and ten rows,
    ten when it is not the last, and the range the bar announces is the
    range of the rows shown; a page after the last shows none. *)
Theorem page_shows_the_rows_it_announces (p : Props) (st : State) :
  (1 <= currentPage st -> currentPage st <= totalPages host p st ->
     (1 <= List.length (currentData host p st) <= 10)%nat
     /\ (currentPage st < totalPages host p st ->
         List.length (currentData host p st) = 10%nat)
     /\ Z.of_nat (List.length (currentData host p st))
        = showingTo host p st - showingFrom st + 1
     /\ currentData host p st
        = firstn 10 (skipn (Z.to_nat (startIndex st)) (processedData host p st)))
  /\ (totalPages host p st < currentPage st -> 1 <= currentPage st ->
      currentData host p st = []).
Proof.
  assert (Hwin : 1 <= currentPage st ->
            currentData host p st
            = firstn 10 (skipn (Z.to_nat (startIndex st)) (processedData host p st))).
  { intros H1. unfold currentData, endIndex, startIndex, rowsPerPage.
    replace ((currentPage st - 1) * 10)
      with (Z.of_nat (Z.to_nat ((currentPage st - 1) * 10))) at 1 2 by lia.
    apply slice_window. }
  pose proof (totalPages_covers p st) as Hcov.
  assert (Htp : 10 * (totalPages host p st - 1)
                < Z.of_nat (List.length (processedData host p st))
                \/ totalPages host p st = 0).
  { unfold totalPages, ceilDiv, rowsPerPage.
    set (n := Z.of_nat (List.length (processedData host p st))).
    pose proof (Z.div_mod (n + 10 - 1) 10 ltac:(lia)) as Hd.
    pose proof (Z.mod_pos_bound (n + 10 - 1) 10 ltac:(lia)) as Hm. lia. }
  split.
  - intros H1 H2. rewrite (Hwin H1).
    unfold showingTo, showingFrom, endIndex, startIndex, rowsPerPage in *.
    rewrite length_firstn, length_skipn.
    repeat split; try lia.
  - intros H H1. rewrite (Hwin H1).
    unfold startIndex, rowsPerPage.
    rewrite skipn_all2 by lia. apply firstn_nil.
Qed.

End WithHost.

Lemma page_shows_the_rows_it_announces_witness :
  currentData ExampleHost.host Examples.scenarioTable initialState
  = Examples.scenarioRows
  /\ showingFrom initialState = 1
  /\ showingTo ExampleHost.host Examples.scenarioTable initialState = 3
  /\ currentData ExampleHost.host Examples.scenarioTable
       (setCurrentPage 2 initialState) = [].
Proof.
  pose proof (page_shows_the_rows_it_announces ExampleHost.host
                Examples.scenarioTable initialState)
    as (Hin & _).
  pose proof (page_shows_the_rows_it_announces ExampleHost.host
                Examples.scenarioTable (setCurrentPage 2 initialState)) as (_ & Hout).
  destruct Hin as (_ & _ & _ & Hrows); [reflexivity|discriminate|].
  split; [exact Hrows|]. split; [reflexivity|]. split; [reflexivity|].
  apply Hout; [reflexivity|discriminate].
Defined.

(** *** The page buttons *)

Lemma pageNumbers_consecutive (n : Z) :
  pageNumbers n = consecutive 1 (Z.to_nat n).
Proof.
  unfold pageNumbers. generalize (Z.to_nat n) as m. intros m.
  assert (H : forall a, map (fun i => Z.of_nat i + a) (seq 0 m) = consecutive a m).
  { induction m as [|m IH]; intros a; [reflexivity|].
    simpl. f_equal. rewrite <- seq_shift, map_map, <- IH.
    apply map_ext. intros i. lia. }
  apply H.
Qed.

Lemma consecutive_In (a : Z) (m : nat) (x : Z) :
  In x (consecutive a m) <-> a <= x < a + Z.of_nat m.
Proof.
  revert a. induction m as [|m IH]; intros a; simpl.
  - lia.
  - rewrite IH. lia.
Qed.

Lemma consecutive_sorted (a : Z) (m : nat) :
  StronglySorted Z.lt (consecutive a m).
Proof.
  revert a. induction m as [|m IH]; intros a; simpl; constructor.
  - apply IH.
  - apply Forall_forall. intros x Hx. apply consecutive_In in Hx. lia.
Qed.

Lemma filter_sorted (f : Z -> bool) (l : list Z) :
  StronglySorted Z.lt l -> StronglySorted Z.lt (filter f l).
Proof.
  induction 1 as [|a l Hl IH Ha]; simpl; [constructor|].
  destruct (f a); [|exact IH].
  constructor; [exact IH|].
  rewrite Forall_forall in Ha |- *. intros x Hx.
  apply filter_In in Hx as [Hx _]. apply Ha, Hx.
Qed.

Lemma sorted_NoDup (l : list Z) : StronglySorted Z.lt l -> NoDup l.
Proof.
  induction 1 as [|a l Hl IH Ha]; constructor; [|exact IH].
  intros Hin. rewrite Forall_forall in Ha. specialize (Ha a Hin). lia.
Qed.

Lemma ellipses_gapPages (current : Z) (previous : option Z) (pages : list Z) :
  List.length (filter isEllipsis (renderButtons current previous pages))
  = List.length (gapPages previous pages).
Proof.
  revert previous. induction pages as [|page rest IH]; intros previous; simpl.
  - reflexivity.
  - rewrite filter_app, !length_app. simpl. rewrite IH. f_equal.
    destruct previous as [q|]; [|reflexivity].
    destruct (negb (q =? page - 1)); reflexivity.
Qed.

Lemma gapPages_In (previous : option Z) (pages : list Z) (g : Z) :
  In g (gapPages previous pages) -> In g pages.
Proof.
  revert previous. induction pages as [|page rest IH]; intros previous; simpl.
  - auto.
  - intros H. apply in_app_or in H as [H|H].
    + destruct previous as [q|]; [|contradiction].
      destruct (negb (q =? page - 1)); [|contradiction].
      destruct H as [H|[]]. left. exact H.
    + right. eapply IH, H.
Qed.

Lemma gapPages_NoDup (previous : option Z) (pages : list Z) :
  NoDup pages -> NoDup (gapPages previous pages).
Proof.
  intros H. revert previous.
  induction H as [|page rest Hnot Hrest IH]; intros previous; simpl.
  - constructor.
  - destruct previous as [q|]; simpl; [|apply IH].
    destruct (negb (q =? page - 1)); simpl; [|apply IH].
    constructor; [|apply IH].
    intros Hin. apply Hnot. eapply gapPages_In, Hin.
Qed.

(** Among consecutive numbers filtered by [shown], an ellipsis stands in
    front of a page only when the page before it is not shown. *)
Lemma gapPages_consecutive (shown : Z -> bool) (m : nat) :
  forall (a : Z) (previous : option Z),
    (forall q, previous = Some q -> q < a /\ (shown (a - 1) = true -> q = a - 1)) ->
    forall g, In g (gapPages previous (filter shown (consecutive a m))) ->
              shown g = true /\ shown (g - 1) = false
              /\ exists q, q < g /\ (previous = Some q \/ a <= q).
Proof.
  induction m as [|m IH]; intros a previous Hprev g Hg; simpl in Hg.
  - contradiction.
  - destruct (shown a) eqn:Ha.
    + simpl in Hg. apply in_app_or in Hg as [Hg|Hg].
      * destruct previous as [q|]; [|contradiction].
        destruct (Z.eqb_spec q (a - 1)) as [->|Hne]; simpl in Hg; [contradiction|].
        destruct Hg as [<-|[]].
        destruct (Hprev q eq_refl) as [Hlt Hshown].
        split; [exact Ha|]. split.
        -- destruct (shown (a - 1)); [|reflexivity].
           exfalso. apply Hne, Hshown. reflexivity.
        -- exists q. split; [exact Hlt|left; reflexivity].
      * destruct (IH (a + 1) (Some a)) with (g := g) as (H1 & H2 & q & Hq & Hq').
        -- intros q [= <-]. split; [lia|]. intros _. lia.
        -- exact Hg.
        -- split; [exact H1|]. split; [exact H2|].
           exists q. split; [exact Hq|]. right.
           destruct Hq' as [[= <-]|Hq']; lia.
    + destruct (IH (a + 1) previous) with (g := g) as (H1 & H2 & q & Hq & Hq').
      * intros q Hq. destruct (Hprev q Hq) as [Hlt _].
        split; [lia|]. replace (a + 1 - 1) with a by lia.
        rewrite Ha. discriminate.
      * exact Hg.
      * split; [exact H1|]. split; [exact H2|].
        exists q. split; [exact Hq|].
        destruct Hq' as [Hq'|Hq']; [left; exact Hq'|right; lia].
Qed.

Lemma buttonPages_render (current : Z) (previous : option Z) (pages : list Z) :
  buttonPages (renderButtons current previous pages) = pages.
Proof.
  unfold buttonPages. revert previous.
  induction pages as [|page rest IH]; intros previous; simpl; [reflexivity|].
  rewrite flat_map_app. simpl. rewrite IH.
  destruct previous as [q|]; [|reflexivity].
  destruct (negb (q =? page - 1)); reflexivity.
Qed.

Lemma activePages_render (current : Z) (previous : option Z) (pages : list Z) :
  activePages (renderButtons current previous pages)
  = filter (fun page => page =? current) pages.
Proof.
  unfold activePages. revert previous.
  induction pages as [|page rest IH]; intros previous; simpl; [reflexivity|].
  rewrite flat_map_app. simpl. rewrite IH.
  assert (Hgap : forall gap : list PageItem,
            (gap = [] \/ gap = [Ellipsis]) ->
            flat_map (fun i => match i with
                               | PageButton pg true => [pg]
                               | _ => []
                               end) gap = []).
  { intros gap [-> | ->]; reflexivity. }
  rewrite Hgap.
  - destruct (page =? current); reflexivity.
  - destruct previous as [q|]; [|left; reflexivity].
    destruct (negb (q =? page - 1)); [right|left]; reflexivity.
Qed.

Lemma filter_only (x : Z) (l : list Z) :
  NoDup l -> In x l -> filter (fun y => y =? x) l = [x].
Proof.
  induction 1 as [|a l Hnot Hl IH]; intros Hin; [contradiction|].
  simpl. destruct (Z.eqb_spec a x) as [->|Hne].
  - f_equal. clear IH Hin.
    induction l as [|b l IHl]; [reflexivity|].
    simpl. destruct (Z.eqb_spec b x) as [->|_].
    + exfalso. apply Hnot. left. reflexivity.
    + apply IHl.
      * intros H. apply Hnot. right. exact H.
      * inversion Hl. assumption.
  - destruct Hin as [Hin|Hin]; [contradiction|]. apply IH, Hin.
Qed.

(** However many pages there are, the bar shows at most seven page buttons
    and two ellipses; the buttons are in rising order, each for a page
    between the first and the last, at most two away from the current page
    unless it is the first or the last; when the current page is one of the
    pages, the first, the last and the current page have a button and the
    current one alone is drawn active. *)
Theorem pagination_bar_stays_small (host : Host) (p : Props) (st : State) :
  (List.length (pageButtons host p st) <= 7)%nat
  /\ (List.length (filter isEllipsis (paginationControls host p st)) <= 2)%nat
  /\ buttonPages (paginationControls host p st) = pageButtons host p st
  /\ StronglySorted Z.lt (pageButtons host p st)
  /\ (forall page, In page (pageButtons host p st) ->
        1 <= page <= totalPages host p st
        /\ (page = 1 \/ page = totalPages host p st
            \/ Z.abs (page - currentPage st) <= 2))
  /\ (1 <= currentPage st <= totalPages host p st ->
      In 1 (pageButtons host p st)
      /\ In (totalPages host p st) (pageButtons host p st)
      /\ In (currentPage st) (pageButtons host p st)
      /\ activePages (paginationControls host p st) = [currentPage st]).
Proof.
  set (T := totalPages host p st). set (cp := currentPage st).
  set (shown := fun page => (page =? 1) || (page =? T) || (Z.abs (page - cp) <=? 2)).
  assert (Hbuttons : pageButtons host p st = filter shown (consecutive 1 (Z.to_nat T))).
  { unfold pageButtons. rewrite pageNumbers_consecutive. reflexivity. }
  assert (Hshown : forall page, shown page = true <->
                     page = 1 \/ page = T \/ Z.abs (page - cp) <= 2).
  { intros page. unfold shown. rewrite !orb_true_iff, !Z.eqb_eq, Z.leb_le. tauto. }
  assert (Hsorted : StronglySorted Z.lt (pageButtons host p st)).
  { rewrite Hbuttons. apply filter_sorted, consecutive_sorted. }
  assert (Hin : forall page, In page (pageButtons host p st) <->
                  (1 <= page <= T) /\ shown page = true).
  { intros page. rewrite Hbuttons, filter_In, consecutive_In.
    split; intros [Hr Hs]; (split; [lia|exact Hs]). }
  split.
  { apply (NoDup_incl_length (l' := [1; T; cp - 2; cp - 1; cp; cp + 1; cp + 2])).
    - apply sorted_NoDup, Hsorted.
    - intros page Hp. apply Hin in Hp as [_ Hp]. apply Hshown in Hp.
      simpl. lia. }
  split.
  { unfold paginationControls. rewrite ellipses_gapPages.
    apply (NoDup_incl_length (l' := [T; cp - 2])).
    - apply gapPages_NoDup, sorted_NoDup, Hsorted.
    - intros g Hg. rewrite Hbuttons in Hg.
      destruct (Z.to_nat T) as [|m] eqn:Em; [contradiction|].
      simpl in Hg. replace (shown 1) with true in Hg by reflexivity.
      simpl in Hg.
      destruct (gapPages_consecutive shown m 2 (Some 1)) with (g := g)
        as (H1 & H2 & q & Hq & Hq').
      + intros q [= <-]. split; [lia|]. intros _. reflexivity.
      + exact Hg.
      + apply Hshown in H1.
        assert (H3 : ~ (g - 1 = 1 \/ g - 1 = T \/ Z.abs (g - 1 - cp) <= 2)).
        { intros H. apply Hshown in H. congruence. }
        assert (1 < g) by (destruct Hq' as [[= <-]|Hq']; lia).
        simpl. lia. }
  split; [apply buttonPages_render|].
  split; [exact Hsorted|].
  split.
  { intros page Hp. apply Hin in Hp as [Hr Hp]. apply Hshown in Hp.
    split; [exact Hr|exact Hp]. }
  intros Hcp.
  assert (H1 : In 1 (pageButtons host p st)).
  { apply Hin. split; [lia|]. apply Hshown. lia. }
  assert (HT : In T (pageButtons host p st)).
  { apply Hin. split; [lia|]. apply Hshown. lia. }
  assert (Hc : In cp (pageButtons host p st)).
  { apply Hin. split; [lia|]. apply Hshown. lia. }
  split; [exact H1|]. split; [exact HT|]. split; [exact Hc|].
  unfold paginationControls. rewrite activePages_render.
  apply filter_only; [apply sorted_NoDup, Hsorted|exact Hc].
Qed.

Lemma pagination_bar_stays_small_witness :
  activePages (paginationControls ExampleHost.host Examples.scenarioTable initialState)
  = [1]
  /\ In 1 (pageButtons ExampleHost.host Examples.scenarioTable initialState).
Proof.
  destruct (pagination_bar_stays_small ExampleHost.host Examples.scenarioTable
              initialState) as (_ & _ & _ & _ & _ & H).
  destruct H as (H1 & _ & _ & Ha); [split; discriminate|].
  split; [exact Ha|exact H1].
Defined.

End PagerFacts.

(** ** The helpers *)

Module HelperFacts.

Import Helpers.

(** A fact about every character, checked on each of the 256. *)
Ltac every_char c :=
  destruct c as [[] [] [] [] [] [] [] []]; try discriminate; vm_compute;
  repeat split; try reflexivity; try discriminate.

Lemma digit_not_space (c : ascii) :
  JsNumber.isDigit c = true -> JsString.isWhiteSpace c = false.
Proof. every_char c. Qed.

Lemma digit_plain (c : ascii) :
  JsNumber.isDigit c = true ->
  Ascii.eqb c "-" = false /\ Ascii.eqb c "+" = false
  /\ Ascii.eqb c "." = false /\ Ascii.eqb "I" c = false
  /\ radixOf c = None.
Proof. every_char c. Qed.

Lemma digit_value_b (c : ascii) :
  JsNumber.isDigit c = true ->
  (0 <=? JsNumber.digitVal c) && (JsNumber.digitVal c <=? 9) = true.
Proof. every_char c. Qed.

Lemma digit_value (c : ascii) :
  JsNumber.isDigit c = true -> 0 <= JsNumber.digitVal c <= 9.
Proof.
  intros H. apply digit_value_b in H.
  apply andb_true_iff in H as [H1 H2]. lia.
Qed.

(** *** [trim] *)

Lemma trimEnd_cons (c : ascii) (l : list ascii) :
  JsString.isWhiteSpace c = false -> trimEnd (c :: l) = c :: trimEnd l.
Proof. intros H. simpl. rewrite H. destruct (trimEnd l); reflexivity. Qed.

Lemma trimEnd_again (l : list ascii) : trimEnd (trimEnd l) = trimEnd l.
Proof.
  induction l as [|c l IH]; [reflexivity|]. simpl.
  destruct (trimEnd l) as [|d r] eqn:E.
  - destruct (JsString.isWhiteSpace c) eqn:W; [reflexivity|].
    simpl. rewrite W. reflexivity.
  - change (trimEnd (c :: d :: r)) with
      (match trimEnd (d :: r) with
       | [] => if JsString.isWhiteSpace c then [] else [c]
       | x => c :: x
       end).
    rewrite IH. reflexivity.
Qed.

Lemma trimStart_head (l : list ascii) :
  JsNumber.trimStart l = []
  \/ exists c r, JsNumber.trimStart l = c :: r /\ JsString.isWhiteSpace c = false.
Proof.
  induction l as [|c l IH]; [left; reflexivity|]. simpl.
  destruct (JsString.isWhiteSpace c) eqn:W; [exact IH|].
  right. exists c, l. split; [reflexivity|exact W].
Qed.

Lemma trimChars_again (l : list ascii) : trimChars (trimChars l) = trimChars l.
Proof.
  unfold trimChars at 2 3.
  destruct (trimStart_head l) as [->|(c & r & -> & W)]; [reflexivity|].
  rewrite (trimEnd_cons c r W). unfold trimChars. simpl. rewrite W.
  rewrite <- (trimEnd_cons c r W). apply trimEnd_again.
Qed.

(** Trimming what is trimmed changes nothing. *)
Lemma trim_again (s : string) : trim (trim s) = trim s.
Proof.
  unfold trim. rewrite list_ascii_of_string_of_list_ascii, trimChars_again.
  reflexivity.
Qed.

(** *** [truncateText] *)

Lemma substring0_length (n : nat) (t : string) :
  String.length (JsString.substring0 n t) = Nat.min n (String.length t).
Proof.
  unfold JsString.substring0. revert t.
  induction n as [|n IH]; intros [|c t]; simpl; try reflexivity.
  rewrite IH. reflexivity.
Qed.

Lemma substring0_append (a b : string) :
  JsString.substring0 (String.length a) (a ++ b) = a.
Proof.
  unfold JsString.substring0.
  induction a as [|c a IH]; simpl.
  - destruct b; reflexivity.
  - rewrite IH. reflexivity.
Qed.

Lemma append_length (a b : string) :
  String.length (a ++ b) = (String.length a + String.length b)%nat.
Proof. induction a as [|c a IH]; simpl; [reflexivity|]. rewrite IH. reflexivity. Qed.

(** [truncateText] cuts a text longer than [maxLength] to [maxLength]
    characters and adds an ellipsis of three, so the result has up to
    [maxLength + 3] characters and can be longer than the text it came
    from; a text that fits, the empty text and [null] come back as they
    are; and truncating a second time changes nothing. *)
Theorem truncateText_cuts_once (maxLength : Z) :
  truncateText None maxLength = None
  /\ (forall t,
        exists r,
          truncateText (Some t) maxLength = Some r
          /\ truncateText (Some r) maxLength = Some r
          /\ String.prefix (JsString.substring0 (Z.to_nat maxLength) t) r = true
          /\ (Z.of_nat (String.length t) <= maxLength -> r = t)
          /\ (maxLength < Z.of_nat (String.length t) -> t <> EmptyString ->
              r = JsString.substring0 (Z.to_nat maxLength) t ++ "..."
              /\ Z.of_nat (String.length r) = Z.max 0 maxLength + 3)).
Proof.
  split; [reflexivity|]. intros t.
  assert (Hpre : forall a b, String.prefix a (a ++ b) = true).
  { induction a as [|c a IH]; intros b; simpl.
    - destruct b; reflexivity.
    - destruct (ascii_dec c c); [apply IH|congruence]. }
  assert (Hsub : forall n u, String.prefix (JsString.substring0 n u) u = true).
  { unfold JsString.substring0.
    induction n as [|n IH]; intros [|c u]; simpl; try reflexivity.
    destruct (ascii_dec c c); [apply IH|congruence]. }
  unfold truncateText.
  destruct (Z.leb_spec (Z.of_nat (String.length t)) maxLength) as [Hfit|Hlong].
  - exists t. pose proof (proj2 (Z.leb_le _ _) Hfit) as Hb.
    rewrite Hb, !orb_true_r.
    repeat split; try reflexivity; try lia. apply Hsub.
  - destruct (String.eqb_spec t EmptyString) as [->|Hne]; simpl.
    + exists EmptyString. simpl in Hlong.
      split; [reflexivity|]. split; [reflexivity|].
      split; [destruct (Z.to_nat maxLength); reflexivity|].
      split; [reflexivity|]. intros _ H. congruence.
    + set (cut := JsString.substring0 (Z.to_nat maxLength) t).
      assert (Hcut : String.length cut = Z.to_nat maxLength).
      { subst cut. rewrite substring0_length. lia. }
      exists (cut ++ "..."). split; [reflexivity|].
      assert (Hlen : Z.of_nat (String.length (cut ++ "...")) = Z.max 0 maxLength + 3).
      { rewrite append_length, Hcut. simpl. lia. }
      split.
      * destruct (String.eqb_spec (cut ++ "...") EmptyString) as [He|_].
        { apply (f_equal String.length) in He. rewrite append_length in He.
          simpl in He. lia. }
        destruct (Z.leb_spec (Z.of_nat (String.length (cut ++ "..."))) maxLength);
          [lia|]. simpl.
        rewrite <- Hcut, substring0_append. reflexivity.
      * split; [apply Hpre|]. split; [lia|].
        intros _ _. split; [reflexivity|exact Hlen].
Qed.

Lemma truncateText_cuts_once_witness :
  truncateText (Some "hello world") 10 = Some "hello worl..."
  /\ truncateText (Some "hello worl...") 10 = Some "hello worl..."
  /\ truncateText (Some "hello") 10 = Some "hello".
Proof.
  destruct (truncateText_cuts_once 10) as (_ & H).
  destruct (H "hello world") as (r & Hr & Hagain & _ & _ & Hlong).
  destruct Hlong as [-> _]; [reflexivity|discriminate|].
  destruct (H "hello") as (r' & Hr' & _ & _ & Hfit & _).
  rewrite (Hfit ltac:(discriminate)) in Hr'.
  split; [exact Hr|]. split; [exact Hagain|exact Hr'].
Defined.

(** *** Dates *)

(** What [/^\d{4}-\d{2}-\d{2}/] asks of the first five characters. *)
Lemma date_shape (s : string) :
  matchesDate s = true ->
  exists y1 y2 y3 y4 rest,
    list_ascii_of_string s = y1 :: y2 :: y3 :: y4 :: "-"%char :: rest
    /\ JsNumber.isDigit y1 = true /\ JsNumber.isDigit y2 = true
    /\ JsNumber.isDigit y3 = true /\ JsNumber.isDigit y4 = true.
Proof.
  unfold matchesDate.
  destruct (list_ascii_of_string s)
    as [|y1 [|y2 [|y3 [|y4 [|h1 [|m1 [|m2 [|h2 [|d1 [|d2 rest]]]]]]]]]];
    try discriminate.
  intros H. repeat (apply andb_true_iff in H as [H ?]).
  match goal with E : Ascii.eqb h1 _ = true |- _ => apply Ascii.eqb_eq in E; subst h1 end.
  exists y1, y2, y3, y4, (m1 :: m2 :: h2 :: d1 :: d2 :: rest).
  repeat split; try assumption.
  unfold JsNumber.isDigit. apply andb_true_iff. split; assumption.
Qed.

Section Year.

Variables y1 y2 y3 y4 : ascii.
Hypothesis D1 : JsNumber.isDigit y1 = true.
Hypothesis D2 : JsNumber.isDigit y2 = true.
Hypothesis D3 : JsNumber.isDigit y3 = true.
Hypothesis D4 : JsNumber.isDigit y4 = true.

Lemma year_span (rest : list ascii) :
  JsNumber.spanDigits (y1 :: y2 :: y3 :: y4 :: "-"%char :: rest)
  = ([y1; y2; y3; y4], "-"%char :: rest).
Proof. simpl. rewrite D1, D2, D3, D4. reflexivity. Qed.

Lemma not_Infinity (l : list ascii) :
  Ascii.eqb "I" y1 = false ->
  JsNumber.startsWith (list_ascii_of_string "Infinity") (y1 :: l) = false.
Proof.
  intros H. cbn [JsNumber.startsWith list_ascii_of_string]. rewrite H.
  reflexivity.
Qed.

(** [parseFloat] reads the year off a date and stops at the hyphen. *)
Lemma year_parseFloat (rest : list ascii) :
  JsNumber.parseFloatChars (y1 :: y2 :: y3 :: y4 :: "-"%char :: rest)
  = JsNumber.roundDecimal (JsNumber.digitsValue [y1; y2; y3; y4]) 0.
Proof.
  destruct (digit_plain y1 D1) as (Hm & Hp & _ & HI & _).
  unfold JsNumber.parseFloatChars.
  cbn [JsNumber.trimStart]. rewrite (digit_not_space y1 D1). cbv iota.
  rewrite Hm, Hp. unfold JsNumber.unsignedDecimal.
  rewrite year_span, (not_Infinity _ HI). reflexivity.
Qed.

(** [Number] does not take a date for a number. *)
Lemma year_StringToNumber (rest : list ascii) (s : string) :
  list_ascii_of_string s = y1 :: y2 :: y3 :: y4 :: "-"%char :: rest ->
  StringToNumber s = nan.
Proof.
  intros Hs. unfold StringToNumber. rewrite Hs.
  destruct (digit_plain y1 D1) as (Hm & Hp & _ & HI & _).
  destruct (digit_plain y2 D2) as (_ & _ & _ & _ & Hr).
  assert (Ht : trimChars (y1 :: y2 :: y3 :: y4 :: "-"%char :: rest)
               = y1 :: y2 :: y3 :: y4 :: "-"%char :: trimEnd rest).
  { unfold trimChars. cbn [JsNumber.trimStart].
    rewrite (digit_not_space y1 D1).
    rewrite !trimEnd_cons; auto using digit_not_space. }
  rewrite Ht.
  unfold nonDecimalLiteral. rewrite Hr.
  replace (if Ascii.eqb y1 "0" then None else None) with (@None float)
    by (destruct (Ascii.eqb y1 "0"); reflexivity).
  unfold decimalLiteral. rewrite Hm, Hp.
  unfold unsignedLiteral.
  rewrite year_span, (not_Infinity _ HI). reflexivity.
Qed.

End Year.

(** A string that begins with a date, such as 2024-01-15, is typed [date]:
    [parseFloat] alone would read the year off it as a number, and it is
    [isFinite] that keeps it from being typed [numeric_string]. *)
Theorem dates_are_typed_date (host : Host) (s : string) :
  matchesDate s = true ->
  getDataType host (VString s) = "date"
  /\ isNumeric host (VString s) = false
  /\ JsNumber.isFinite (ToNumber (VString s)) = false
  /\ exists year, 0 <= year <= 9999
       /\ parseFloat host (VString s) = JsNumber.roundDecimal year 0.
Proof.
  intros Hd.
  destruct (date_shape s Hd) as (y1 & y2 & y3 & y4 & rest & Hs & D1 & D2 & D3 & D4).
  assert (Hn : JsNumber.isFinite (ToNumber (VString s)) = false).
  { simpl. rewrite (year_StringToNumber y1 y2 y3 y4 D1 D2 D3 D4 rest s Hs).
    reflexivity. }
  assert (Hi : isNumeric host (VString s) = false).
  { unfold isNumeric. rewrite Hn. apply andb_false_r. }
  split; [|split; [exact Hi|split; [exact Hn|]]].
  - unfold getDataType. rewrite Hi, Hd. reflexivity.
  - exists (JsNumber.digitsValue [y1; y2; y3; y4]). split.
    + pose proof (digit_value y1 D1). pose proof (digit_value y2 D2).
      pose proof (digit_value y3 D3). pose proof (digit_value y4 D4).
      unfold JsNumber.digitsValue. cbn [fold_left]. lia.
    + unfold parseFloat, JsNumber.parseFloatString. simpl ToString. rewrite Hs.
      apply year_parseFloat; assumption.
Qed.

Lemma dates_are_typed_date_witness :
  getDataType ExampleHost.host (VString "2024-01-15") = "date"
  /\ parseFloat ExampleHost.host (VString "2024-01-15") = 2024%float.
Proof.
  destruct (dates_are_typed_date ExampleHost.host "2024-01-15" eq_refl)
    as (Hdate & _).
  split; [exact Hdate|reflexivity].
Defined.

End HelperFacts.

(** ** Sorting a column of dates *)

Module DateSortFacts.

Import DataTable Views TableFacts Helpers HelperFacts Dates.

(** The year numbers 0 to 9999 are numbers, and none differs from itself. *)
Lemma years_checked :
  forallb (fun n => let x := JsNumber.roundDecimal (Z.of_nat n) 0 in
                    negb (JsNumber.isNaN x) && negb (x - x <? 0)%float)
          (seq 0 (Z.to_nat 10000)) = true.
Proof. vm_compute. reflexivity. Qed.

Lemma year_number (year : Z) :
  0 <= year <= 9999 ->
  JsNumber.isNaN (JsNumber.roundDecimal year 0) = false
  /\ (JsNumber.roundDecimal year 0 - JsNumber.roundDecimal year 0 <? 0)%float = false.
Proof.
  intros Hy. pose proof years_checked as H.
  rewrite forallb_forall in H. specialize (H (Z.to_nat year)).
  rewrite Z2Nat.id in H by lia. cbv zeta in H.
  assert (Hin : In (Z.to_nat year) (seq 0 (Z.to_nat 10000)))
    by (apply in_seq; lia).
  apply H in Hin. apply andb_true_iff in Hin as [H1 H2].
  apply negb_true_iff in H1, H2. split; assumption.
Qed.

(** What the comparator sees of a dated row: the number of its year. *)
Lemma dated_value (host : Host) (col year : string) (row : Record) :
  datedIn col year row = true ->
  nullAt col row = false
  /\ exists y, 0 <= y <= 9999
       /\ parseFloat host (get row col) = JsNumber.roundDecimal y 0
       /\ (forall row', datedIn col year row' = true ->
             parseFloat host (get row' col) = JsNumber.roundDecimal y 0).
Proof.
  unfold datedIn, nullAt. destruct (get row col) as [| |b|x|s]; try discriminate.
  intros H. apply andb_true_iff in H as [Hd Hy].
  apply String.eqb_eq in Hy. split; [reflexivity|].
  destruct (date_shape s Hd) as (y1 & y2 & y3 & y4 & rest & Hs & D1 & D2 & D3 & D4).
  exists (JsNumber.digitsValue [y1; y2; y3; y4]). split.
  { pose proof (digit_value y1 D1). pose proof (digit_value y2 D2).
    pose proof (digit_value y3 D3). pose proof (digit_value y4 D4).
    unfold JsNumber.digitsValue. cbn [fold_left]. lia. }
  split.
  { unfold parseFloat, JsNumber.parseFloatString. simpl ToString. rewrite Hs.
    apply year_parseFloat; assumption. }
  intros row'. destruct (get row' col) as [| |b'|x'|s']; try discriminate.
  intros H'. apply andb_true_iff in H' as [Hd' Hy'].
  apply String.eqb_eq in Hy'.
  destruct (date_shape s' Hd')
    as (z1 & z2 & z3 & z4 & rest' & Hs' & E1 & E2 & E3 & E4).
  rewrite Hs in Hy. rewrite Hs' in Hy'. simpl in Hy, Hy'.
  rewrite <- Hy' in Hy. injection Hy as <- <- <- <-.
  unfold parseFloat, JsNumber.parseFloatString. simpl ToString. rewrite Hs'.
  apply year_parseFloat; assumption.
Qed.

(** Two rows dated in one year are on one rank, in either direction. *)
Lemma same_year_sameRank (host : Host) (col year : string) (dir : SortDirection)
      (a b : Record) :
  datedIn col year a = true -> datedIn col year b = true ->
  sameRank host col dir a b = true.
Proof.
  intros Ha Hb.
  destruct (dated_value host col year a Ha) as (Na & y & Hy & Pa & Hsame).
  pose proof (Hsame b Hb) as Pb.
  destruct (dated_value host col year b Hb) as (Nb & _).
  destruct (year_number y Hy) as (Hnan & Hsub).
  assert (Hcmp : forall u v, nullAt col u = false -> nullAt col v = false ->
            parseFloat host (get u col) = JsNumber.roundDecimal y 0 ->
            parseFloat host (get v col) = JsNumber.roundDecimal y 0 ->
            JsArray.sortsBefore (compareRows host col dir) u v = false).
  { intros u v Nu Nv Pu Pv. unfold JsArray.sortsBefore, compareRows.
    unfold nullAt in Nu, Nv. rewrite Nu, Nv, Pu, Pv, Hnan. simpl.
    destruct dir; exact Hsub. }
  unfold sameRank. rewrite (Hcmp a b), (Hcmp b a) by assumption. reflexivity.
Qed.

(** Sorting by a column of dates compares the years only: where every
    row is dated in one year no row sorts before another, the engine finds
    the rows to be one run, and the column is left as it is, the row limit
    apart. *)
Theorem dates_of_one_year_stay_unsorted
        (host : Host) (p : Props) (st : State) (col year : string) :
  sortColumn st = Some col ->
  forallb (datedIn col year) (data p) = true ->
  processedData host p st = limitRows (maxRows p) (data p).
Proof.
  intros Hc Hevery. rewrite processedData_unfold. f_equal.
  unfold sortedRows. rewrite Hc.
  destruct (truthyColumn (Some col)); [|reflexivity].
  apply SortFacts.sort_fixed_on. intros x e Hx He.
  rewrite forallb_forall in Hevery.
  pose proof (same_year_sameRank host col year (sortDirection st) x e
                (Hevery x Hx) (Hevery e He)) as H.
  unfold sameRank in H. apply andb_true_iff in H as [H _].
  apply negb_true_iff, H.
Qed.

Lemma dates_of_one_year_stay_unsorted_witness :
  processedData ExampleHost.host table2024 (handleSort "day" initialState)
  = rows2024.
Proof.
  apply (dates_of_one_year_stay_unsorted ExampleHost.host table2024
           (handleSort "day" initialState) "day" "2024" eq_refl).
  reflexivity.
Defined.

End DateSortFacts.

(** ** The export *)

Module ExportFacts.

Import DataTable Views TableFacts MoreExamples.

(** *** Which columns reach the CSV text *)

(** The CSV text reads of every record the columns of the first record and
    nothing else: two datasets with the same first record whose records
    agree, one by one, on the columns of the first give the same text.  A
    column that only later records have never reaches the file. *)
Theorem csv_reads_the_columns_of_the_first_record
        (host : Host) (first : Record) (rows rows' : Dataset) :
  Forall2 (fun r r' => forall h, In h (Object_keys first) -> get r h = get r' h)
          (first :: rows) (first :: rows') ->
  convertToCSV host (first :: rows) = convertToCSV host (first :: rows').
Proof.
  intros H. unfold convertToCSV. f_equal. f_equal.
  induction H as [|r r' l l' Hr Hl IH]; [reflexivity|].
  simpl. f_equal; [|exact IH].
  f_equal. apply map_ext_in. intros h Hh. rewrite (Hr h Hh). reflexivity.
Qed.

Lemma csv_reads_the_columns_of_the_first_record_witness :
  convertToCSV ExampleHost.host
    [ [("a", VString "1")]; [("a", VString "2"); ("b", VString "lost")] ]
  = convertToCSV ExampleHost.host
      [ [("a", VString "1")]; [("a", VString "2")] ].
Proof.
  apply (csv_reads_the_columns_of_the_first_record ExampleHost.host
           [("a", VString "1")]
           [ [("a", VString "2"); ("b", VString "lost")] ]
           [ [("a", VString "2")] ]).
  repeat constructor; intros h [<-|[]]; reflexivity.
Defined.

(** *** No two strings share a CSV field *)

Lemma doubleQuotes_inj (s t : string) :
  CsvSpec.doubleQuotes s = CsvSpec.doubleQuotes t -> s = t.
Proof.
  revert t. induction s as [|c s IH]; intros [|d t]; simpl.
  - reflexivity.
  - destruct (Ascii.eqb d JsString.dquote); discriminate.
  - destruct (Ascii.eqb c JsString.dquote); discriminate.
  - destruct (Ascii.eqb c JsString.dquote) eqn:Ec,
             (Ascii.eqb d JsString.dquote) eqn:Ed; intros H.
    + inversion H; subst. f_equal. apply IH. assumption.
    + exfalso. inversion H; subst.
      destruct t as [|e t]; simpl in *; [discriminate|].
      destruct (Ascii.eqb e JsString.dquote); inversion H2; subst; congruence.
    + exfalso. inversion H; subst.
      destruct s as [|e s]; simpl in *; [discriminate|].
      destruct (Ascii.eqb e JsString.dquote); inversion H2; subst; congruence.
    + inversion H; subst. f_equal. apply IH. assumption.
Qed.

Lemma append_char_inj (a b : string) (c : ascii) :
  a ++ JsString.str c = b ++ JsString.str c -> a = b.
Proof.
  revert b. induction a as [|x a IH]; intros [|y b]; simpl; intros H.
  - reflexivity.
  - injection H as _ H. destruct b; discriminate H.
  - injection H as _ H. destruct a; discriminate H.
  - injection H as <- H. f_equal. apply IH, H.
Qed.

Lemma append_inv_head (a b c : string) : a ++ b = a ++ c -> b = c.
Proof.
  induction a as [|x a IH]; simpl; intros H; [exact H|].
  injection H as H. apply IH, H.
Qed.

Lemma field_inj (host : Host) (s t : string) :
  CsvSpec.field host (VString s) = CsvSpec.field host (VString t) -> s = t.
Proof.
  assert (Hplain : forall u v,
            CsvSpec.needsQuoting u = false ->
            u = String JsString.dquote v -> False).
  { intros u v Hu ->. unfold CsvSpec.needsQuoting in Hu. simpl in Hu.
    discriminate Hu. }
  unfold CsvSpec.field.
  destruct (CsvSpec.needsQuoting s) eqn:Es, (CsvSpec.needsQuoting t) eqn:Et;
    intros H.
  - injection H as H. apply append_char_inj in H. apply doubleQuotes_inj, H.
  - exfalso. symmetry in H. eapply Hplain; eassumption.
  - exfalso. eapply Hplain; eassumption.
  - exact H.
Qed.

(** The text of a dataset of one cell. *)
Lemma csv_of_one_cell (host : Host) (col s : string) :
  convertToCSV host [ [(col, VString s)] ]
  = col ++ JsString.str JsString.newline ++ CsvSpec.field host (VString s).
Proof.
  unfold convertToCSV, Array_join. simpl. rewrite String.eqb_refl. simpl.
  unfold JsString.str.
  rewrite !GridEngine.includes_char, GridEngine.replaceAll_dquote.
  unfold CsvSpec.needsQuoting. rewrite GridEngine.existsb_orb3.
  destruct (existsb _ _ || existsb _ _ || existsb _ _); reflexivity.
Qed.

(** Two strings never give the same CSV text: the quoting keeps apart what
    commas, double quotes and newlines inside a value could confuse. *)
Theorem csv_keeps_strings_apart (host : Host) (col s t : string) :
  convertToCSV host [ [(col, VString s)] ] = convertToCSV host [ [(col, VString t)] ] ->
  s = t.
Proof.
  rewrite !csv_of_one_cell. intros H.
  apply append_inv_head in H. apply append_inv_head in H.
  apply (field_inj host), H.
Qed.

Lemma csv_keeps_strings_apart_witness :
  "a,b" = "a,b".
Proof.
  apply (csv_keeps_strings_apart ExampleHost.host "v" "a,b" "a,b").
  reflexivity.
Defined.

(** *** The file name *)

Lemma lowerChar_not_capital (c : ascii) : isCapital (JsString.lowerChar c) = false.
Proof. destruct c as [[] [] [] [] [] [] [] []]; reflexivity. Qed.

Lemma replaceSpaceRuns_plain (inRun : bool) (s : string) :
  forallb (fun c => negb (isCapital c)) (list_ascii_of_string s) = true ->
  forallb plain (list_ascii_of_string (JsString.replaceSpaceRuns "_" inRun s)) = true.
Proof.
  revert inRun. induction s as [|c s IH]; intros inRun; simpl; [reflexivity|].
  intros H. apply andb_true_iff in H as [Hc Hs].
  destruct (JsString.isWhiteSpace c) eqn:W.
  - destruct inRun; simpl; apply IH, Hs.
  - simpl. unfold plain at 1. rewrite W, Hc. simpl. apply IH, Hs.
Qed.

Lemma toLowerCase_no_capital (s : string) :
  forallb (fun c => negb (isCapital c)) (list_ascii_of_string (JsString.toLowerCase s))
  = true.
Proof.
  induction s as [|c s IH]; simpl; [reflexivity|].
  rewrite lowerChar_not_capital, IH. reflexivity.
Qed.

(** The name of the exported file is a base, a point and the format; the
    base, made from the title, has no white space and no capital letter
    A..Z, whatever the title. *)
Theorem export_file_name_is_plain
        (host : Host) (p : Props) (st : State) (format : string) :
  filename (handleExport host p st format)
  = JsString.replaceSpaceRuns "_" false (JsString.toLowerCase (title p))
    ++ "." ++ format
  /\ forallb plain
       (list_ascii_of_string
          (JsString.replaceSpaceRuns "_" false (JsString.toLowerCase (title p))))
     = true.
Proof.
  split.
  - unfold handleExport. destruct (String.eqb format "csv"); reflexivity.
  - apply replaceSpaceRuns_plain, toLowerCase_no_capital.
Qed.

End ExportFacts.

(** ** What the table shows *)

Module ViewFacts.

Import DataTable Views TableFacts MoreExamples.

Lemma In_firstn {A : Type} (n : nat) (l : list A) (x : A) :
  In x (firstn n l) -> In x l.
Proof.
  intros H. rewrite <- (firstn_skipn n l). apply in_or_app. left. exact H.
Qed.

Lemma In_skipn {A : Type} (n : nat) (l : list A) (x : A) :
  In x (skipn n l) -> In x l.
Proof.
  intros H. rewrite <- (firstn_skipn n l). apply in_or_app. right. exact H.
Qed.

Lemma In_slice {A : Type} (a b : Z) (l : list A) (x : A) :
  In x (JsArray.slice a b l) -> In x l.
Proof. unfold JsArray.slice. intros H. eapply In_skipn, In_firstn, H. Qed.

(** A window of [w] positions holds at most [w] elements, wherever it
    starts. *)
Lemma slice_length_le {A : Type} (a w : Z) (l : list A) :
  0 <= w -> Z.of_nat (List.length (JsArray.slice a (a + w) l)) <= w.
Proof.
  intros Hw. unfold JsArray.slice, JsArray.relIndex. cbv zeta.
  rewrite length_firstn, length_skipn.
  destruct (Z.ltb_spec a 0), (Z.ltb_spec (a + w) 0); lia.
Qed.

Section WithHost.

Variable host : Host.

(** Every visible row is a row of the dataset. *)
Lemma processedData_In (p : Props) (st : State) (row : Record) :
  In row (processedData host p st) -> In row (data p).
Proof.
  rewrite processedData_unfold.
  destruct (limitRows_prefix (maxRows p) (sortedRows host st (data p))) as [k ->].
  intros H. apply In_firstn in H.
  apply (Permutation_in _ (sortedRows_Permutation host st (data p))), H.
Qed.

(** The number of visible rows is the number of rows of the dataset cut by
    the row limit, whatever is sorted: all rows under no limit or a limit
    of 0, the first [maxRows] under a positive one; a negative limit leaves
    that many rows out at the end. *)
Theorem visible_row_count (p : Props) (st : State) :
  Z.of_nat (List.length (processedData host p st))
  = match maxRows p with
    | None => Z.of_nat (List.length (data p))
    | Some n =>
        if n =? 0 then Z.of_nat (List.length (data p))
        else if n <? 0 then Z.max (Z.of_nat (List.length (data p)) + n) 0
        else Z.min n (Z.of_nat (List.length (data p)))
    end.
Proof.
  rewrite processedData_unfold.
  assert (Hlen : List.length (sortedRows host st (data p)) = List.length (data p))
    by (apply Permutation_length, sortedRows_Permutation).
  unfold limitRows. destruct (maxRows p) as [n|]; [|rewrite Hlen; reflexivity].
  simpl truthyRows. destruct (Z.eqb_spec n 0) as [->|Hn]; simpl;
    [rewrite Hlen; reflexivity|].
  rewrite SliceFacts.slice0_firstn, length_firstn, Hlen.
  unfold JsArray.relIndex. destruct (Z.ltb_spec n 0); lia.
Qed.

Lemma step_keeps_expanded (p : Props) (st : State) (e : Event) :
  expandedFromTable p st -> expandedFromTable p (step host p st e).
Proof.
  intros H. unfold step. destruct (data p) as [|r rows] eqn:Ed; [exact H|].
  destruct e as [col|index col| | |page|format|].
  - destruct (inb col (columns p)); [|exact H].
    unfold expandedFromTable.
    replace (expandedCell (handleSort col st)) with (expandedCell st);
      [exact H|].
    unfold handleSort. destruct (sortColumn st) as [c|]; [|reflexivity].
    destruct (String.eqb c col); reflexivity.
  - destruct (inb col (columns p)) eqn:Hcol; [|exact H].
    destruct (nth_error (currentData host p st) index) as [row|] eqn:Hrow;
      [|exact H].
    unfold handleCellClick. destruct (get row col) as [| |b|x|s] eqn:Hget;
      try exact H.
    destruct (Nat.ltb_spec 50 (String.length s)) as [Hlong|_]; [|exact H].
    unfold expandedFromTable. simpl.
    split; [exact Hlong|]. split; [|split].
    + assert (Hi : (index < List.length (currentData host p st))%nat)
        by (apply nth_error_Some; congruence).
      pose proof (slice_length_le (startIndex st) 10
                    (processedData host p st) ltac:(lia)) as Hl.
      unfold currentData, endIndex, rowsPerPage in Hi. lia.
    + unfold inb in Hcol. apply existsb_exists in Hcol as (c & Hc & Heq).
      apply String.eqb_eq in Heq. subst c. exact Hc.
    + exists row. split; [|exact Hget].
      apply processedData_In with (st := st).
      apply nth_error_In in Hrow. unfold currentData in Hrow.
      eapply In_slice, Hrow.
  - destruct ((1 <? totalPages host p st) && negb (currentPage st =? 1)); exact H.
  - destruct ((1 <? totalPages host p st)
              && negb (currentPage st =? totalPages host p st)); exact H.
  - destruct ((1 <? totalPages host p st)
              && existsb (Z.eqb page) (pageButtons host p st)); exact H.
  - exact H.
  - destruct (expandedCell st) eqn:E; [|exact H].
    unfold expandedFromTable. simpl. exact I.
Qed.

(** Whatever is clicked after the mount, the expanded cell, if there is
    one, holds a string of more than fifty characters that some row of the
    dataset has in the cell's column; the column is one of the table's, and
    the row index is the row's position on its page, below ten. *)
Theorem expanded_cell_comes_from_the_table
        (p : Props) (es : list Event) (c : ExpandedCell) :
  expandedCell (run host p initialState es) = Some c ->
  (50 < String.length (value c))%nat
  /\ (rowIndex c < 10)%nat
  /\ In (column c) (columns p)
  /\ exists row, In row (data p) /\ get row (column c) = VString (value c).
Proof.
  assert (H : expandedFromTable p (run host p initialState es)).
  { unfold run. assert (H0 : expandedFromTable p initialState) by exact I.
    revert H0. generalize initialState as st.
    induction es as [|e es IH]; intros st Hst; simpl; [exact Hst|].
    apply IH, step_keeps_expanded, Hst. }
  unfold expandedFromTable in H. intros Hc. rewrite Hc in H. exact H.
Qed.

(** A table that a chat message shows for its results has a row limit of
    ten and ten rows to a page: it shows the first ten rows of the sorted
    results at most, on one page; no click leads to another page, so the
    rows after the tenth are never shown. *)
Theorem chat_results_fit_one_page (rows : Dataset) (st : State) (es : list Event) :
  Z.of_nat (List.length (processedData host (Chat.resultsTable rows) st))
  = Z.min 10 (Z.of_nat (List.length rows))
  /\ totalPages host (Chat.resultsTable rows) st <= 1
  /\ currentPage (run host (Chat.resultsTable rows) initialState es) = 1
  /\ currentData host (Chat.resultsTable rows)
       (run host (Chat.resultsTable rows) initialState es)
     = processedData host (Chat.resultsTable rows)
         (run host (Chat.resultsTable rows) initialState es).
Proof.
  set (p := Chat.resultsTable rows).
  assert (Hcount : forall s, Z.of_nat (List.length (processedData host p s))
                             = Z.min 10 (Z.of_nat (List.length rows))).
  { intros s. rewrite visible_row_count. reflexivity. }
  assert (Hpages : forall s, totalPages host p s <= 1).
  { intros s. unfold totalPages, ceilDiv, rowsPerPage. rewrite Hcount.
    apply Z.lt_succ_r. apply Z.div_lt_upper_bound; lia. }
  assert (Hstep : forall s e, currentPage s = 1 -> currentPage (step host p s e) = 1).
  { intros s e Hs. unfold step. destruct (data p); [exact Hs|].
    assert (Hoff : (1 <? totalPages host p s) = false).
    { apply Z.ltb_ge, Hpages. }
    destruct e as [col|index col| | |page|format|]; rewrite ?Hoff; simpl;
      try exact Hs.
    - destruct (inb col (columns p)); [reflexivity|exact Hs].
    - destruct (inb col (columns p)); [|exact Hs].
      destruct (nth_error (currentData host p s) index); [|exact Hs].
      rewrite GridEngine.handleCellClick_page. exact Hs.
    - destruct (expandedCell s); exact Hs. }
  assert (Hrun : currentPage (run host p initialState es) = 1).
  { unfold run. assert (H0 : currentPage initialState = 1) by reflexivity.
    revert H0. generalize initialState as s.
    induction es as [|e es IH]; intros s Hs; simpl; [exact Hs|].
    apply IH, Hstep, Hs. }
  split; [apply Hcount|]. split; [apply Hpages|]. split; [exact Hrun|].
  unfold currentData, endIndex, startIndex, rowsPerPage. rewrite Hrun.
  change ((1 - 1) * 10) with (Z.of_nat 0).
  rewrite PagerFacts.slice_window. simpl skipn.
  apply firstn_all2. specialize (Hcount (run host p initialState es)). lia.
Qed.

End WithHost.

Lemma expanded_cell_comes_from_the_table_witness :
  expandedCell (run ExampleHost.host MoreExamples.notesTable initialState
                    [ClickCell 0 "note"; ClickHeader "note"])
  = Some {| value := Examples.sixty; column := "note"; rowIndex := 0 |}
  /\ In "note" (columns MoreExamples.notesTable).
Proof.
  split; [reflexivity|].
  apply (expanded_cell_comes_from_the_table ExampleHost.host
           MoreExamples.notesTable [ClickCell 0 "note"; ClickHeader "note"]
           {| value := Examples.sixty; column := "note"; rowIndex := 0 |}
           eq_refl).
Defined.

End ViewFacts.

(** ** The chat *)

Module ChatFacts.

Import Chat ChatNotions.

(** What [handleSend] does with an input that is not blank while nothing
    is loading. *)
Lemma handleSend_sends (now date : Z) (pg : Page) :
  Helpers.trim (inputText pg) <> EmptyString ->
  isLoading (chat pg) = false ->
  handleSend now date pg
  = {| inputText := EmptyString;
       chat := {| messages :=
                    (messages (chat pg) ++
                       [ {| id := now; type := typeUser;
                            content := Helpers.trim (inputText pg);
                            timestamp := date; reply := None |} ])%list;
                  isLoading := true;
                  error := None |};
       inFlight := S (inFlight pg) |}.
Proof.
  intros Hne Hl. unfold handleSend, sendMessage_begin.
  rewrite HelperFacts.trim_again, Hl.
  destruct (String.eqb_spec (Helpers.trim (inputText pg)) EmptyString);
    [contradiction|reflexivity].
Qed.

Lemma handleSend_idle (now date : Z) (pg : Page) :
  Helpers.trim (inputText pg) = EmptyString \/ isLoading (chat pg) = true ->
  handleSend now date pg = pg.
Proof.
  unfold handleSend. intros [-> | ->]; [reflexivity|].
  rewrite andb_false_r. reflexivity.
Qed.

Lemma step_steady (pg : Page) (e : Event) : steady pg -> steady (step pg e).
Proof.
  intros Hst. pose proof Hst as (Hle & Hload & Hmsgs).
  assert (Happ : forall m, trimmedText m ->
            Forall trimmedText (messages (chat pg) ++ [m])).
  { intros m Hm. apply Forall_app. split; [exact Hmsgs|].
    constructor; [exact Hm|constructor]. }
  destruct e as [text|now date|suggestion| |r now date|reason now date]; simpl.
  - destruct (isLoading (chat pg)); exact Hst.
  - destruct (String.eqb_spec (Helpers.trim (inputText pg)) EmptyString) as [He|Hne].
    { rewrite handleSend_idle by (left; exact He). exact Hst. }
    destruct (isLoading (chat pg)) eqn:Hl.
    { rewrite handleSend_idle by (right; exact Hl). exact Hst. }
    rewrite (handleSend_sends now date pg Hne Hl). unfold steady. simpl.
    assert (H0 : inFlight pg = O).
    { destruct (inFlight pg) as [|[|n]]; [reflexivity| |lia].
      destruct Hload as [_ H1]. specialize (H1 eq_refl). congruence. }
    rewrite H0. split; [lia|]. split; [split; reflexivity|].
    apply Happ. intros _. split; [exact Hne|apply HelperFacts.trim_again].
  - destruct (messages (chat pg)); exact Hst.
  - destruct (messages (chat pg)) eqn:Em; [exact Hst|].
    unfold steady. simpl. split; [exact Hle|]. split; [exact Hload|constructor].
  - destruct (inFlight pg) as [|n] eqn:En; [exact Hst|].
    unfold steady. simpl. assert (n = O) by lia. subst n.
    split; [lia|]. split; [split; discriminate|].
    apply Happ. intros H. discriminate H.
  - destruct (inFlight pg) as [|n] eqn:En; [exact Hst|].
    unfold steady. simpl. assert (n = O) by lia. subst n.
    split; [lia|]. split; [split; discriminate|].
    apply Happ. intros H. discriminate H.
Qed.

Lemma run_steady (es : list Event) : steady (run es).
Proof.
  unfold run.
  assert (H0 : steady initialPage).
  { split; [simpl; lia|]. split; [split; discriminate|constructor]. }
  revert H0. generalize initialPage as pg.
  induction es as [|e es IH]; intros pg Hpg; simpl; [exact Hpg|].
  apply IH, step_steady, Hpg.
Qed.

(** Whatever happens on the chat page, at most one call of [sendMessage]
    waits for the API, and the page is loading, with the input and the send
    button disabled, exactly while one does. *)
Theorem one_request_at_a_time (es : list Event) :
  (inFlight (run es) <= 1)%nat
  /\ (isLoading (chat (run es)) = true <-> inFlight (run es) = 1%nat).
Proof.
  destruct (run_steady es) as (H1 & H2 & _). split; assumption.
Qed.

(** Every message of the user in the chat is the input with the white space
    around it trimmed off, and is not empty. *)
Theorem user_messages_are_trimmed (es : list Event) (m : Message) :
  In m (messages (chat (run es))) -> type m = typeUser ->
  content m <> EmptyString /\ Helpers.trim (content m) = content m.
Proof.
  destruct (run_steady es) as (_ & _ & H).
  rewrite Forall_forall in H. intros Hin. apply H, Hin.
Qed.

Lemma user_messages_are_trimmed_witness :
  messages (chat (run [ChangeInput "  show steel output  "; Send 1000 1001]))
  = [ {| id := 1000; type := typeUser; content := "show steel output";
         timestamp := 1001; reply := None |} ]
  /\ Helpers.trim "show steel output" = "show steel output".
Proof.
  split; [reflexivity|].
  apply (user_messages_are_trimmed
           [ChangeInput "  show steel output  "; Send 1000 1001]
           {| id := 1000; type := typeUser; content := "show steel output";
              timestamp := 1001; reply := None |}).
  - left. reflexivity.
  - reflexivity.
Defined.

(** A question and what comes back: from a page that is not loading, an
    input that is not blank goes out as one message, and when the answer
    or the failure arrives the chat has two messages more, the user's and
    then the reply, and loading is over; a failure also sets the error. *)
Theorem question_then_reply (pg : Page) (now date later date' : Z) :
  Helpers.trim (inputText pg) <> EmptyString ->
  isLoading (chat pg) = false ->
  (forall r,
     messages (chat (step (step pg (Send now date)) (Answer r later date')))
     = (messages (chat pg)
        ++ [ {| id := now; type := typeUser;
                content := Helpers.trim (inputText pg);
                timestamp := date; reply := None |};
             {| id := later + 1; type := typeAi; content := response r;
                timestamp := date'; reply := Some r |} ])%list
     /\ isLoading (chat (step (step pg (Send now date)) (Answer r later date')))
        = false
     /\ error (chat (step (step pg (Send now date)) (Answer r later date')))
        = None)
  /\ (forall reason,
     messages (chat (step (step pg (Send now date)) (Fail reason later date')))
     = (messages (chat pg)
        ++ [ {| id := now; type := typeUser;
                content := Helpers.trim (inputText pg);
                timestamp := date; reply := None |};
             {| id := later + 1; type := typeError;
                content := "Sorry, I encountered an error: " ++ reason;
                timestamp := date'; reply := None |} ])%list
     /\ isLoading (chat (step (step pg (Send now date)) (Fail reason later date')))
        = false
     /\ error (chat (step (step pg (Send now date)) (Fail reason later date')))
        = Some reason)
  /\ inputText (step pg (Send now date)) = EmptyString.
Proof.
  intros Hne Hl. simpl step at 2 4 6 8 10 12.
  change (step pg (Send now date)) with (handleSend now date pg).
  rewrite (handleSend_sends now date pg Hne Hl). simpl.
  split; [intros r|split; [intros reason|reflexivity]];
    (split; [rewrite <- app_assoc; reflexivity|split; reflexivity]).
Qed.

Lemma question_then_reply_witness :
  messages (chat (step (step (step initialPage (ChangeInput " co2 ")) (Send 5 6))
                       (Fail "Failed to send message" 9 9)))
  = [ {| id := 5; type := typeUser; content := "co2";
         timestamp := 6; reply := None |};
      {| id := 10; type := typeError;
         content := "Sorry, I encountered an error: Failed to send message";
         timestamp := 9; reply := None |} ].
Proof.
  destruct (question_then_reply (step initialPage (ChangeInput " co2 ")) 5 6 9 9)
    as (_ & Hfail & _).
  - discriminate.
  - reflexivity.
  - destruct (Hfail "Failed to send message") as (Hm & _). exact Hm.
Defined.

End ChatFacts.

(** ** The database explorer *)

Module ExplorerFacts.

Import Explorer.

Lemma inb_In (x : string) (l : list string) : inb x l = true -> In x l.
Proof.
  unfold inb. intros H. apply existsb_exists in H as (y & Hy & Heq).
  apply String.eqb_eq in Heq. subst y. exact Hy.
Qed.

Lemma removeOne_In (x t : string) (l : list string) :
  In t (removeOne x l) -> In t l.
Proof.
  induction l as [|y l IH]; simpl; [auto|].
  destruct (String.eqb x y); [auto|].
  intros [H|H]; [left; exact H|right; apply IH, H].
Qed.

Lemma step_keeps_error (pg : Page) (e : Event) :
  error (state pg) <> None -> error (state (step pg e)) <> None.
Proof.
  intros H. destruct e as [l|reason|t|t info|t reason]; simpl.
  - destruct (tablesPending pg); exact H.
  - destruct (tablesPending pg); [discriminate|exact H].
  - unfold view. destruct (loading (state pg)); [exact H|].
    destruct (error (state pg)) eqn:E; [|contradiction].
    simpl. rewrite E. discriminate.
  - destruct (inb t (tablePending pg)); exact H.
  - destruct (inb t (tablePending pg)); [discriminate|exact H].
Qed.

(** Once a call has failed the explorer keeps its error: no event clears
    it, since only a click on a table would and the error page has no
    table to click; the main page does not come back. *)
Theorem explorer_error_is_final (es more : list Event) :
  error (state (run es)) <> None ->
  error (state (run (es ++ more))) <> None
  /\ view (state (run (es ++ more))) <> MainView.
Proof.
  intros H.
  assert (Herr : error (state (run (es ++ more))) <> None).
  { unfold run in *. rewrite fold_left_app.
    revert H. generalize (fold_left step es initialPage) as pg.
    induction more as [|e more IH]; intros pg H; simpl; [exact H|].
    apply IH, step_keeps_error, H. }
  split; [exact Herr|].
  unfold view. destruct (loading (state (run (es ++ more)))); [discriminate|].
  destruct (error (state (run (es ++ more)))); [discriminate|contradiction].
Qed.

Lemma explorer_error_is_final_witness :
  view (state (run [TablesLoaded (Some ["esg_data"]); ClickTable "esg_data";
                    TableFailed "esg_data" "timeout"])) = ErrorView
  /\ view (state (run ([TablesLoaded (Some ["esg_data"]); ClickTable "esg_data";
                        TableFailed "esg_data" "timeout"]
                       ++ [ClickTable "esg_data"]))) <> MainView.
Proof.
  split; [reflexivity|].
  apply (explorer_error_is_final
           [TablesLoaded (Some ["esg_data"]); ClickTable "esg_data";
            TableFailed "esg_data" "timeout"]
           [ClickTable "esg_data"]).
  discriminate.
Defined.

Lemma step_listed (pg : Page) (e : Event) : listed pg -> listed (step pg e).
Proof.
  intros Hst. pose proof Hst as (Hwait & Hpend & Hsel).
  destruct e as [l|reason|t|t info|t reason]; simpl.
  - destruct (tablesPending pg) eqn:Ep; [|exact Hst].
    destruct (Hwait eq_refl) as (_ & Hnil & Hnone).
    unfold listed. simpl. rewrite Hnil, Hnone.
    split; [discriminate|]. split; [intros t []|discriminate].
  - destruct (tablesPending pg) eqn:Ep; [|exact Hst].
    destruct (Hwait eq_refl) as (_ & Hnil & Hnone).
    unfold listed. simpl. rewrite Hnil, Hnone.
    split; [discriminate|]. split; [intros t []|discriminate].
  - unfold view. destruct (loading (state pg)) eqn:El; [exact Hst|].
    destruct (error (state pg)); [exact Hst|].
    destruct (inb t (tables (state pg))) eqn:Et; [|exact Hst].
    unfold listed. simpl. split; [|split].
    + intros Hp. destruct (Hwait Hp) as (Hl & _). congruence.
    + intros u [<-|Hu]; [apply inb_In, Et|apply Hpend, Hu].
    + exact Hsel.
  - destruct (inb t (tablePending pg)) eqn:Et; [|exact Hst].
    unfold listed. simpl. split; [|split].
    + intros Hp. destruct (Hwait Hp) as (_ & Hnil & _).
      rewrite Hnil in Et. discriminate Et.
    + intros u Hu. apply Hpend. eapply removeOne_In, Hu.
    + intros u [= <-]. apply Hpend, inb_In, Et.
  - destruct (inb t (tablePending pg)) eqn:Et; [|exact Hst].
    unfold listed. simpl. split; [|split].
    + intros Hp. destruct (Hwait Hp) as (_ & Hnil & _).
      rewrite Hnil in Et. discriminate Et.
    + intros u Hu. apply Hpend. eapply removeOne_In, Hu.
    + exact Hsel.
Qed.

(** The table the explorer shows as selected is always one of the tables
    of its list, also when answers come back late or out of order. *)
Theorem explorer_selection_is_listed (es : list Event) (t : string) :
  selectedTable (state (run es)) = Some t -> In t (tables (state (run es))).
Proof.
  assert (H : listed (run es)).
  { unfold run.
    assert (H0 : listed initialPage).
    { split; [intros _; repeat split|]. split; [intros u []|discriminate]. }
    revert H0. generalize initialPage as pg.
    induction es as [|e es IH]; intros pg Hpg; simpl; [exact Hpg|].
    apply IH, step_listed, Hpg. }
  destruct H as (_ & _ & Hsel). apply Hsel.
Qed.

Lemma explorer_selection_is_listed_witness :
  selectedTable
    (state (run [TablesLoaded (Some ["esg_data"; "plants"]);
                 ClickTable "esg_data"; ClickTable "plants";
                 TableLoaded "plants" {| total_rows := 3; sample_data := None |};
                 TableLoaded "esg_data" {| total_rows := 9; sample_data := None |}]))
  = Some "esg_data"
  /\ In "esg_data" ["esg_data"; "plants"].
Proof.
  split; [reflexivity|].
  apply (explorer_selection_is_listed
           [TablesLoaded (Some ["esg_data"; "plants"]);
            ClickTable "esg_data"; ClickTable "plants";
            TableLoaded "plants" {| total_rows := 3; sample_data := None |};
            TableLoaded "esg_data" {| total_rows := 9; sample_data := None |}]
           "esg_data").
  reflexivity.
Defined.

End ExplorerFacts.

(** ** Sorting a column of text *)

Module TextOrderFacts.

Import DataTable Views TableFacts TextOrder.

Lemma StronglySorted_firstn {A : Type} (R : A -> A -> Prop) (k : nat) (l : list A) :
  StronglySorted R l -> StronglySorted R (firstn k l).
Proof.
  intros H. revert k. induction H as [|a l Hl IH Ha]; intros [|k]; simpl;
    try constructor.
  - apply IH.
  - rewrite Forall_forall in Ha |- *. intros b Hb.
    apply Ha. rewrite <- (firstn_skipn k l). apply in_or_app. left. exact Hb.
Qed.

Lemma StronglySorted_on {A : Type} (P : A -> Prop) (R R' : A -> A -> Prop)
      (l : list A) :
  (forall a b, P a -> P b -> R a b -> R' a b) ->
  Forall P l -> StronglySorted R l -> StronglySorted R' l.
Proof.
  intros HR Hl H. induction H as [|a l Hs IH Ha]; [constructor|].
  apply Forall_cons_iff in Hl as [Pa Hl].
  constructor; [apply IH, Hl|].
  rewrite Forall_forall in Ha, Hl |- *. intros b Hb.
  apply HR; auto.
Qed.

(** *** The comparator on a column without numbers *)

Section WithHost.

Variable host : Host.

Lemma sortsBefore_text (col : string) (dir : SortDirection) (a b : Record) :
  textOrNone host col a = true -> textOrNone host col b = true ->
  JsArray.sortsBefore (compareRows host col dir) a b
  = belongsBefore host col dir a b.
Proof.
  unfold textOrNone, textAt, belongsBefore, keyBefore, sortKey, nullAt,
    JsArray.sortsBefore, compareRows.
  intros Ha Hb.
  destruct (isNullish (get a col)); [reflexivity|].
  destruct (isNullish (get b col)); [reflexivity|].
  simpl in Ha, Hb. rewrite Ha. simpl.
  destruct dir; reflexivity.
Qed.

Lemma belongsBefore_asymmetric (col : string) (dir : SortDirection) (a b : Record) :
  collates host ->
  belongsBefore host col dir a b = true -> belongsBefore host col dir b a = false.
Proof.
  intros [Has _]. unfold belongsBefore, keyBefore.
  destruct (nullAt col a), (nullAt col b); simpl; try reflexivity; try discriminate.
  destruct dir; apply Has.
Qed.

Lemma belongsBefore_negatively_transitive
      (col : string) (dir : SortDirection) (a b c : Record) :
  collates host ->
  belongsBefore host col dir a b = false ->
  belongsBefore host col dir b c = false ->
  belongsBefore host col dir a c = false.
Proof.
  intros [_ Hnt]. unfold belongsBefore, keyBefore.
  destruct (nullAt col a), (nullAt col b), (nullAt col c); simpl;
    try reflexivity; try discriminate.
  destruct dir; intros H1 H2; [eapply Hnt; eassumption|].
  apply (Hnt _ _ _ H2 H1).
Qed.

(** Sorting by a column that holds no number puts the rows in the order of
    their texts: where the locale's comparison orders the strings, the
    visible rows stand, in the direction asked for, in the locale's order
    of their lower-cased texts, the rows without a value last; no row
    stands behind one it belongs in front of, under a row limit as well. *)
Theorem text_column_comes_out_in_order
        (p : Props) (st : State) (col : string) :
  collates host ->
  sortColumn st = Some col -> col <> EmptyString ->
  forallb (textOrNone host col) (data p) = true ->
  inTextOrder host col (sortDirection st) (processedData host p st).
Proof.
  intros Hc Hs Hne Hall.
  rewrite processedData_unfold.
  destruct (limitRows_prefix (maxRows p) (sortedRows host st (data p))) as [k ->].
  apply StronglySorted_firstn.
  assert (Hsorted : sortedRows host st (data p)
                    = JsArray.sort (compareRows host col (sortDirection st)) (data p)).
  { unfold sortedRows. rewrite Hs. unfold truthyColumn.
    destruct (String.eqb_spec col EmptyString) as [E|_]; [contradiction|].
    reflexivity. }
  rewrite Hsorted.
  rewrite forallb_forall in Hall.
  assert (Hclass : Forall (fun r => textOrNone host col r = true) (data p)).
  { apply Forall_forall, Hall. }
  apply (StronglySorted_on (fun r => textOrNone host col r = true)
           (fun a b => JsArray.sortsBefore
                         (compareRows host col (sortDirection st)) b a = false)).
  - intros a b Pa Pb H. rewrite <- (sortsBefore_text col _ b a Pb Pa). exact H.
  - apply (Permutation_Forall
             (Permutation_sym (SortFacts.sort_Permutation _ (data p)))), Hclass.
  - apply (SortFacts.sort_ordered _ (fun r => textOrNone host col r = true));
      [|exact Hclass].
    split.
    + intros x y Px Py. rewrite !sortsBefore_text by assumption.
      apply belongsBefore_asymmetric, Hc.
    + intros x y z Px Py Pz. rewrite !sortsBefore_text by assumption.
      apply belongsBefore_negatively_transitive, Hc.
Qed.

End WithHost.

(** *** A collation by code units orders the strings *)

Lemma compareChars_before (a b : list ascii) :
  (ExampleHost.compareChars a b <? 0)%float = lexBefore a b.
Proof.
  revert b. induction a as [|x a IH]; intros [|y b]; simpl; try reflexivity.
  destruct (nat_of_ascii x <? nat_of_ascii y)%nat; [reflexivity|].
  destruct (nat_of_ascii y <? nat_of_ascii x)%nat; [reflexivity|].
  apply IH.
Qed.

Lemma lexBefore_asymmetric (a b : list ascii) :
  lexBefore a b = true -> lexBefore b a = false.
Proof.
  revert b. induction a as [|x a IH]; intros [|y b]; simpl;
    try reflexivity; try discriminate.
  destruct (Nat.ltb_spec (nat_of_ascii x) (nat_of_ascii y)) as [H|H];
    destruct (Nat.ltb_spec (nat_of_ascii y) (nat_of_ascii x)) as [H'|H'];
    try lia; try reflexivity; try discriminate.
  apply IH.
Qed.

Lemma lexBefore_negatively_transitive (a b c : list ascii) :
  lexBefore a b = false -> lexBefore b c = false -> lexBefore a c = false.
Proof.
  revert b c. induction a as [|x a IH]; intros [|y b] [|z c]; simpl;
    try reflexivity; try discriminate.
  destruct (Nat.ltb_spec (nat_of_ascii x) (nat_of_ascii y)) as [Hxy|Hxy];
    [discriminate|].
  destruct (Nat.ltb_spec (nat_of_ascii y) (nat_of_ascii z)) as [Hyz|Hyz];
    [discriminate|].
  destruct (Nat.ltb_spec (nat_of_ascii x) (nat_of_ascii z)) as [Hxz|Hxz];
    [lia|].
  destruct (Nat.ltb_spec (nat_of_ascii y) (nat_of_ascii x)) as [Hyx|Hyx].
  - intros _ _.
    destruct (Nat.ltb_spec (nat_of_ascii z) (nat_of_ascii x)) as [_|Hzx];
      [reflexivity|lia].
  - destruct (Nat.ltb_spec (nat_of_ascii z) (nat_of_ascii y)) as [Hzy|Hzy].
    + intros _ _.
      destruct (Nat.ltb_spec (nat_of_ascii z) (nat_of_ascii x)) as [_|Hzx];
        [reflexivity|lia].
    + destruct (Nat.ltb_spec (nat_of_ascii z) (nat_of_ascii x)) as [_|Hzx];
        [reflexivity|].
      apply IH.
Qed.

Lemma codeUnitCompare_collates : collates ExampleHost.host.
Proof.
  split; simpl; unfold ExampleHost.codeUnitCompare.
  - intros x y. rewrite !compareChars_before. apply lexBefore_asymmetric.
  - intros x y z. rewrite !compareChars_before.
    apply lexBefore_negatively_transitive.
Qed.

Lemma text_column_comes_out_in_order_witness :
  processedData ExampleHost.host productTable (handleSort "product" initialState)
  = [ [("product", VString "billet")];
      [("product", VString "Coke")];
      [("product", VString "pellet")];
      [("product", VNull)] ]
  /\ inTextOrder ExampleHost.host "product" asc
       (processedData ExampleHost.host productTable
          (handleSort "product" initialState)).
Proof.
  split; [reflexivity|].
  apply (text_column_comes_out_in_order ExampleHost.host productTable
           (handleSort "product" initialState) "product").
  - exact codeUnitCompare_collates.
  - reflexivity.
  - discriminate.
  - reflexivity.
Defined.

End TextOrderFacts.
